(** * envman: the synchronization engine

    A shallow embedding of the parts of the envman CLI that keep a local
    [.env] file and its encrypted remote copy in step:

    - [utils/env-parser]    ([parseEnvFile], [writeEnvFile]),
    - [core/file-watcher]   ([FileWatcher]: debounce, [calculateChanges]),
    - [core/encryption]     ([EncryptionManager]),
    - [commands/sync]       ([performPull], [checkRemoteChanges], watch mode).

    JavaScript strings are sequences of UTF-16 code units, plain objects are
    ordered lists of own properties that inherit from [Object.prototype],
    and the file system, the remote store and the timers are explicit
    state. *)

From Stdlib Require Import List PeanoNat NArith Bool Lia String Ascii.
From Stdlib Require Strings.Byte.
Import ListNotations.

Local Open Scope N_scope.

(* ================================================================= *)
(** ** JavaScript strings *)

(** One UTF-16 code unit. *)
Definition char16 := N.

(** A JavaScript string value. *)
Definition jsstring := list char16.

(** The string written ["..."] in the source, for ASCII literals. *)
Fixpoint js (s : string) : jsstring :=
  match s with
  | EmptyString => []
  | String c r => N_of_ascii c :: js r
  end.

Definition jsstring_eqb (a b : jsstring) : bool :=
  if list_eq_dec N.eq_dec a b then true else false.

(** [WhiteSpace] and [LineTerminator] code points of ECMAScript: what
    [String.prototype.trim] removes. *)
Definition isWhiteSpace (c : char16) : bool :=
  (c =? 9) || (c =? 10) || (c =? 11) || (c =? 12) || (c =? 13) || (c =? 32)
  || (c =? 160) || (c =? 5760)
  || ((8192 <=? c) && (c <=? 8202))
  || (c =? 8232) || (c =? 8233) || (c =? 8239) || (c =? 8287)
  || (c =? 12288) || (c =? 65279).

Fixpoint trimStart (s : jsstring) : jsstring :=
  match s with
  | c :: r => if isWhiteSpace c then trimStart r else s
  | [] => []
  end.

Definition trimEnd (s : jsstring) : jsstring := rev (trimStart (rev s)).

(** [s.trim()] *)
Definition trim (s : jsstring) : jsstring := trimEnd (trimStart s).

(** [s.split(sep)] for a separator of one code unit: never empty. *)
Fixpoint split (sep : char16) (s : jsstring) : list jsstring :=
  match s with
  | [] => [[]]
  | c :: r =>
      if c =? sep then [] :: split sep r
      else match split sep r with
           | p :: ps => (c :: p) :: ps
           | [] => [[c]]
           end
  end.

(** [parts.join(sep)] for a separator string. *)
Fixpoint join (sep : jsstring) (parts : list jsstring) : jsstring :=
  match parts with
  | [] => []
  | [p] => p
  | p :: ps => p ++ sep ++ join sep ps
  end.

(** [s.startsWith(c)] for one code unit. *)
Definition startsWith (c : char16) (s : jsstring) : bool :=
  match s with
  | x :: _ => x =? c
  | [] => false
  end.

Definition LF : char16 := 10.
Definition HASH : char16 := 35.
Definition EQUALS : char16 := 61.
Definition QUOTE : char16 := 39.
Definition DQUOTE : char16 := 34.

(* ================================================================= *)
(** ** Plain objects used as [Record<string, string>] *)

(** Own enumerable string-valued properties, in the order
    [Object.keys], [Object.entries] and [for-in] list them: array-index
    keys ascending, then the other keys in insertion order. *)
Definition jsobject := list (jsstring * jsstring).

(** What reading [o[k]] can give for such an object. *)
Inductive jsvalue :=
| VString (s : jsstring)   (* an own property *)
| VInherited (k : jsstring) (* the member [k] of [Object.prototype]: never a string *)
| VUndefined.

(** The property names every plain object inherits from
    [Object.prototype]. *)
Definition objectPrototypeKeys : list jsstring :=
  map js [ "constructor"; "__defineGetter__"; "__defineSetter__";
           "hasOwnProperty"; "__lookupGetter__"; "__lookupSetter__";
           "isPrototypeOf"; "propertyIsEnumerable"; "toString"; "valueOf";
           "__proto__"; "toLocaleString" ]%string.

Definition inPrototype (k : jsstring) : bool :=
  existsb (jsstring_eqb k) objectPrototypeKeys.

Fixpoint getOwn (k : jsstring) (o : jsobject) : option jsstring :=
  match o with
  | [] => None
  | (k', v) :: r => if jsstring_eqb k k' then Some v else getOwn k r
  end.

Definition hasOwn (k : jsstring) (o : jsobject) : bool :=
  match getOwn k o with Some _ => true | None => false end.

(** [k in o]: own properties and the prototype chain. *)
Definition hasProperty (k : jsstring) (o : jsobject) : bool :=
  hasOwn k o || inPrototype k.

(** [o[k]] *)
Definition getProperty (k : jsstring) (o : jsobject) : jsvalue :=
  match getOwn k o with
  | Some v => VString v
  | None => if inPrototype k then VInherited k else VUndefined
  end.

(** [x !== y] *)
Definition strictNotEqual (x y : jsvalue) : bool :=
  match x, y with
  | VString s, VString t => negb (jsstring_eqb s t)
  | VInherited k, VInherited k' => negb (jsstring_eqb k k')
  | VUndefined, VUndefined => false
  | _, _ => true
  end.

Definition isDigit (c : char16) : bool := (48 <=? c) && (c <=? 57).

Definition decimalValue (s : jsstring) : N :=
  fold_left (fun acc c => 10 * acc + (c - 48)) s 0.

(** An array index: the canonical decimal numeral of an integer below
    [2^32 - 1]. *)
Definition arrayIndex (k : jsstring) : option N :=
  match k with
  | [] => None
  | c :: r =>
      if forallb isDigit k && (negb (c =? 48) || match r with [] => true | _ => false end)
         && (N.of_nat (List.length k) <=? 10) && (decimalValue k <? 4294967295)
      then Some (decimalValue k) else None
  end.

(** Where a new own property [k] goes in the enumeration order. *)
Fixpoint insertOwn (k v : jsstring) (o : jsobject) : jsobject :=
  match o with
  | [] => [(k, v)]
  | (k', v') :: r =>
      match arrayIndex k, arrayIndex k' with
      | Some n, Some n' => if n <? n' then (k, v) :: o else (k', v') :: insertOwn k v r
      | Some _, None => (k, v) :: o
      | None, _ => (k', v') :: insertOwn k v r
      end
  end.

Fixpoint updateOwn (k v : jsstring) (o : jsobject) : jsobject :=
  match o with
  | [] => []
  | (k', v') :: r =>
      if jsstring_eqb k k' then (k', v) :: r else (k', v') :: updateOwn k v r
  end.

(** [o[k] = v] for a string [v].  An own property is overwritten in
    place.  Otherwise the assignment creates one, except for
    ["__proto__"], whose inherited setter ignores a value that is not an
    object. *)
Definition setProperty (k v : jsstring) (o : jsobject) : jsobject :=
  if hasOwn k o then updateOwn k v o
  else if jsstring_eqb k (js "__proto__") then o
  else insertOwn k v o.

(** [Object.keys(o)] *)
Definition keys (o : jsobject) : list jsstring := map fst o.

(** [Object.entries(o)] *)
Definition entries (o : jsobject) : list (jsstring * jsstring) := o.

(** [o[k] = v] for an entry [(k, v)]. *)
Definition assign (o : jsobject) (kv : jsstring * jsstring) : jsobject :=
  setProperty (fst kv) (snd kv) o.

(* ================================================================= *)
(** ** utils/env-parser *)

Definition isQuote (c : char16) : bool := (c =? QUOTE) || (c =? DQUOTE).

Definition dropLastQuote (s : jsstring) : jsstring :=
  match rev s with
  | c :: r => if isQuote c then rev r else s
  | [] => s
  end.

(** [value.replace(/^['"]|['"]$/g, '')]: one quote off the front and one
    off the end, each when present. *)
Definition stripQuotes (value : jsstring) : jsstring :=
  match value with
  | c :: r => if isQuote c then dropLastQuote r else dropLastQuote value
  | [] => []
  end.

(** The body of the [forEach] of [parseEnvFile] for one line. *)
Definition parseEnvFileLine (vars : jsobject) (line : jsstring) : jsobject :=
  let trimmed := trim line in
  if match trimmed with [] => true | _ => false end || startsWith HASH trimmed then vars
  else
    match split EQUALS trimmed with
    | key :: valueParts =>
        if negb (match key with [] => true | _ => false end)
           && negb (match valueParts with [] => true | _ => false end)
        then
          let value := trim (join [EQUALS] valueParts) in
          setProperty (trim key) (stripQuotes value) vars
        else vars
    | [] => vars
    end.

Definition parseEnvText (content : jsstring) : jsobject :=
  fold_left parseEnvFileLine (split LF content) [].

(** [parseEnvFile(filePath)]; [file] is the decoded content of the file,
    [None] when it does not exist. *)
Definition parseEnvFile (file : option jsstring) : jsobject :=
  match file with
  | None => []
  | Some content => parseEnvText content
  end.

(** [`${key}=${value}`] *)
Definition envLine (kv : jsstring * jsstring) : jsstring :=
  fst kv ++ [EQUALS] ++ snd kv.

(** The text [writeEnvFile] and [performPull] hand to [fs.writeFileSync]. *)
Definition envContent (vars : jsobject) : jsstring :=
  join [LF] (map envLine (entries vars)) ++ [LF].


(* ================================================================= *)
(** ** core/file-watcher: snapshots and their difference *)

(** The body of the [forEach] of [FileWatcher.parseEnvContent] for one
    line. *)
Definition parseEnvContentLine (vars : jsobject) (line : jsstring) : jsobject :=
  let trimmed := trim line in
  if negb (match trimmed with [] => true | _ => false end) && negb (startsWith HASH trimmed)
  then
    match split EQUALS trimmed with
    | key :: valueParts =>
        if negb (match key with [] => true | _ => false end)
        then setProperty (trim key) (trim (join [EQUALS] valueParts)) vars
        else vars
    | [] => vars
    end
  else vars.

Definition parseEnvContent (content : jsstring) : jsobject :=
  fold_left parseEnvContentLine (split LF content) [].

Inductive ChangeType := TAdded | TModified | TRemoved.

Record Variables := {
  added : list jsstring;
  modified : list jsstring;
  removed : list jsstring
}.

Record EnvChangeInfo := {
  type : ChangeType;
  variables : Variables;
  timestamp : N
}.

Definition isEmpty {A : Type} (l : list A) : bool :=
  match l with [] => true | _ => false end.

(** The first loop of [calculateChanges]: one step for one entry of
    [newVars], on the pair of arrays ([added], [modified]). *)
Definition findAddedModified (oldVars : jsobject)
    (acc : list jsstring * list jsstring) (kv : jsstring * jsstring)
    : list jsstring * list jsstring :=
  let (key, value) := kv in
  if negb (hasProperty key oldVars) then (fst acc ++ [key], snd acc)
  else if strictNotEqual (getProperty key oldVars) (VString value)
       then (fst acc, snd acc ++ [key])
       else acc.

(** The second loop: one step for one key of [oldVars]. *)
Definition findRemoved (newVars : jsobject) (acc : list jsstring) (key : jsstring)
    : list jsstring :=
  if negb (hasProperty key newVars) then acc ++ [key] else acc.

(** The tests of the first loop, as predicates on an entry of [newVars]. *)
Definition isAdded (oldVars : jsobject) (kv : jsstring * jsstring) : bool :=
  negb (hasProperty (fst kv) oldVars).

Definition isModified (oldVars : jsobject) (kv : jsstring * jsstring) : bool :=
  hasProperty (fst kv) oldVars
  && strictNotEqual (getProperty (fst kv) oldVars) (VString (snd kv)).

(** [calculateChanges] on parsed snapshots. *)
Definition diffVars (oldVars newVars : jsobject) : Variables :=
  let am := fold_left (findAddedModified oldVars) (entries newVars) ([], []) in
  {| added := fst am;
     modified := snd am;
     removed := fold_left (findRemoved newVars) (keys oldVars) [] |}.

(** [calculateChanges(oldContent, newContent)]; [now] is what
    [new Date()] reads. *)
Definition calculateChanges (oldContent newContent : jsstring) (now : N) : EnvChangeInfo :=
  let oldVars := parseEnvContent oldContent in
  let newVars := parseEnvContent newContent in
  let v := diffVars oldVars newVars in
  {| type := if negb (isEmpty (added v)) || negb (isEmpty (removed v))
             then TModified else TAdded;
     variables := v;
     timestamp := now |}.

(** The test that guards the emission in [processFileChange]. *)
Definition hasChanged (changes : EnvChangeInfo) : bool :=
  negb (isEmpty (added (variables changes)))
  || negb (isEmpty (modified (variables changes)))
  || negb (isEmpty (removed (variables changes))).

(* ================================================================= *)
(** ** Buffers: hexadecimal and UTF-8 *)

Abbreviation byte := Init.Byte.byte.

Definition byteOfN (n : N) : byte :=
  match Strings.Byte.of_N n with
  | Some b => b
  | None => Init.Byte.x00
  end.

Definition hexDigit (n : N) : char16 := if n <? 10 then 48 + n else 87 + n.

(** [buf.toString('hex')] *)
Definition hexEncode (buf : list byte) : jsstring :=
  flat_map (fun b => let n := Strings.Byte.to_N b in
                     [hexDigit (n / 16); hexDigit (n mod 16)]) buf.

Definition unhex (c : char16) : option N :=
  if (48 <=? c) && (c <=? 57) then Some (c - 48)
  else if (97 <=? c) && (c <=? 102) then Some (c - 87)
  else if (65 <=? c) && (c <=? 70) then Some (c - 55)
  else None.

(** [Buffer.from(s, 'hex')]: decoding stops at the first pair that is not
    two hexadecimal digits, and a last digit without partner is dropped. *)
Fixpoint hexDecode (s : jsstring) : list byte :=
  match s with
  | a :: b :: r =>
      match unhex a, unhex b with
      | Some x, Some y => byteOfN (16 * x + y) :: hexDecode r
      | _, _ => []
      end
  | _ => []
  end.

Definition isHighSurrogate (c : char16) : bool := (55296 <=? c) && (c <=? 56319).
Definition isLowSurrogate (c : char16) : bool := (56320 <=? c) && (c <=? 57343).

Definition REPLACEMENT : N := 65533.

(** The code points a string encodes; a surrogate without its partner
    reads as U+FFFD. *)
Fixpoint codePoints (s : jsstring) : list N :=
  match s with
  | [] => []
  | c :: r =>
      if isHighSurrogate c then
        match r with
        | d :: r' =>
            if isLowSurrogate d
            then (65536 + (c - 55296) * 1024 + (d - 56320)) :: codePoints r'
            else REPLACEMENT :: codePoints r
        | [] => [REPLACEMENT]
        end
      else if isLowSurrogate c then REPLACEMENT :: codePoints r
      else c :: codePoints r
  end.

Definition utf8Bytes (cp : N) : list byte :=
  if cp <? 128 then [byteOfN cp]
  else if cp <? 2048 then [byteOfN (192 + cp / 64); byteOfN (128 + cp mod 64)]
  else if cp <? 65536 then
    [byteOfN (224 + cp / 4096); byteOfN (128 + (cp / 64) mod 64); byteOfN (128 + cp mod 64)]
  else
    [byteOfN (240 + cp / 262144); byteOfN (128 + (cp / 4096) mod 64);
     byteOfN (128 + (cp / 64) mod 64); byteOfN (128 + cp mod 64)].

(** [Buffer.from(s, 'utf8')] *)
Definition utf8Encode (s : jsstring) : list byte :=
  flat_map utf8Bytes (codePoints s).

Definition utf16Units (cp : N) : jsstring :=
  if cp <? 65536 then [cp]
  else [55296 + (cp - 65536) / 1024; 56320 + (cp - 65536) mod 1024].

(** How a UTF-8 sequence starts. *)
Inductive Lead :=
| Single (cp : N)
| Multi (cp : N) (need : nat) (lower upper : N)
| Invalid.

Definition leadByte (b : N) : Lead :=
  if b <? 128 then Single b
  else if (194 <=? b) && (b <=? 223) then Multi (b - 192) 1 128 191
  else if (224 <=? b) && (b <=? 239) then
    Multi (b - 224) 2 (if b =? 224 then 160 else 128) (if b =? 237 then 159 else 191)
  else if (240 <=? b) && (b <=? 244) then
    Multi (b - 240) 3 (if b =? 240 then 144 else 128) (if b =? 244 then 143 else 191)
  else Invalid.

(** The UTF-8 decoder: an ill-formed or truncated sequence gives one
    U+FFFD and decoding resumes at the byte that broke it.  [st] is the
    sequence under way: code point so far, continuation bytes still
    needed, and the range allowed for the next one. *)
Fixpoint utf8DecodeFrom (st : option (N * nat * N * N)) (bs : list N) : list N :=
  match bs with
  | [] => match st with None => [] | Some _ => [REPLACEMENT] end
  | b :: r =>
      let fresh :=
        match leadByte b with
        | Single cp => cp :: utf8DecodeFrom None r
        | Multi cp need lo hi => utf8DecodeFrom (Some (cp, need, lo, hi)) r
        | Invalid => REPLACEMENT :: utf8DecodeFrom None r
        end in
      match st with
      | None => fresh
      | Some (cp, need, lo, hi) =>
          if (lo <=? b) && (b <=? hi) then
            let cp' := cp * 64 + (b - 128) in
            match need with
            | S (S n) => utf8DecodeFrom (Some (cp', S n, 128, 191)) r
            | _ => cp' :: utf8DecodeFrom None r
            end
          else REPLACEMENT :: fresh
      end
  end.

(** [buf.toString('utf8')] *)
Definition utf8Decode (buf : list byte) : jsstring :=
  flat_map utf16Units (utf8DecodeFrom None (map Strings.Byte.to_N buf)).

(** No surrogate without its partner, and every unit a 16-bit one. *)
Fixpoint wellFormed (s : jsstring) : bool :=
  match s with
  | [] => true
  | c :: r =>
      if isHighSurrogate c then
        match r with
        | d :: r' => isLowSurrogate d && wellFormed r'
        | [] => false
        end
      else negb (isLowSurrogate c) && (c <? 65536) && wellFormed r
  end.

(** A Unicode scalar value: a code point that is not a surrogate. *)
Definition isScalar (cp : N) : Prop :=
  cp < 1114112 /\ ~ (55296 <= cp <= 57343).

(** A code unit that is no surrogate. *)
Definition plain (c : char16) : Prop :=
  isHighSurrogate c = false /\ isLowSurrogate c = false /\ c < 65536.

(** The sequence under way can only end in scalar values. *)
Definition endsInScalar (st : N * nat * N * N) : Prop :=
  let '(cp, need, lo, hi) := st in
  match need with
  | 0%nat | 1%nat =>
      forall b, lo <= b <= hi -> isScalar (cp * 64 + (b - 128))
  | 2%nat =>
      forall b, lo <= b <= hi ->
      forall b', 128 <= b' <= 191 ->
        isScalar ((cp * 64 + (b - 128)) * 64 + (b' - 128))
  | 3%nat =>
      forall b, lo <= b <= hi ->
      forall b', 128 <= b' <= 191 ->
      forall b'', 128 <= b'' <= 191 ->
        isScalar (((cp * 64 + (b - 128)) * 64 + (b' - 128)) * 64 + (b'' - 128))
  | _ => False
  end.

(* ================================================================= *)
(** ** Keys and values that the file format keeps *)

Definition headNotSpace (s : jsstring) : bool :=
  match s with [] => true | c :: _ => negb (isWhiteSpace c) end.

(** No white space at either end. *)
Definition noOuterSpace (s : jsstring) : bool :=
  headNotSpace s && headNotSpace (rev s).

Definition headNotQuote (s : jsstring) : bool :=
  match s with [] => true | c :: _ => negb (isQuote c) end.

(** No quote at either end. *)
Definition noOuterQuote (s : jsstring) : bool :=
  headNotQuote s && headNotQuote (rev s).

(** A key that a line [key=value] gives back. *)
Definition cleanKey (k : jsstring) : Prop :=
  k <> [] /\ noOuterSpace k = true /\ ~ In LF k /\ ~ In EQUALS k
  /\ startsWith HASH k = false /\ k <> js "__proto__" /\ wellFormed k = true.

(** A value that a line [key=value] gives back. *)
Definition cleanValue (v : jsstring) : Prop :=
  noOuterSpace v = true /\ ~ In LF v /\ noOuterQuote v = true /\ wellFormed v = true.

(* ================================================================= *)
(** ** Results of fallible code *)

Inductive exception :=
| Error (message : jsstring)   (* [new Error(message)] *)
| CryptoError                  (* an error thrown inside the [crypto] module *)
| TransportError (message : jsstring).  (* what [apiClient] rethrows *)

Inductive outcome (A : Type) :=
| Return (a : A)
| Throw (e : exception).

Arguments Return {A} a.
Arguments Throw {A} e.

(* ================================================================= *)
(** ** The records exchanged with the remote store *)

Record EncryptedVariable := {
  key : jsstring;
  encryptedValue : jsstring;
  iv : jsstring;
  authTag : jsstring;
  isSecret : bool
}.

(** What one call of [apiClient.pullVariables] gives: it throws, or it
    answers [{success, data}] where [data] may be missing. *)
Inductive PullResult :=
| PullThrows (e : exception)
| PullResponse (success : bool) (data : option (list EncryptedVariable)).

(** The state outside the program: the bytes of the local [.env] file
    ([None] when there is no such file), how many times the program has
    written it, and the answers the remote store gives to the successive
    pulls. *)
Record World := {
  envFile : option (list byte);
  writes : nat;
  remote : nat -> PullResult;
  pullCalls : nat
}.

(** [fs.readFileSync(envFile, 'utf-8')]: [None] when it throws. *)
Definition readFileSync (w : World) : option jsstring :=
  option_map utf8Decode (envFile w).

(** [fs.writeFileSync(envFile, content)] *)
Definition writeFileSync (content : jsstring) (w : World) : World :=
  {| envFile := Some (utf8Encode content);
     writes := S (writes w);
     remote := remote w;
     pullCalls := pullCalls w |}.

(** [await apiClient.pullVariables(project, environment)] *)
Definition pullVariables (w : World) : PullResult * World :=
  (remote w (pullCalls w),
   {| envFile := envFile w; writes := writes w;
      remote := remote w; pullCalls := S (pullCalls w) |}).

(** [writeEnvFile(filePath, vars)] *)
Definition writeEnvFile (vars : jsobject) (w : World) : World :=
  writeFileSync (envContent vars) w.

(** The program has not touched the file between [w] and [w']. *)
Definition unchangedFile (w w' : World) : Prop :=
  envFile w' = envFile w /\ writes w' = writes w.

(** Between [w] and [w'] the program has written the file once, and it
    holds the text of [vars]. *)
Definition rewrittenWith (vars : jsobject) (w w' : World) : Prop :=
  envFile w' = Some (utf8Encode (envContent vars)) /\ writes w' = S (writes w).

(* ================================================================= *)
(** ** core/file-watcher: the watcher and its debounce timer *)

(** A timer made by [setTimeout]: when it is due, and whether it is still
    to fire (not yet fired, not cleared). *)
Record Timeout := {
  fireAt : N;
  pending : bool
}.

Record FileWatcher := {
  watcher : bool;                   (* the chokidar watcher is set *)
  debounceTimer : option Timeout;
  lastContent : jsstring
}.

Definition debounceDelay : N := 2000.

(** [new FileWatcher()] *)
Definition newFileWatcher : FileWatcher :=
  {| watcher := false; debounceTimer := None; lastContent := [] |}.

(** What the watcher emits. *)
Inductive Emitted :=
| Started
| Stopped
| EnvChanged (changes : EnvChangeInfo)
| ErrorEvent.

(** [stop()] *)
Definition stop (fw : FileWatcher) : FileWatcher * list Emitted :=
  let (fw1, out) :=
    if watcher fw
    then ({| watcher := false; debounceTimer := debounceTimer fw;
             lastContent := lastContent fw |}, [Stopped])
    else (fw, []) in
  match debounceTimer fw1 with
  | Some _ => ({| watcher := watcher fw1; debounceTimer := None;
                  lastContent := lastContent fw1 |}, out)
  | None => (fw1, out)
  end.

(** [watch(filePath)] *)
Definition watch (w : World) (fw : FileWatcher) : FileWatcher * list Emitted :=
  let (fw1, out) := if watcher fw then stop fw else (fw, []) in
  let initial :=
    match readFileSync w with
    | Some content => content
    | None => []                    (* the [catch]: could not read *)
    end in
  ({| watcher := true; debounceTimer := debounceTimer fw1; lastContent := initial |},
   out ++ [Started]).

(** [handleFileChange(filePath)] at time [now]: the timer under way is
    cleared and a new one set. *)
Definition handleFileChange (now : N) (fw : FileWatcher) : FileWatcher :=
  {| watcher := watcher fw;
     debounceTimer := Some {| fireAt := now + debounceDelay; pending := true |};
     lastContent := lastContent fw |}.

(** [processFileChange(filePath)] at time [now]. *)
Definition processFileChange (w : World) (now : N) (fw : FileWatcher)
    : FileWatcher * list Emitted :=
  match readFileSync w with
  | None => (fw, [ErrorEvent])
  | Some newContent =>
      let changes := calculateChanges (lastContent fw) newContent now in
      if hasChanged changes
      then ({| watcher := watcher fw; debounceTimer := debounceTimer fw;
               lastContent := newContent |}, [EnvChanged changes])
      else (fw, [])
  end.

(** The watcher in its surroundings: the world, and what has been emitted
    so far. *)
Record Detector := {
  world : World;
  fw : FileWatcher;
  emitted : list Emitted
}.

(** Time passes to [now]: the debounce timer fires if it is due. *)
Definition elapse (now : N) (d : Detector) : Detector :=
  match debounceTimer (fw d) with
  | Some t =>
      if pending t && (fireAt t <=? now) then
        let fired := {| watcher := watcher (fw d);
                        debounceTimer := Some {| fireAt := fireAt t; pending := false |};
                        lastContent := lastContent (fw d) |} in
        let (fw', out) := processFileChange (world d) (fireAt t) fired in
        {| world := world d; fw := fw'; emitted := emitted d ++ out |}
      else d
  | None => d
  end.

(** The callback of [watcher.on('change', ...)] runs at time [now]; a
    watcher that is closed calls nothing. *)
Definition notify (now : N) (d : Detector) : Detector :=
  if watcher (fw d)
  then {| world := world d; fw := handleFileChange now (fw d); emitted := emitted d |}
  else d.

(** At time [now] something outside the program writes [content] over
    the file; nothing is reported to the watcher. *)
Definition overwrite (now : N) (content : list byte) (d : Detector) : Detector :=
  let d := elapse now d in
  {| world := {| envFile := Some content; writes := writes (world d);
                 remote := remote (world d); pullCalls := pullCalls (world d) |};
     fw := fw d; emitted := emitted d |}.

(** At time [now] chokidar reports ['change']: the timers due by then
    have fired, then the handler runs.  The watcher subscribes to
    ['change'] alone, and chokidar, set to wait until a write has
    finished, reports a write some time after it was made. *)
Definition change (now : N) (d : Detector) : Detector :=
  notify now (elapse now d).

(** Chokidar reports ['change'] at time [now] for a file that holds
    [content] by then.  This is a write together with its report when no
    timer fires between the two, as within a burst inside the debounce
    delay ([edit_is_overwrite_then_change]); [overwrite] and [change]
    take the two apart. *)
Definition edit (now : N) (content : list byte) (d : Detector) : Detector :=
  let d := elapse now d in
  notify now
    {| world := {| envFile := Some content; writes := writes (world d);
                   remote := remote (world d); pullCalls := pullCalls (world d) |};
       fw := fw d; emitted := emitted d |}.

(** A run of such reports, each with its time and what the file holds
    by then. *)
Definition edits (burst : list (N * list byte)) (d : Detector) : Detector :=
  fold_left (fun d e => edit (fst e) (snd e) d) burst d.

(** Each edit of the burst comes less than the debounce delay after the
    one before it. *)
Fixpoint withinDebounce (t : N) (burst : list (N * list byte)) : bool :=
  match burst with
  | [] => true
  | e :: r => (t <=? fst e) && (fst e <? t + debounceDelay) && withinDebounce (fst e) r
  end.

(** The events ['env-changed'] among what was emitted. *)
Fixpoint envChanges (out : list Emitted) : list EnvChangeInfo :=
  match out with
  | [] => []
  | EnvChanged c :: r => c :: envChanges r
  | _ :: r => envChanges r
  end.

(** The watcher is on and its timer, set at time [t], is still to fire. *)
Definition armed (t : N) (d : Detector) : Prop :=
  watcher (fw d) = true
  /\ debounceTimer (fw d) = Some {| fireAt := t + debounceDelay; pending := true |}.

(** No timer is to fire. *)
Definition idle (d : Detector) : Prop :=
  match debounceTimer (fw d) with
  | Some t => pending t = false
  | None => True
  end.

(* ================================================================= *)
(** ** commands/sync: what is in flight in watch mode

    [performPush] and [performPull] suspend at their one network call.
    An operation is in flight from the call until the answer. *)

Record SyncOptions := {
  pushOnly : bool;
  pullOnly : bool
}.

Inductive Operation :=
| Pushing     (* [performPush] awaits [pushVariables] *)
| Checking    (* [checkRemoteChanges] awaits [pullVariables] *)
| Pulling.    (* [performPull], called by [checkRemoteChanges], awaits [pullVariables] *)

Inductive SessionEvent :=
| EnvChangedEvent               (* the watcher emits ['env-changed'] *)
| IntervalTick                  (* the time of the poll interval has passed *)
| Settled (n : nat) (remoteChange : bool).
    (* the call awaited by the [n]-th operation in flight answers;
       [remoteChange]: the check found a new or changed variable *)

Fixpoint removeNth (n : nat) (ops : list Operation) : list Operation :=
  match n, ops with
  | _, [] => []
  | O, _ :: r => r
  | S n, t :: r => t :: removeNth n r
  end.

Fixpoint replaceNth (n : nat) (t' : Operation) (ops : list Operation) : list Operation :=
  match n, ops with
  | _, [] => []
  | O, _ :: r => t' :: r
  | S n, t :: r => t :: replaceNth n t' r
  end.

(** One event of [startWatchMode]: the ['env-changed'] handler starts a
    push unless pull-only; the interval timer, set unless push-only,
    starts a check; a check that found a change goes on to pull. *)
Definition sessionStep (options : SyncOptions) (ops : list Operation) (ev : SessionEvent)
    : list Operation :=
  match ev with
  | EnvChangedEvent => if pullOnly options then ops else ops ++ [Pushing]
  | IntervalTick => if pushOnly options then ops else ops ++ [Checking]
  | Settled n remoteChange =>
      match nth_error ops n with
      | Some Checking => if remoteChange then replaceNth n Pulling ops else removeNth n ops
      | Some _ => removeNth n ops
      | None => ops
      end
  end.

Definition sessionRun (options : SyncOptions) (evs : list SessionEvent) : list Operation :=
  fold_left (sessionStep options) evs [].

Definition isPush (t : Operation) : bool :=
  match t with Pushing => true | _ => false end.

Definition pushesInFlight (ops : list Operation) : nat :=
  List.length (filter isPush ops).

Definition pullsInFlight (ops : list Operation) : nat :=
  List.length (filter (fun t => negb (isPush t)) ops).

(* ================================================================= *)
(** ** Node's [crypto] module

    What the program uses of it: SHA-256, and AES-256-GCM sealing and
    opening of a byte string under a key and an IV.  Sealing gives the
    ciphertext and the authentication tag.  Opening answers [None] where
    [createDecipheriv], [setAuthTag] or [final] throws: an IV or tag of a
    length the cipher refuses, or a tag that does not authenticate the
    ciphertext. *)

Class Crypto := {
  sha256 : list byte -> list byte;
  aes256gcmEncrypt : list byte -> list byte -> list byte -> list byte * list byte;
  aes256gcmDecrypt :
    list byte -> list byte -> list byte -> list byte -> option (list byte)
}.

(* ================================================================= *)
(** ** core/encryption and commands/sync *)

Section Engine.

Context {crypto : Crypto}.

Record EncryptionManager := { derivationKey : jsstring }.

(** [deriveKey()] *)
Definition deriveKey (em : EncryptionManager) : list byte :=
  sha256 (utf8Encode (derivationKey em)).

(** [encryptValue(value)]; [randomBytes] is what [crypto.randomBytes(16)]
    returned.  The result is [(encryptedValue, iv, authTag)]. *)
Definition encryptValue (em : EncryptionManager) (randomBytes : list byte)
    (value : jsstring) : jsstring * jsstring * jsstring :=
  let iv := randomBytes in
  let key := deriveKey em in
  let (cipherText, tag) := aes256gcmEncrypt key iv (utf8Encode value) in
  (hexEncode cipherText, hexEncode iv, hexEncode tag).

(** [decryptValue(encryptedValue, iv, authTag)].  [decipher.update]
    refuses a hexadecimal string of odd length. *)
Definition decryptValue (em : EncryptionManager)
    (encryptedValue iv authTag : jsstring) : outcome jsstring :=
  let key := deriveKey em in
  let ivBuffer := hexDecode iv in
  let authTagBuffer := hexDecode authTag in
  if Nat.odd (List.length encryptedValue) then Throw CryptoError
  else
    match aes256gcmDecrypt key ivBuffer authTagBuffer (hexDecode encryptedValue) with
    | Some plain => Return (utf8Decode plain)
    | None => Throw CryptoError
    end.

(** The [forEach] of [decryptVariables], from the object built so far. *)
Fixpoint decryptVariablesFrom (em : EncryptionManager) (vars : jsobject)
    (encrypted : list EncryptedVariable) : outcome jsobject :=
  match encrypted with
  | [] => Return vars
  | item :: rest =>
      match decryptValue em (encryptedValue item) (iv item) (authTag item) with
      | Return v => decryptVariablesFrom em (setProperty (key item) v vars) rest
      | Throw _ => Throw (Error (js "Failed to decrypt variable " ++ key item))
      end
  end.

(** [decryptVariables(encrypted)] *)
Definition decryptVariables (em : EncryptionManager)
    (encrypted : list EncryptedVariable) : outcome jsobject :=
  decryptVariablesFrom em [] encrypted.

(** What AES-256-GCM promises: under a 256-bit key and a 16-byte IV,
    opening what was sealed, with the tag the sealing made, gives the
    plain text back. *)
Definition opensSealed : Prop :=
  forall key iv plain,
    List.length key = 32%nat -> List.length iv = 16%nat ->
    aes256gcmDecrypt key iv (snd (aes256gcmEncrypt key iv plain))
      (fst (aes256gcmEncrypt key iv plain)) = Some plain.

(** How AES-256-GCM opens: the plain text it returns is the one whose
    sealing under that key and IV is the ciphertext, and the tag it was
    given is the beginning of the tag of that sealing (the cipher
    compares as many bytes as the tag has). *)
Definition opensOnlySealed : Prop :=
  forall key iv tag cipherText plain,
    aes256gcmDecrypt key iv tag cipherText = Some plain ->
    fst (aes256gcmEncrypt key iv plain) = cipherText
    /\ exists rest, snd (aes256gcmEncrypt key iv plain) = tag ++ rest.

(** Whether [decryptValue] throws for a record. *)
Definition undecryptable (em : EncryptionManager) (item : EncryptedVariable) : Prop :=
  exists e, decryptValue em (encryptedValue item) (iv item) (authTag item) = Throw e.

(** The name of the project, from [configManager.loadProject()]. *)
Variable projectName : jsstring.

(** The comparison of [performPull]:
    [!(key in localVars) || localVars[key] !== remoteVars[key]]. *)
Definition differsLocally (localVars remoteVars : jsobject) (key : jsstring) : bool :=
  negb (hasProperty key localVars)
  || strictNotEqual (getProperty key localVars) (getProperty key remoteVars).

(** [performPull(environment, envFile)] *)
Definition performPull (w : World) : outcome unit * World :=
  let (response, w) := pullVariables w in
  match response with
  | PullThrows e => (Throw e, w)
  | PullResponse success data =>
      match (if negb success then None else data) with
      | None => (Return tt, w)           (* [!response.success || !response.data] *)
      | Some data =>
          let encryption := {| derivationKey := projectName |} in
          match decryptVariables encryption data with
          | Throw e => (Throw e, w)
          | Return remoteVars =>
              let localVars := parseEnvFile (readFileSync w) in
              let hasChanges :=
                existsb (differsLocally localVars remoteVars) (keys remoteVars) in
              if negb hasChanges then (Return tt, w)
              else (Return tt, writeFileSync (envContent remoteVars) w)
          end
      end
  end.

(** The test of [checkRemoteChanges]:
    [!(key in localVars) || localVars[key] !== value]. *)
Definition newOrChanged (localVars : jsobject) (kv : jsstring * jsstring) : bool :=
  negb (hasProperty (fst kv) localVars)
  || strictNotEqual (getProperty (fst kv) localVars) (VString (snd kv)).

(** [checkRemoteChanges(environment, envFile)]: every exception ends in
    its [catch]. *)
Definition checkRemoteChanges (w : World) : World :=
  let (response, w) := pullVariables w in
  match response with
  | PullThrows _ => w
  | PullResponse success data =>
      match (if negb success then None else data) with
      | None => w                        (* [!response.success || !response.data] *)
      | Some data =>
          let encryption := {| derivationKey := projectName |} in
          match decryptVariables encryption data with
          | Throw _ => w
          | Return remoteVars =>
              let localVars := parseEnvFile (readFileSync w) in
              let hasNewOrChanged := existsb (newOrChanged localVars) (entries remoteVars) in
              if hasNewOrChanged then snd (performPull w) else w
          end
      end
  end.

(** The poll timer fires at time [now] in watch mode: the callback of
    [setInterval] runs [checkRemoteChanges] and touches nothing of the
    watcher.  What the pull writes reaches the watcher only as a
    ['change'] that chokidar reports afterwards ([change]), and only
    when the file was there before the write: a file that the write
    creates is reported as ['add'], to which the watcher does not
    subscribe. *)
Definition pollTick (now : N) (d : Detector) : Detector :=
  let d := elapse now d in
  {| world := checkRemoteChanges (world d); fw := fw d; emitted := emitted d |}.

End Engine.

(* ================================================================= *)
(** ** A stand-in for the [crypto] primitives

    Used to run the definitions above on concrete inputs: a 32-byte
    digest, a cipher that reverses the bytes, and a tag that is the IV. *)

Definition standInSha256 (message : list byte) : list byte :=
  repeat Init.Byte.x2a 32.

Definition standInEncrypt (key iv plain : list byte) : list byte * list byte :=
  (rev plain, iv).

Definition standInDecrypt (key iv tag cipherText : list byte) : option (list byte) :=
  if list_eq_dec Strings.Byte.byte_eq_dec tag iv then Some (rev cipherText) else None.

Definition standIn : Crypto :=
  {| sha256 := standInSha256;
     aes256gcmEncrypt := standInEncrypt;
     aes256gcmDecrypt := standInDecrypt |}.

(** ** Concrete inputs *)

Definition demoManager : EncryptionManager := {| derivationKey := js "demo" |}.

Definition demoIv : list byte := repeat Init.Byte.x01 16.

(** The record [encryptVariables] makes for one variable, under the
    stand-in primitives. *)
Definition demoRecord (k v : string) : EncryptedVariable :=
  let '(c, i, t) := encryptValue (crypto := standIn) demoManager demoIv (js v) in
  {| key := js k; encryptedValue := c; iv := i; authTag := t; isSecret := false |}.

(** A world whose local file holds [content] and whose remote store
    answers every pull with [data]. *)
Definition demoWorld (content : jsstring) (data : list EncryptedVariable) : World :=
  {| envFile := Some (utf8Encode content);
     writes := 0;
     remote := fun _ => PullResponse true (Some data);
     pullCalls := 0 |}.

(** A watcher started on the file of [w]. *)
Definition demoDetector (w : World) : Detector :=
  {| world := w; fw := fst (watch w newFileWatcher); emitted := [] |}.

Definition demoPull := performPull (crypto := standIn) (js "demo").
Definition demoCheck := checkRemoteChanges (crypto := standIn) (js "demo").
Definition demoPoll := pollTick (crypto := standIn) (js "demo").

(* ================================================================= *)
(** ** More of JavaScript strings *)

Fixpoint isPrefixOf (pattern s : jsstring) : bool :=
  match pattern, s with
  | [], _ => true
  | _ :: _, [] => false
  | a :: pattern', b :: s' => (a =? b) && isPrefixOf pattern' s'
  end.

(** [s.includes(pattern)] *)
Fixpoint includes (s pattern : jsstring) : bool :=
  isPrefixOf pattern s
  || match s with
     | [] => false
     | _ :: r => includes r pattern
     end.

(** [s.endsWith(c)] for one code unit. *)
Definition endsWith (c : char16) (s : jsstring) : bool := startsWith c (rev s).

(** [String.prototype.toLowerCase], the lower-case mapping of Unicode, is
    a parameter. *)
Class Unicode := {
  toLowerCase : jsstring -> jsstring
}.

(* ================================================================= *)
(** ** core/encryption: classifying and encrypting a batch *)

Definition secretPatterns : list jsstring :=
  map js [ "secret"; "password"; "token"; "key"; "api_key"; "access_key";
           "private_key"; "auth"; "credential"; "apikey" ]%string.

Section Batches.

Context {crypto : Crypto} {unicode : Unicode}.

(** [looksLikeSecret(key, value)] *)
Definition looksLikeSecret (key value : jsstring) : bool :=
  let lowerKey := toLowerCase key in
  let lowerValue := toLowerCase value in
  existsb (fun pattern => includes lowerKey pattern || includes lowerValue pattern)
          secretPatterns.

(** The [map] of [encryptVariables] from its [n]-th entry on;
    [randomBytes n] is what the [n]-th call of [crypto.randomBytes(16)]
    returns. *)
Fixpoint encryptVariablesFrom (em : EncryptionManager) (randomBytes : nat -> list byte)
    (n : nat) (vars : list (jsstring * jsstring)) : list EncryptedVariable :=
  match vars with
  | [] => []
  | (key, value) :: rest =>
      let '(encryptedValue, iv, authTag) := encryptValue em (randomBytes n) value in
      {| key := key;
         encryptedValue := encryptedValue;
         iv := iv;
         authTag := authTag;
         isSecret := looksLikeSecret key value |}
      :: encryptVariablesFrom em randomBytes (S n) rest
  end.

(** [encryptVariables(vars)] *)
Definition encryptVariables (em : EncryptionManager) (randomBytes : nat -> list byte)
    (vars : jsobject) : list EncryptedVariable :=
  encryptVariablesFrom em randomBytes 0 (entries vars).

(* ----------------------------------------------------------------- *)
(** *** commands/sync: pushing, and the one-time sync *)

(** What the call of [apiClient.pushVariables] gives: it throws, or it
    answers [{success, message}]. *)
Inductive PushResult :=
| PushThrows (e : exception)
| PushResponse (success : bool) (message : jsstring).

Variable projectName : jsstring.

(** [performPush(environment, envFile, reason)]: its result, and the
    records it handed to [apiClient.pushVariables]; [pushVariables] is
    how the remote store answers them. *)
Definition performPush (randomBytes : nat -> list byte)
    (pushVariables : list EncryptedVariable -> PushResult) (w : World)
    : outcome unit * list EncryptedVariable :=
  let variables := parseEnvFile (readFileSync w) in
  let encryption := {| derivationKey := projectName |} in
  let encryptedVars := encryptVariables encryption randomBytes variables in
  match pushVariables encryptedVars with
  | PushThrows e => (Throw e, encryptedVars)
  | PushResponse success message =>
      if negb success then (Throw (Error message), encryptedVars)
      else (Return tt, encryptedVars)
  end.

(** What a one-time sync did: its result, the world it left, and the
    pushes it made, each with its records. *)
Record SyncRun := {
  result : outcome unit;
  after : World;
  pushed : list (list EncryptedVariable)
}.

(** [performOneTimeSync(environment, envFile, options)] *)
Definition performOneTimeSync (options : SyncOptions) (randomBytes : nat -> list byte)
    (pushVariables : list EncryptedVariable -> PushResult) (w : World) : SyncRun :=
  if negb (pushOnly options) && negb (pullOnly options) then
    match performPush randomBytes pushVariables w with
    | (Throw e, sent) => {| result := Throw e; after := w; pushed := [sent] |}
    | (Return _, sent) =>
        let (r, w') := performPull projectName w in
        {| result := r; after := w'; pushed := [sent] |}
    end
  else if pushOnly options then
    let (r, sent) := performPush randomBytes pushVariables w in
    {| result := r; after := w; pushed := [sent] |}
  else if pullOnly options then
    let (r, w') := performPull projectName w in
    {| result := r; after := w'; pushed := [] |}
  else {| result := Return tt; after := w; pushed := [] |}.

End Batches.

(* ================================================================= *)
(** ** utils/env-parser: the template and .gitignore *)

(** [createTemplate(sourceFile, templateFile)]: the bytes it writes to
    the template file, from the bytes of the source file ([None] when
    there is no such file). *)
Definition createTemplate (sourceFile : option (list byte)) : list byte :=
  let vars := parseEnvFile (option_map utf8Decode sourceFile) in
  let templateContent := join [LF] (map (fun key => key ++ [EQUALS]) (keys vars)) in
  utf8Encode (templateContent ++ [LF]).

(** [updateGitignore(gitignorePath, entries)]: the file after the call,
    from the file before it ([None]: no such file). *)
Definition updateGitignore (gitignore : option (list byte)) (entries : list jsstring)
    : option (list byte) :=
  let content :=
    match gitignore with
    | Some bytes => utf8Decode bytes
    | None => []
    end in
  let linesToAdd := filter (fun entry => negb (includes content entry)) entries in
  if negb (isEmpty linesToAdd) then
    let content :=
      if negb (isEmpty content) && negb (endsWith LF content)
      then content ++ [LF] else content in
    Some (utf8Encode (content ++ join [LF] linesToAdd ++ [LF]))
  else gitignore.

(** The text of a file that may not exist, as [updateGitignore] takes it. *)
Definition textOf (file : option (list byte)) : jsstring :=
  match file with
  | Some bytes => utf8Decode bytes
  | None => []
  end.

(* ================================================================= *)
(** ** commands/diff *)

Module DiffCommand.

(** An element of [modified]: [{key, oldValue, newValue}]; [oldValue] is
    what [local[key]] reads. *)
Record Modification := {
  key : jsstring;
  oldValue : jsvalue;
  newValue : jsstring
}.


(** The first loop of [calculateDiff]: one step for one entry of
    [remote], on the pair of arrays ([added], [modified]). *)
Definition findAddedModified (local : jsobject)
    (acc : list jsstring * list Modification) (kv : jsstring * jsstring)
    : list jsstring * list Modification :=
  let (key, value) := kv in
  if negb (hasProperty key local) then (fst acc ++ [key], snd acc)
  else if strictNotEqual (getProperty key local) (VString value)
       then (fst acc,
             snd acc ++ [{| key := key; oldValue := getProperty key local;
                            newValue := value |}])
       else acc.



End DiffCommand.

(* ================================================================= *)
(** ** More of core/file-watcher *)

(** [watcher.stop()] in its surroundings. *)
Definition stopDetector (d : Detector) : Detector :=
  {| world := world d;
     fw := fst (stop (fw d));
     emitted := emitted d ++ snd (stop (fw d)) |}.

(** [watcher.watch(envFile)] in its surroundings. *)
Definition watchDetector (d : Detector) : Detector :=
  {| world := world d;
     fw := fst (watch (world d) (fw d));
     emitted := emitted d ++ snd (watch (world d) (fw d)) |}.

(** A stand-in for [toLowerCase] that lowers the letters A to Z only. *)
Definition standInLower : Unicode :=
  {| toLowerCase := map (fun c => if (65 <=? c) && (c <=? 90) then c + 32 else c) |}.

(** What every call of [crypto.randomBytes(16)] returns in the runs
    below, and a remote store that accepts every push. *)
Definition demoRandomBytes (n : nat) : list byte := demoIv.

Definition demoAccept (sent : list EncryptedVariable) : PushResult :=
  PushResponse true (js "ok").

Definition demoEncrypt :=
  encryptVariables (crypto := standIn) (unicode := standInLower) demoManager demoRandomBytes.

Definition demoPush :=
  performPush (crypto := standIn) (unicode := standInLower) (js "demo")
    demoRandomBytes demoAccept.

Definition demoSync (options : SyncOptions) :=
  performOneTimeSync (crypto := standIn) (unicode := standInLower) (js "demo")
    options demoRandomBytes demoAccept.

(** A world whose remote store answers every pull with the records a push
    of the local file sends. *)
Definition demoEcho (content : jsstring) : World :=
  demoWorld content (demoEncrypt (parseEnvText content)).

(* ================================================================= *)
(** * Properties *)

(** ** Strings and objects *)

Lemma jsstring_eqb_eq (a b : jsstring) : jsstring_eqb a b = true <-> a = b.
Proof.
  unfold jsstring_eqb. destruct (list_eq_dec N.eq_dec a b); split; congruence.
Qed.

Lemma jsstring_eqb_refl (a : jsstring) : jsstring_eqb a a = true.
Proof. now apply jsstring_eqb_eq. Qed.

Lemma jsstring_eqb_neq (a b : jsstring) : jsstring_eqb a b = false <-> a <> b.
Proof.
  unfold jsstring_eqb. destruct (list_eq_dec N.eq_dec a b); split; congruence.
Qed.

Lemma jsstring_eqb_sym (a b : jsstring) : jsstring_eqb a b = jsstring_eqb b a.
Proof.
  destruct (jsstring_eqb b a) eqn:E.
  - apply jsstring_eqb_eq in E. subst. apply jsstring_eqb_refl.
  - apply jsstring_eqb_neq in E. apply jsstring_eqb_neq. congruence.
Qed.

Lemma getOwn_In (k : jsstring) (o : jsobject) (v : jsstring) :
  getOwn k o = Some v -> In (k, v) o.
Proof.
  induction o as [|[k' v'] r IH]; simpl; [discriminate|].
  destruct (jsstring_eqb k k') eqn:E.
  - apply jsstring_eqb_eq in E. intros [= ->]. subst. now left.
  - intros H. right. now apply IH.
Qed.

Lemma getOwn_None (k : jsstring) (o : jsobject) :
  getOwn k o = None <-> ~ In k (keys o).
Proof.
  induction o as [|[k' v'] r IH]; simpl.
  - split; [intros _ []|reflexivity].
  - destruct (jsstring_eqb k k') eqn:E.
    + apply jsstring_eqb_eq in E. subst. split; [discriminate|]. intros H. elim H. now left.
    + apply jsstring_eqb_neq in E. rewrite IH. split.
      * intros H [H1|H1]; [congruence|tauto].
      * intros H H1. apply H. now right.
Qed.

Lemma hasOwn_In (k : jsstring) (o : jsobject) :
  hasOwn k o = true <-> In k (keys o).
Proof.
  unfold hasOwn. destruct (getOwn k o) eqn:E.
  - split; [intros _|reflexivity]. apply getOwn_In in E.
    unfold keys. apply in_map_iff. now exists (k, j).
  - apply getOwn_None in E. split; [discriminate|tauto].
Qed.

(** In an object, whose keys are distinct, every entry is what reading
    its key gives. *)
Lemma In_getOwn (k v : jsstring) (o : jsobject) :
  NoDup (keys o) -> In (k, v) o -> getOwn k o = Some v.
Proof.
  induction o as [|[k' v'] r IH]; simpl; [intros _ []|].
  intros Hnd [H|H].
  - injection H as -> ->. now rewrite jsstring_eqb_refl.
  - inversion Hnd as [|? ? Hni Hnd']; subst.
    destruct (jsstring_eqb k k') eqn:E.
    + apply jsstring_eqb_eq in E. subst. elim Hni.
      unfold keys. apply in_map_iff. now exists (k', v).
    + now apply IH.
Qed.

Lemma keys_updateOwn (k v : jsstring) (o : jsobject) :
  keys (updateOwn k v o) = keys o.
Proof.
  induction o as [|[k' v'] r IH]; simpl; [reflexivity|].
  destruct (jsstring_eqb k k'); simpl; [reflexivity|]. now f_equal.
Qed.

Lemma getOwn_updateOwn (k v k0 : jsstring) (o : jsobject) :
  hasOwn k o = true ->
  getOwn k0 (updateOwn k v o) = if jsstring_eqb k0 k then Some v else getOwn k0 o.
Proof.
  unfold hasOwn. induction o as [|[k' v'] r IH]; simpl; [discriminate|].
  destruct (jsstring_eqb k k') eqn:E; simpl.
  - apply jsstring_eqb_eq in E. subst. intros _.
    destruct (jsstring_eqb k0 k'); reflexivity.
  - intros H. destruct (jsstring_eqb k0 k') eqn:E0.
    + apply jsstring_eqb_eq in E0. subst.
      rewrite jsstring_eqb_sym, E. reflexivity.
    + now apply IH.
Qed.

Lemma In_insertOwn (k v : jsstring) (o : jsobject) (e : jsstring * jsstring) :
  In e (insertOwn k v o) <-> e = (k, v) \/ In e o.
Proof.
  induction o as [|[k' v'] r IH]; simpl.
  - intuition congruence.
  - destruct (arrayIndex k) as [n|]; [destruct (arrayIndex k') as [n'|]|];
      [destruct (n <? n')| |]; simpl; rewrite ?IH; intuition congruence.
Qed.

Lemma keys_insertOwn (k v k0 : jsstring) (o : jsobject) :
  In k0 (keys (insertOwn k v o)) <-> k0 = k \/ In k0 (keys o).
Proof.
  unfold keys. rewrite !in_map_iff. split.
  - intros [[a b] [<- H]]. apply In_insertOwn in H. destruct H as [H|H].
    + injection H as -> ->. now left.
    + right. now exists (a, b).
  - intros [->|H].
    + exists (k, v). split; [reflexivity|]. apply In_insertOwn. now left.
    + destruct H as [e [<- H]]. exists e. split; [reflexivity|].
      apply In_insertOwn. now right.
Qed.

Lemma NoDup_insertOwn (k v : jsstring) (o : jsobject) :
  ~ In k (keys o) -> NoDup (keys o) -> NoDup (keys (insertOwn k v o)).
Proof.
  induction o as [|[k' v'] r IH]; simpl; intros Hni Hnd.
  - constructor; [intros []|constructor].
  - inversion Hnd as [|? ? Hni' Hnd']; subst.
    assert (Hcons : NoDup (k :: k' :: keys r)) by (constructor; [exact Hni|exact Hnd]).
    assert (Hrec : NoDup (k' :: keys (insertOwn k v r))).
    { constructor.
      - rewrite keys_insertOwn. intros [->|H]; [apply Hni; now left|tauto].
      - apply IH; [|exact Hnd']. intros H. apply Hni. now right. }
    destruct (arrayIndex k) as [n|]; [destruct (arrayIndex k') as [n'|]|];
      [destruct (n <? n')| |]; simpl; assumption.
Qed.

Lemma getOwn_insertOwn (k v k0 : jsstring) (o : jsobject) :
  hasOwn k o = false ->
  getOwn k0 (insertOwn k v o) = if jsstring_eqb k0 k then Some v else getOwn k0 o.
Proof.
  unfold hasOwn. induction o as [|[k' v'] r IH]; simpl.
  - reflexivity.
  - destruct (jsstring_eqb k k') eqn:E; [discriminate|]. intros H.
    assert (Hrec : getOwn k0 ((k', v') :: insertOwn k v r)
                   = if jsstring_eqb k0 k then Some v
                     else if jsstring_eqb k0 k' then Some v' else getOwn k0 r).
    { simpl. rewrite (IH H). destruct (jsstring_eqb k0 k') eqn:E0; [|reflexivity].
      apply jsstring_eqb_eq in E0. subst. rewrite jsstring_eqb_sym, E. reflexivity. }
    destruct (arrayIndex k) as [n|]; [destruct (arrayIndex k') as [n'|]|];
      [destruct (n <? n')| |]; try exact Hrec; simpl; reflexivity.
Qed.

(** Reading after [o[k] = v]. *)
Lemma getOwn_setProperty (k v k0 : jsstring) (o : jsobject) :
  getOwn k0 (setProperty k v o)
  = if jsstring_eqb k0 k && (hasOwn k o || negb (jsstring_eqb k (js "__proto__")))
    then Some v else getOwn k0 o.
Proof.
  unfold setProperty. destruct (hasOwn k o) eqn:E.
  - rewrite getOwn_updateOwn by assumption. simpl. now rewrite andb_true_r.
  - destruct (jsstring_eqb k (js "__proto__")) eqn:Ep; cbn [orb negb].
    + now rewrite andb_false_r.
    + rewrite getOwn_insertOwn by assumption. now rewrite andb_true_r.
Qed.

Lemma NoDup_setProperty (k v : jsstring) (o : jsobject) :
  NoDup (keys o) -> NoDup (keys (setProperty k v o)).
Proof.
  intros H. unfold setProperty. destruct (hasOwn k o) eqn:E.
  - now rewrite keys_updateOwn.
  - destruct (jsstring_eqb k (js "__proto__")); [assumption|].
    apply NoDup_insertOwn; [|assumption].
    intros Hin. apply hasOwn_In in Hin. congruence.
Qed.

Lemma hasProperty_own (k : jsstring) (o : jsobject) :
  inPrototype k = false -> hasProperty k o = hasOwn k o.
Proof. unfold hasProperty. intros ->. apply orb_false_r. Qed.

Lemma filter_none {A : Type} (f : A -> bool) (l : list A) :
  (forall x, In x l -> f x = false) -> filter f l = [].
Proof.
  induction l as [|a r IH]; simpl; [reflexivity|]. intros H.
  rewrite (H a) by now left. apply IH. intros x Hx. apply H. now right.
Qed.

(** ** The snapshots the parsers build *)

Lemma NoDup_parseEnvContentLine (vars : jsobject) (line : jsstring) :
  NoDup (keys vars) -> NoDup (keys (parseEnvContentLine vars line)).
Proof.
  intros H. unfold parseEnvContentLine.
  destruct (negb _ && negb _); [|assumption].
  destruct (split EQUALS (trim line)) as [|k parts]; [assumption|].
  destruct (negb _); [|assumption]. now apply NoDup_setProperty.
Qed.

Lemma NoDup_parseEnvFileLine (vars : jsobject) (line : jsstring) :
  NoDup (keys vars) -> NoDup (keys (parseEnvFileLine vars line)).
Proof.
  intros H. unfold parseEnvFileLine.
  destruct (_ || _); [assumption|].
  destruct (split EQUALS (trim line)) as [|k parts]; [assumption|].
  destruct (negb _ && negb _); [|assumption]. now apply NoDup_setProperty.
Qed.

Lemma NoDup_fold (step : jsobject -> jsstring -> jsobject) (lines : list jsstring) :
  (forall vars line, NoDup (keys vars) -> NoDup (keys (step vars line))) ->
  forall vars, NoDup (keys vars) -> NoDup (keys (fold_left step lines vars)).
Proof.
  intros Hstep. induction lines as [|l r IH]; simpl; intros vars H; [assumption|].
  apply IH. now apply Hstep.
Qed.

Lemma NoDup_parseEnvContent (content : jsstring) : NoDup (keys (parseEnvContent content)).
Proof.
  apply NoDup_fold; [exact NoDup_parseEnvContentLine|constructor].
Qed.

Lemma NoDup_parseEnvFile (file : option jsstring) : NoDup (keys (parseEnvFile file)).
Proof.
  destruct file; simpl; [|constructor].
  apply NoDup_fold; [exact NoDup_parseEnvFileLine|constructor].
Qed.

(** ** The difference of two snapshots *)

Lemma fold_findAddedModified (oldVars : jsobject) (l : list (jsstring * jsstring))
    (a m : list jsstring) :
  fold_left (findAddedModified oldVars) l (a, m)
  = (a ++ map fst (filter (isAdded oldVars) l),
     m ++ map fst (filter (isModified oldVars) l)).
Proof.
  revert a m. induction l as [|[k v] r IH]; intros a m; simpl.
  - now rewrite !app_nil_r.
  - unfold isAdded, isModified. simpl.
    destruct (hasProperty k oldVars); simpl.
    + destruct (strictNotEqual (getProperty k oldVars) (VString v)); simpl.
      * rewrite IH. now rewrite <- app_assoc.
      * apply IH.
    + rewrite IH. now rewrite <- app_assoc.
Qed.

Lemma fold_findRemoved (newVars : jsobject) (l acc : list jsstring) :
  fold_left (findRemoved newVars) l acc
  = acc ++ filter (fun key => negb (hasProperty key newVars)) l.
Proof.
  revert acc. induction l as [|k r IH]; intros acc; simpl.
  - now rewrite app_nil_r.
  - unfold findRemoved at 2. destruct (hasProperty k newVars); simpl.
    + apply IH.
    + rewrite IH. now rewrite <- app_assoc.
Qed.

Lemma diffVars_filters (oldVars newVars : jsobject) :
  diffVars oldVars newVars
  = {| added := map fst (filter (isAdded oldVars) newVars);
       modified := map fst (filter (isModified oldVars) newVars);
       removed := filter (fun key => negb (hasProperty key newVars)) (keys oldVars) |}.
Proof.
  unfold diffVars, entries. rewrite fold_findAddedModified, fold_findRemoved. reflexivity.
Qed.

Lemma added_iff (oldVars newVars : jsobject) (k : jsstring) :
  In k (added (diffVars oldVars newVars))
  <-> hasOwn k newVars = true /\ hasProperty k oldVars = false.
Proof.
  rewrite diffVars_filters, hasOwn_In. simpl. unfold keys.
  rewrite !in_map_iff. split.
  - intros [[a b] [<- H]]. apply filter_In in H. destruct H as [H1 H2].
    unfold isAdded in H2. simpl in *. split.
    + now exists (a, b).
    + now apply negb_true_iff.
  - intros [[[a b] [<- H1]] H2]. exists (a, b). split; [reflexivity|].
    apply filter_In. split; [assumption|]. unfold isAdded. simpl in *. now rewrite H2.
Qed.

Lemma modified_iff (oldVars newVars : jsobject) (k : jsstring) :
  NoDup (keys newVars) ->
  In k (modified (diffVars oldVars newVars))
  <-> exists v, getOwn k newVars = Some v /\ hasProperty k oldVars = true
                /\ strictNotEqual (getProperty k oldVars) (VString v) = true.
Proof.
  intros Hnd. rewrite diffVars_filters. simpl. rewrite in_map_iff. split.
  - intros [[a b] [<- H]]. apply filter_In in H. destruct H as [H1 H2].
    unfold isModified in H2. simpl in *. apply andb_true_iff in H2.
    exists b. split; [now apply In_getOwn|exact H2].
  - intros [v [H1 [H2 H3]]]. exists (k, v). split; [reflexivity|].
    apply filter_In. split; [now apply getOwn_In|].
    unfold isModified. simpl. now rewrite H2, H3.
Qed.

Lemma removed_iff (oldVars newVars : jsobject) (k : jsstring) :
  In k (removed (diffVars oldVars newVars))
  <-> hasOwn k oldVars = true /\ hasProperty k newVars = false.
Proof.
  rewrite diffVars_filters, hasOwn_In. simpl. rewrite filter_In, negb_true_iff. tauto.
Qed.

(** For a key that is not a member of [Object.prototype] the three lists
    are the three cases of the difference. *)
Lemma diffVars_own_keys (oldVars newVars : jsobject) (k : jsstring) :
  inPrototype k = false -> NoDup (keys newVars) ->
  (In k (added (diffVars oldVars newVars))
     <-> getOwn k oldVars = None /\ getOwn k newVars <> None)
  /\ (In k (modified (diffVars oldVars newVars))
     <-> exists u v, getOwn k oldVars = Some u /\ getOwn k newVars = Some v /\ u <> v)
  /\ (In k (removed (diffVars oldVars newVars))
     <-> getOwn k oldVars <> None /\ getOwn k newVars = None).
Proof.
  intros Hp Hnd.
  rewrite added_iff, removed_iff, (@modified_iff oldVars newVars k Hnd),
    !(@hasProperty_own k _ Hp).
  unfold getProperty, hasOwn.
  destruct (getOwn k oldVars) as [u|]; destruct (getOwn k newVars) as [v|];
    rewrite ?Hp; simpl; repeat split;
    try solve [intuition congruence].
  - intros [v' [[= <-] [_ H]]]. exists u, v. repeat split.
    apply negb_true_iff, jsstring_eqb_neq in H. exact H.
  - intros [u' [v' [[= <-] [[= <-] H]]]]. exists v. repeat split.
    now apply negb_true_iff, jsstring_eqb_neq.
  - intros [v' [[=] _]].
  - intros [u' [v' [_ [[=] _]]]].
  - intros [v' [_ [[=] _]]].
  - intros [u' [v' [[=] _]]].
  - intros [v' [[=] _]].
  - intros [u' [v' [[=] _]]].
Qed.

(** The difference of a snapshot with itself is empty. *)
Lemma diffVars_self (vars : jsobject) :
  NoDup (keys vars) ->
  diffVars vars vars = {| added := []; modified := []; removed := [] |}.
Proof.
  intros Hnd. rewrite diffVars_filters. f_equal.
  - rewrite filter_none; [reflexivity|]. intros [k v] H. unfold isAdded. simpl.
    apply negb_false_iff. unfold hasProperty.
    replace (hasOwn k vars) with true; [reflexivity|].
    symmetry. apply hasOwn_In. unfold keys. apply in_map_iff. now exists (k, v).
  - rewrite filter_none; [reflexivity|]. intros [k v] H. unfold isModified. simpl.
    unfold getProperty. rewrite (@In_getOwn k v vars Hnd H). simpl.
    rewrite jsstring_eqb_refl. apply andb_false_r.
  - apply filter_none. intros k H. apply negb_false_iff. unfold hasProperty.
    apply hasOwn_In in H. now rewrite H.
Qed.

Lemma calculateChanges_self (content : jsstring) (now : N) :
  hasChanged (calculateChanges content content now) = false.
Proof.
  unfold hasChanged, calculateChanges. cbv zeta. cbn [variables].
  now rewrite (@diffVars_self _ (NoDup_parseEnvContent content)).
Qed.

(** ** Buffers *)

Lemma to_N_byteOfN (n : N) : n < 256 -> Strings.Byte.to_N (byteOfN n) = n.
Proof.
  intros H. unfold byteOfN. destruct (Strings.Byte.of_N n) as [b|] eqn:E.
  - now apply Strings.Byte.to_of_N.
  - apply Strings.Byte.of_N_None_iff in E. lia.
Qed.

Lemma hexDecode_hexEncode (buf : list byte) : hexDecode (hexEncode buf) = buf.
Proof.
  induction buf as [|b r IH]; [reflexivity|].
  change (hexEncode (b :: r))
    with (hexDigit (Strings.Byte.to_N b / 16)
          :: hexDigit (Strings.Byte.to_N b mod 16) :: hexEncode r).
  destruct b; cbn -[hexEncode hexDecode];
    change (hexDecode (?a :: ?b :: hexEncode r))
      with (match unhex a, unhex b with
            | Some x, Some y => byteOfN (16 * x + y) :: hexDecode (hexEncode r)
            | _, _ => []
            end);
    rewrite IH; reflexivity.
Qed.

Lemma length_hexEncode_even (buf : list byte) : Nat.odd (List.length (hexEncode buf)) = false.
Proof.
  induction buf as [|b r IH]; [reflexivity|].
  change (hexEncode (b :: r))
    with (hexDigit (Strings.Byte.to_N b / 16)
          :: hexDigit (Strings.Byte.to_N b mod 16) :: hexEncode r).
  exact IH.
Qed.

Ltac decide_comparisons :=
  repeat match goal with
  | |- context [?a <? ?b] =>
      first [ replace (a <? b) with true by (symmetry; apply N.ltb_lt; lia)
            | replace (a <? b) with false by (symmetry; apply N.ltb_ge; lia) ]
  | |- context [?a <=? ?b] =>
      first [ replace (a <=? b) with true by (symmetry; apply N.leb_le; lia)
            | replace (a <=? b) with false by (symmetry; apply N.leb_gt; lia) ]
  | |- context [?a =? ?b] =>
      first [ replace (a =? b) with true by (symmetry; apply N.eqb_eq; lia)
            | replace (a =? b) with false by (symmetry; apply N.eqb_neq; lia) ]
  end.

Lemma utf8DecodeFrom_scalar (cp : N) (rest : list N) :
  isScalar cp ->
  utf8DecodeFrom None (map Strings.Byte.to_N (utf8Bytes cp) ++ rest)
  = cp :: utf8DecodeFrom None rest.
Proof.
  intros [Hlt Hns]. unfold utf8Bytes.
  pose proof (N.div_mod cp 64 ltac:(lia)) as E1.
  pose proof (N.mod_lt cp 64 ltac:(lia)) as B1.
  pose proof (N.div_mod (cp / 64) 64 ltac:(lia)) as E2.
  pose proof (N.mod_lt (cp / 64) 64 ltac:(lia)) as B2.
  pose proof (N.div_mod (cp / 64 / 64) 64 ltac:(lia)) as E3.
  pose proof (N.mod_lt (cp / 64 / 64) 64 ltac:(lia)) as B3.
  replace (cp / 4096) with (cp / 64 / 64) by (rewrite N.Div0.div_div; reflexivity).
  replace (cp / 262144) with (cp / 64 / 64 / 64)
    by (rewrite !N.Div0.div_div; reflexivity).
  set (a := cp mod 64) in *. set (q1 := cp / 64) in *.
  set (b := q1 mod 64) in *. set (q2 := q1 / 64) in *.
  set (c := q2 mod 64) in *. set (q3 := q2 / 64) in *.
  destruct (N.ltb_spec cp 128);
    [|destruct (N.ltb_spec cp 2048); [|destruct (N.ltb_spec cp 65536)]].
  - cbn [map app]. rewrite to_N_byteOfN by lia.
    cbn [utf8DecodeFrom]. unfold leadByte. decide_comparisons. reflexivity.
  - cbn [map app]. rewrite !to_N_byteOfN by lia.
    cbn [utf8DecodeFrom]. unfold leadByte. decide_comparisons.
    cbn [andb]. decide_comparisons. cbn [andb]. f_equal. lia.
  - cbn [map app]. rewrite !to_N_byteOfN by lia.
    cbn [utf8DecodeFrom]. unfold leadByte. decide_comparisons. cbn [andb].
    destruct (N.eqb_spec (224 + q2) 224); destruct (N.eqb_spec (224 + q2) 237);
      decide_comparisons; cbn [andb]; decide_comparisons; cbn [andb]; f_equal; lia.
  - cbn [map app]. rewrite !to_N_byteOfN by lia.
    cbn [utf8DecodeFrom]. unfold leadByte. decide_comparisons. cbn [andb].
    destruct (N.eqb_spec (240 + q3) 240); destruct (N.eqb_spec (240 + q3) 244);
      decide_comparisons; cbn [andb]; decide_comparisons; cbn [andb];
      decide_comparisons; cbn [andb]; f_equal; lia.
Qed.

Lemma utf8DecodeFrom_encode (cps : list N) :
  Forall isScalar cps ->
  utf8DecodeFrom None (map Strings.Byte.to_N (flat_map utf8Bytes cps)) = cps.
Proof.
  intros H. induction H as [|cp r Hcp Hr IH]; [reflexivity|].
  change (flat_map utf8Bytes (cp :: r)) with (utf8Bytes cp ++ flat_map utf8Bytes r).
  rewrite map_app, utf8DecodeFrom_scalar by assumption. now rewrite IH.
Qed.

Lemma surrogate_cases (c : char16) :
  (isHighSurrogate c = true /\ 55296 <= c <= 56319)
  \/ (isHighSurrogate c = false /\ isLowSurrogate c = true /\ 56320 <= c <= 57343)
  \/ (isHighSurrogate c = false /\ isLowSurrogate c = false
      /\ ~ (55296 <= c <= 57343)).
Proof.
  unfold isHighSurrogate, isLowSurrogate.
  destruct (N.leb_spec 55296 c); destruct (N.leb_spec c 56319);
    destruct (N.leb_spec 56320 c); destruct (N.leb_spec c 57343); simpl;
    try lia; intuition lia.
Qed.

(** A well-formed string is the UTF-16 form of its code points, which
    are scalar values. *)
Lemma codePoints_wellFormed (n : nat) (s : jsstring) :
  (List.length s <= n)%nat -> wellFormed s = true ->
  Forall isScalar (codePoints s) /\ flat_map utf16Units (codePoints s) = s.
Proof.
  revert s. induction n as [|n IH]; intros s Hlen Hwf.
  - destruct s; [split; [constructor|reflexivity]|simpl in Hlen; lia].
  - destruct s as [|c r]; [split; [constructor|reflexivity]|].
    simpl in Hlen. cbn [wellFormed codePoints] in *.
    destruct (surrogate_cases c) as [[Hh Hc]|[[Hh [Hl Hc]]|[Hh [Hl Hc]]]];
      rewrite Hh in *; try rewrite Hl in *.
    + destruct r as [|d r']; [discriminate|].
      apply andb_true_iff in Hwf. destruct Hwf as [Hd Hwf]. rewrite Hd.
      simpl in Hlen. destruct (IH r' ltac:(lia) Hwf) as [IH1 IH2].
      assert (Hdr : 56320 <= d <= 57343).
      { unfold isLowSurrogate in Hd. apply andb_true_iff in Hd.
        rewrite !N.leb_le in Hd. exact Hd. }
      split.
      * constructor; [|assumption]. unfold isScalar. lia.
      * change (flat_map utf16Units (?x :: ?l)) with (utf16Units x ++ flat_map utf16Units l).
        rewrite IH2. unfold utf16Units.
        replace (65536 + (c - 55296) * 1024 + (d - 56320) <? 65536) with false
          by (symmetry; apply N.ltb_ge; lia).
        replace (65536 + (c - 55296) * 1024 + (d - 56320) - 65536)
          with ((d - 56320) + (c - 55296) * 1024) by lia.
        rewrite N.div_add by lia. rewrite N.Div0.mod_add.
        rewrite N.div_small, N.mod_small by lia.
        replace (55296 + (0 + (c - 55296))) with c by lia.
        replace (56320 + (d - 56320)) with d by lia. reflexivity.
    + discriminate.
    + simpl in Hwf. apply andb_true_iff in Hwf. destruct Hwf as [Hc16 Hwf].
      apply N.ltb_lt in Hc16.
      destruct (IH r ltac:(lia) Hwf) as [IH1 IH2]. split.
      * constructor; [|assumption]. unfold isScalar. lia.
      * change (flat_map utf16Units (?x :: ?l)) with (utf16Units x ++ flat_map utf16Units l).
        rewrite IH2. unfold utf16Units.
        replace (c <? 65536) with true by (symmetry; apply N.ltb_lt; lia). reflexivity.
Qed.

(** Encoding a well-formed string as UTF-8 and decoding the bytes gives
    the string back. *)
Lemma utf8Decode_utf8Encode (s : jsstring) :
  wellFormed s = true -> utf8Decode (utf8Encode s) = s.
Proof.
  intros Hwf. destruct (@codePoints_wellFormed (List.length s) s (le_n _) Hwf) as [H1 H2].
  unfold utf8Decode, utf8Encode. now rewrite utf8DecodeFrom_encode.
Qed.

(** ** core/encryption *)

Lemma standInSha256_length (message : list byte) :
  List.length (standInSha256 message) = 32%nat.
Proof. reflexivity. Qed.

Lemma standIn_opens_sealed (key iv plain : list byte) :
  standInDecrypt key iv (snd (standInEncrypt key iv plain))
    (fst (standInEncrypt key iv plain)) = Some plain.
Proof.
  unfold standInDecrypt, standInEncrypt. simpl.
  destruct (list_eq_dec Strings.Byte.byte_eq_dec iv iv); [|congruence].
  now rewrite rev_involutive.
Qed.

Section EngineProperties.

Context {crypto : Crypto}.
Variable projectName : jsstring.


(** C5, as amended: for every well-formed string (no surrogate without
    its partner), decrypting what [encryptValue] returned for it, under
    the same derivation key, returns the string. *)
Theorem decrypt_encrypt_well_formed
    (em : EncryptionManager) (randomBytes : list byte) (value : jsstring) :
  (forall message, List.length (sha256 message) = 32%nat) ->
  opensSealed ->
  List.length randomBytes = 16%nat ->
  wellFormed value = true ->
  let '(encryptedValue, iv, authTag) := encryptValue em randomBytes value in
  decryptValue em encryptedValue iv authTag = Return value.
Proof.
  intros Hsha Hgcm Hiv Hwf. unfold encryptValue, decryptValue.
  specialize (Hgcm (deriveKey em) randomBytes (utf8Encode value) (Hsha _) Hiv).
  destruct (aes256gcmEncrypt (deriveKey em) randomBytes (utf8Encode value))
    as [cipherText tag].
  rewrite length_hexEncode_even, !hexDecode_hexEncode. simpl in Hgcm. rewrite Hgcm.
  now rewrite utf8Decode_utf8Encode.
Qed.

Lemma decryptVariablesFrom_first_failure (em : EncryptionManager)
    (before : list EncryptedVariable) (item : EncryptedVariable)
    (rest : list EncryptedVariable) (vars : jsobject) :
  (forall i, In i before -> ~ undecryptable em i) ->
  undecryptable em item ->
  decryptVariablesFrom em vars (before ++ item :: rest)
  = Throw (Error (js "Failed to decrypt variable " ++ key item)).
Proof.
  revert vars. induction before as [|i r IH]; intros vars Hok [e Hbad].
  - cbn [app decryptVariablesFrom]. now rewrite Hbad.
  - cbn [app decryptVariablesFrom].
    destruct (decryptValue em (encryptedValue i) (iv i) (authTag i)) as [v|e'] eqn:E.
    + apply IH; [|now exists e]. intros i' Hi'. apply Hok. now right.
    + elim (Hok i (or_introl eq_refl)). now exists e'.
Qed.

Lemma undecryptable_dec (em : EncryptionManager) (item : EncryptedVariable) :
  {undecryptable em item}
  + {~ undecryptable em item}.
Proof.
  unfold undecryptable.
  destruct (decryptValue em (encryptedValue item) (iv item) (authTag item)) as [v|e].
  - right. intros [e [=]].
  - left. now exists e.
Qed.

Lemma first_undecryptable (em : EncryptionManager) (encrypted : list EncryptedVariable) :
  (exists item, In item encrypted /\ undecryptable em item) ->
  exists before item rest,
    encrypted = before ++ item :: rest
    /\ (forall i, In i before -> ~ undecryptable em i)
    /\ undecryptable em item.
Proof.
  induction encrypted as [|i r IH]; intros [item [Hin Hbad]]; [destruct Hin|].
  destruct (undecryptable_dec em i) as [Hi|Hi].
  - exists [], i, r. repeat split; [intros ? []|assumption].
  - destruct IH as [before [item' [rest [-> [H1 H2]]]]].
    { destruct Hin as [->|Hin]; [contradiction|]. now exists item. }
    exists (i :: before), item', rest. repeat split; [|assumption].
    intros i' [<-|Hi']; [assumption|now apply H1].
Qed.

Lemma decryptVariablesFrom_Return (em : EncryptionManager)
    (encrypted : list EncryptedVariable) (vars result : jsobject) :
  decryptVariablesFrom em vars encrypted = Return result ->
  forall item, In item encrypted ->
    exists v, decryptValue em (encryptedValue item) (iv item) (authTag item) = Return v.
Proof.
  revert vars. induction encrypted as [|i r IH]; intros vars H item Hin; [destruct Hin|].
  cbn [decryptVariablesFrom] in H.
  destruct (decryptValue em (encryptedValue i) (iv i) (authTag i)) as [v|e] eqn:E;
    [|discriminate].
  destruct Hin as [<-|Hin]; [now exists v|]. now apply (IH _ H).
Qed.

(** ** commands/sync *)

Lemma decryptVariablesFrom_NoDup (em : EncryptionManager)
    (encrypted : list EncryptedVariable) (vars result : jsobject) :
  NoDup (keys vars) -> decryptVariablesFrom em vars encrypted = Return result ->
  NoDup (keys result).
Proof.
  revert vars. induction encrypted as [|i r IH]; intros vars Hnd H.
  - injection H as <-. exact Hnd.
  - cbn [decryptVariablesFrom] in H.
    destruct (decryptValue em (encryptedValue i) (iv i) (authTag i)) as [v|e]; [|discriminate].
    apply (IH _ (NoDup_setProperty _ v _ Hnd) H).
Qed.

Lemma decryptVariables_NoDup (em : EncryptionManager)
    (encrypted : list EncryptedVariable) (result : jsobject) :
  decryptVariables em encrypted = Return result -> NoDup (keys result).
Proof. apply decryptVariablesFrom_NoDup. constructor. Qed.

(** The comparison of [performPull] holds of a remote key exactly when
    the local file has no such variable or has it with another value. *)
Lemma differsLocally_iff (localVars remoteVars : jsobject) (k : jsstring) :
  In k (keys remoteVars) ->
  differsLocally localVars remoteVars k = true
  <-> getOwn k localVars <> getOwn k remoteVars.
Proof.
  intros Hin. apply hasOwn_In in Hin. unfold hasOwn in Hin.
  unfold differsLocally, hasProperty, hasOwn, getProperty.
  destruct (getOwn k remoteVars) as [v|]; [clear Hin|discriminate].
  destruct (getOwn k localVars) as [u|]; simpl.
  - rewrite negb_true_iff, jsstring_eqb_neq. split; congruence.
  - destruct (inPrototype k); simpl; split; congruence.
Qed.


Lemma pull_differs_iff (localVars remoteVars : jsobject) :
  existsb (differsLocally localVars remoteVars) (keys remoteVars) = true
  <-> exists k, In k (keys remoteVars) /\ getOwn k localVars <> getOwn k remoteVars.
Proof.
  rewrite existsb_exists. split; intros [k [H1 H2]]; exists k; split; try assumption;
    now apply (differsLocally_iff localVars remoteVars k H1).
Qed.

(** What [performPull] does to the local file, by the answer of the
    remote store. *)
Lemma performPull_outcome (w : World) :
  let w' := snd (performPull projectName w) in
  let localVars := parseEnvFile (readFileSync w) in
  match remote w (pullCalls w) with
  | PullResponse true (Some data) =>
      match decryptVariables {| derivationKey := projectName |} data with
      | Return remoteVars =>
          ((forall k, In k (keys remoteVars) ->
                      getOwn k localVars = getOwn k remoteVars) ->
           unchangedFile w w')
          /\ ((exists k, In k (keys remoteVars)
                         /\ getOwn k localVars <> getOwn k remoteVars) ->
              rewrittenWith remoteVars w w')
          /\ (writes w' <> writes w ->
              exists k, In k (keys remoteVars)
                        /\ getOwn k localVars <> getOwn k remoteVars)
      | Throw _ => unchangedFile w w'
      end
  | _ => unchangedFile w w'
  end.
Proof.
  unfold performPull, pullVariables, unchangedFile, rewrittenWith.
  destruct (remote w (pullCalls w)) as [e|success data]; [simpl; tauto|].
  destruct success; [|simpl; tauto].
  destruct data as [data|]; [|simpl; tauto]. cbn [negb].
  destruct (decryptVariables {| derivationKey := projectName |} data) as [remoteVars|e];
    [|simpl; tauto].
  change (readFileSync {| envFile := envFile w; writes := writes w;
                           remote := remote w; pullCalls := S (pullCalls w) |})
    with (readFileSync w).
  set (localVars := parseEnvFile (readFileSync w)).
  destruct (existsb (differsLocally localVars remoteVars) (keys remoteVars)) eqn:E; simpl.
  - apply pull_differs_iff in E. split; [|split].
    + intros Hsame. destruct E as [k [H1 H2]]. elim H2. now apply Hsame.
    + intros _. split; reflexivity.
    + intros _. exact E.
  - split; [|split].
    + intros _. split; reflexivity.
    + intros Hex. apply pull_differs_iff in Hex. congruence.
    + intros Hw. now elim Hw.
Qed.

Lemma performPull_cases (w : World) :
  unchangedFile w (snd (performPull projectName w))
  \/ exists vars, rewrittenWith vars w (snd (performPull projectName w)).
Proof.
  unfold performPull, pullVariables, unchangedFile, rewrittenWith.
  destruct (remote w (pullCalls w)) as [e|success data]; [simpl; tauto|].
  destruct (if negb success then None else data) as [data'|]; [|simpl; tauto].
  destruct (decryptVariables {| derivationKey := projectName |} data') as [remoteVars|e];
    [|simpl; tauto].
  destruct (negb _); [simpl; tauto|].
  right. exists remoteVars. simpl. tauto.
Qed.

Lemma checkRemoteChanges_cases (w : World) :
  unchangedFile w (checkRemoteChanges projectName w)
  \/ exists vars, rewrittenWith vars w (checkRemoteChanges projectName w).
Proof.
  unfold checkRemoteChanges.
  destruct (pullVariables w) as [response w1] eqn:E.
  assert (Hw1 : envFile w1 = envFile w /\ writes w1 = writes w).
  { unfold pullVariables in E. injection E as _ <-. split; reflexivity. }
  destruct Hw1 as [Hf Hn].
  assert (Hsame : unchangedFile w w1) by (split; assumption).
  destruct response as [e|success data]; [now left|].
  destruct (if negb success then None else data) as [data'|]; [|now left].
  destruct (decryptVariables {| derivationKey := projectName |} data') as [remoteVars|e];
    [|now left].
  destruct (existsb _ _); [|now left].
  destruct (performPull_cases w1) as [[H1 H2]|[vars [H1 H2]]].
  - left. split; congruence.
  - right. exists vars. split; congruence.
Qed.

(** ** The watcher beside the poller *)

Lemma hasChanged_any_time (oldContent newContent : jsstring) (t t' : N) :
  hasChanged (calculateChanges oldContent newContent t)
  = hasChanged (calculateChanges oldContent newContent t').
Proof. reflexivity. Qed.

Lemma processFileChange_read (w : World) (t : N) (f : FileWatcher) (content : jsstring) :
  readFileSync w = Some content ->
  processFileChange w t f
  = if hasChanged (calculateChanges (lastContent f) content t)
    then ({| watcher := watcher f; debounceTimer := debounceTimer f;
             lastContent := content |},
          [EnvChanged (calculateChanges (lastContent f) content t)])
    else (f, []).
Proof. intros H. unfold processFileChange. now rewrite H. Qed.

(** A timer that is due fires once. *)
Lemma elapse_due (later t : N) (d : Detector) :
  debounceTimer (fw d) = Some {| fireAt := t; pending := true |} ->
  t <= later ->
  elapse later d
  = let fired := {| watcher := watcher (fw d);
                    debounceTimer := Some {| fireAt := t; pending := false |};
                    lastContent := lastContent (fw d) |} in
    {| world := world d;
       fw := fst (processFileChange (world d) t fired);
       emitted := emitted d ++ snd (processFileChange (world d) t fired) |}.
Proof.
  intros Ht Hle. unfold elapse. rewrite Ht. cbn [pending fireAt andb].
  replace (t <=? later) with true by (symmetry; now apply N.leb_le).
  cbv zeta. now destruct (processFileChange _ _ _).
Qed.

Lemma elapse_idle (later : N) (d : Detector) :
  match debounceTimer (fw d) with
  | Some t => pending t = false
  | None => True
  end ->
  elapse later d = d.
Proof.
  unfold elapse. destruct (debounceTimer (fw d)) as [t|]; [|reflexivity].
  now intros ->.
Qed.

End EngineProperties.

(** ** The debounce timer *)

Lemma elapse_early (now t : N) (d : Detector) :
  armed t d -> now < t + debounceDelay -> elapse now d = d.
Proof.
  intros [_ Ht] Hlt. unfold elapse. rewrite Ht. cbn [pending fireAt andb].
  replace (t + debounceDelay <=? now) with false; [reflexivity|].
  symmetry. now apply N.leb_gt.
Qed.

Lemma edit_after_elapse (now : N) (content : list byte) (d : Detector) :
  elapse now d = d -> watcher (fw d) = true ->
  let d' := edit now content d in
  armed now d'
  /\ envFile (world d') = Some content
  /\ lastContent (fw d') = lastContent (fw d)
  /\ emitted d' = emitted d.
Proof.
  intros He Hw. unfold edit. rewrite He. unfold notify. cbn [fw]. rewrite Hw.
  unfold armed. cbn. rewrite Hw. repeat split.
Qed.

Lemma last_cons {A : Type} (l : list A) (a d : A) : last (a :: l) d = last l a.
Proof.
  revert a d. induction l as [|b r IH]; intros a d; [reflexivity|].
  change (last (a :: b :: r) d) with (last (b :: r) d). rewrite !IH. reflexivity.
Qed.

Lemma edits_armed (burst : list (N * list byte)) :
  forall (t : N) (c : list byte) (d : Detector),
    armed t d -> envFile (world d) = Some c -> withinDebounce t burst = true ->
    let d' := edits burst d in
    armed (last (map fst burst) t) d'
    /\ envFile (world d') = Some (last (map snd burst) c)
    /\ lastContent (fw d') = lastContent (fw d)
    /\ emitted d' = emitted d.
Proof.
  induction burst as [|[t' c'] r IH]; intros t c d Ha Hf Hb.
  - cbn. repeat split; try assumption; apply Ha.
  - cbn [withinDebounce fst] in Hb.
    apply andb_true_iff in Hb. destruct Hb as [Hb Hr].
    apply andb_true_iff in Hb. destruct Hb as [_ Hlt]. apply N.ltb_lt in Hlt.
    destruct (edit_after_elapse t' c' d (elapse_early t' t d Ha Hlt) (proj1 Ha))
      as [Ha' [Hf' [Hl' He']]].
    destruct (IH t' c' (edit t' c' d) Ha' Hf' Hr) as [H1 [H2 [H3 H4]]].
    unfold edits in *. cbn [fold_left fst snd].
    cbn [map]. rewrite !last_cons. cbn [fst snd].
    repeat split; try assumption; try apply H1; congruence.
Qed.

(** C3, as amended: a burst of notifications, each less than the
    debounce delay after the one before, makes the detector process the
    file once, when the delay has passed after the last of them.  It then
    emits one event carrying the difference between the Baseline from
    before the burst and the final content when that difference is not
    empty, and no event when it is empty.  Three edits [A=1], [A=2],
    [A=3] within 500 ms over a Baseline [A=0] give exactly one event,
    with [A] modified. *)
Theorem debounce_coalesces_burst :
  (forall (d : Detector) (t1 : N) (c1 : list byte) (burst : list (N * list byte))
          (later : N),
      watcher (fw d) = true ->
      idle d ->
      withinDebounce t1 burst = true ->
      let tn := last (map fst burst) t1 in
      let final := utf8Decode (last (map snd burst) c1) in
      tn + debounceDelay <= later ->
      let changes := calculateChanges (lastContent (fw d)) final (tn + debounceDelay) in
      let d' := elapse later (edits ((t1, c1) :: burst) d) in
      emitted d' = emitted d ++ (if hasChanged changes then [EnvChanged changes] else [])
      /\ lastContent (fw d')
         = (if hasChanged changes then final else lastContent (fw d)))
  /\ (forall (w : World) (t1 t2 t3 later : N),
      envFile w = Some (utf8Encode (js "A=0")) ->
      t1 <= t2 -> t2 <= t3 -> t3 <= t1 + 500 -> t3 + debounceDelay <= later ->
      let d := {| world := w; fw := fst (watch w newFileWatcher); emitted := [] |} in
      let d' := elapse later
                  (edits [(t1, utf8Encode (js "A=1")); (t2, utf8Encode (js "A=2"));
                          (t3, utf8Encode (js "A=3"))] d) in
      map variables (envChanges (emitted d'))
      = [ {| added := []; modified := [js "A"]; removed := [] |} ]
      /\ lastContent (fw d') = js "A=3").
Proof.
  assert (General : forall (d : Detector) (t1 : N) (c1 : list byte)
                           (burst : list (N * list byte)) (later : N),
      watcher (fw d) = true ->
      idle d ->
      withinDebounce t1 burst = true ->
      let tn := last (map fst burst) t1 in
      let final := utf8Decode (last (map snd burst) c1) in
      tn + debounceDelay <= later ->
      let changes := calculateChanges (lastContent (fw d)) final (tn + debounceDelay) in
      let d' := elapse later (edits ((t1, c1) :: burst) d) in
      emitted d' = emitted d ++ (if hasChanged changes then [EnvChanged changes] else [])
      /\ lastContent (fw d')
         = (if hasChanged changes then final else lastContent (fw d))).
  { intros d t1 c1 burst later Hw Hi Hb tn final Hlater changes d'.
    destruct (edit_after_elapse t1 c1 d (elapse_idle t1 d Hi) Hw) as [Ha [Hf [Hl He]]].
    destruct (edits_armed burst t1 c1 (edit t1 c1 d) Ha Hf Hb) as [[H0 H1] [H2 [H3 H4]]].
    fold tn in H1.
    assert (Hread : readFileSync (world (edits burst (edit t1 c1 d))) = Some final)
      by (unfold readFileSync; now rewrite H2).
    unfold d'. change (edits ((t1, c1) :: burst) d) with (edits burst (edit t1 c1 d)).
    rewrite (elapse_due later (tn + debounceDelay) _ H1 Hlater). cbv zeta.
    rewrite (processFileChange_read _ _ _ final Hread).
    cbn [lastContent emitted fw]. rewrite H3, H4, Hl, He. fold changes.
    destruct (hasChanged changes); cbn [fst snd lastContent];
      split; reflexivity. }
  split; [exact General|].
  intros w t1 t2 t3 later Hfile H12 H23 H31 Hlater d d'.
  assert (Hstart : lastContent (fw d) = utf8Decode (utf8Encode (js "A=0"))).
  { unfold d, watch, readFileSync. now rewrite Hfile. }
  assert (Hb : withinDebounce t1 [(t2, utf8Encode (js "A=2")); (t3, utf8Encode (js "A=3"))]
               = true).
  { cbn [withinDebounce fst]. unfold debounceDelay.
    repeat (apply andb_true_iff; split);
      try reflexivity; try (apply N.leb_le; lia); apply N.ltb_lt; lia. }
  destruct (General d t1 (utf8Encode (js "A=1")) _ later eq_refl I Hb Hlater) as [G1 G2].
  fold d' in G1, G2. rewrite G1, G2, Hstart. split; vm_compute; reflexivity.
Qed.

(** ** What is in flight *)

Lemma pushesInFlight_app (a b : list Operation) :
  pushesInFlight (a ++ b) = (pushesInFlight a + pushesInFlight b)%nat.
Proof. unfold pushesInFlight. now rewrite filter_app, length_app. Qed.

Lemma pullsInFlight_app (a b : list Operation) :
  pullsInFlight (a ++ b) = (pullsInFlight a + pullsInFlight b)%nat.
Proof. unfold pullsInFlight. now rewrite filter_app, length_app. Qed.

Lemma sessionRun_app (options : SyncOptions) (evs : list SessionEvent) (ev : SessionEvent) :
  sessionRun options (evs ++ [ev]) = sessionStep options (sessionRun options evs) ev.
Proof. unfold sessionRun. now rewrite fold_left_app. Qed.

Lemma removeNth_push (n : nat) (ops : list Operation) :
  (pushesInFlight (removeNth n ops) <= pushesInFlight ops)%nat.
Proof.
  revert n. induction ops as [|t r IH]; intros [|n]; simpl; try lia.
  - unfold pushesInFlight. simpl. destruct (isPush t); simpl; lia.
  - specialize (IH n). unfold pushesInFlight in *. simpl.
    destruct (isPush t); simpl; lia.
Qed.

Lemma replaceNth_push (n : nat) (ops : list Operation) :
  nth_error ops n = Some Checking ->
  pushesInFlight (replaceNth n Pulling ops) = pushesInFlight ops.
Proof.
  revert n. induction ops as [|t r IH]; intros [|n]; simpl; try discriminate.
  - now intros [= ->].
  - intros H. specialize (IH n H). unfold pushesInFlight in *. simpl.
    destruct (isPush t); simpl; lia.
Qed.

Lemma removeNth_pull (n : nat) (ops : list Operation) :
  (pullsInFlight (removeNth n ops) <= pullsInFlight ops)%nat.
Proof.
  revert n. induction ops as [|t r IH]; intros [|n]; simpl; try lia.
  - unfold pullsInFlight. simpl. destruct (isPush t); simpl; lia.
  - specialize (IH n). unfold pullsInFlight in *. simpl.
    destruct (isPush t); simpl; lia.
Qed.

Lemma replaceNth_pull (n : nat) (ops : list Operation) :
  nth_error ops n = Some Checking ->
  pullsInFlight (replaceNth n Pulling ops) = pullsInFlight ops.
Proof.
  revert n. induction ops as [|t r IH]; intros [|n]; simpl; try discriminate.
  - now intros [= ->].
  - intros H. specialize (IH n H). unfold pullsInFlight in *. simpl.
    destruct (isPush t); simpl; lia.
Qed.

(** C4, as amended: nothing in a watch-mode session limits what is in
    flight.  Unless the session is pull-only, a local-change event starts
    a push at once, whatever is in flight, so that a run of [n] events
    before any answer leaves [n] pushes in flight; unless it is push-only,
    a poll tick starts a remote check in the same way.  A pull-only
    session never has a push in flight, and a push-only session never a
    pull. *)
Theorem nothing_limits_what_is_in_flight (options : SyncOptions) :
  (pullOnly options = false ->
     (forall ops, pushesInFlight (sessionStep options ops EnvChangedEvent)
                    = S (pushesInFlight ops))
     /\ (forall n, pushesInFlight (sessionRun options (repeat EnvChangedEvent n)) = n))
  /\ (pushOnly options = false ->
     (forall ops, pullsInFlight (sessionStep options ops IntervalTick)
                    = S (pullsInFlight ops))
     /\ (forall n, pullsInFlight (sessionRun options (repeat IntervalTick n)) = n))
  /\ (pullOnly options = true ->
     forall evs, pushesInFlight (sessionRun options evs) = 0%nat)
  /\ (pushOnly options = true ->
     forall evs, pullsInFlight (sessionRun options evs) = 0%nat).
Proof.
  assert (Hsnoc : forall (ev : SessionEvent) n, repeat ev (S n) = repeat ev n ++ [ev]).
  { intros ev. induction n as [|n IH]; [reflexivity|].
    change (repeat ev (S (S n))) with (ev :: repeat ev (S n)). rewrite IH at 1. reflexivity. }
  split; [|split; [|split]].
  - intros Hp.
    assert (Hstep : forall ops, pushesInFlight (sessionStep options ops EnvChangedEvent)
                                  = S (pushesInFlight ops)).
    { intros ops. cbn [sessionStep]. rewrite Hp, pushesInFlight_app.
      unfold pushesInFlight at 2. simpl. lia. }
    split; [exact Hstep|].
    induction n as [|n IH]; [reflexivity|].
    now rewrite Hsnoc, sessionRun_app, Hstep, IH.
  - intros Hp.
    assert (Hstep : forall ops, pullsInFlight (sessionStep options ops IntervalTick)
                                  = S (pullsInFlight ops)).
    { intros ops. cbn [sessionStep]. rewrite Hp, pullsInFlight_app.
      unfold pullsInFlight at 2. simpl. lia. }
    split; [exact Hstep|].
    induction n as [|n IH]; [reflexivity|].
    now rewrite Hsnoc, sessionRun_app, Hstep, IH.
  - intros Hp evs. induction evs as [|ev r IH] using rev_ind; [reflexivity|].
    rewrite sessionRun_app. destruct ev as [| |n rc]; cbn [sessionStep].
    + now rewrite Hp.
    + destruct (pushOnly options); [assumption|].
      rewrite pushesInFlight_app, IH. reflexivity.
    + destruct (nth_error (sessionRun options r) n) as [[| |]|] eqn:E; try assumption.
      * pose proof (removeNth_push n (sessionRun options r)). lia.
      * destruct rc.
        -- now rewrite replaceNth_push.
        -- pose proof (removeNth_push n (sessionRun options r)). lia.
      * pose proof (removeNth_push n (sessionRun options r)). lia.
  - intros Hp evs. induction evs as [|ev r IH] using rev_ind; [reflexivity|].
    rewrite sessionRun_app. destruct ev as [| |n rc]; cbn [sessionStep].
    + destruct (pullOnly options); [assumption|].
      rewrite pullsInFlight_app, IH. reflexivity.
    + now rewrite Hp.
    + destruct (nth_error (sessionRun options r) n) as [[| |]|] eqn:E; try assumption.
      * pose proof (removeNth_pull n (sessionRun options r)). lia.
      * destruct rc.
        -- now rewrite replaceNth_pull.
        -- pose proof (removeNth_pull n (sessionRun options r)). lia.
      * pose proof (removeNth_pull n (sessionRun options r)). lia.
Qed.

(** ** utils/env-parser: writing and reading back *)

Lemma trimStart_head (s : jsstring) : headNotSpace s = true -> trimStart s = s.
Proof.
  destruct s as [|c r]; [reflexivity|]. simpl. intros H.
  apply negb_true_iff in H. now rewrite H.
Qed.

Lemma trim_noOuterSpace (s : jsstring) : noOuterSpace s = true -> trim s = s.
Proof.
  unfold noOuterSpace, trim, trimEnd. intros H. apply andb_true_iff in H.
  destruct H as [H1 H2]. rewrite (trimStart_head s H1), (trimStart_head (rev s) H2).
  apply rev_involutive.
Qed.

Lemma stripQuotes_noOuterQuote (v : jsstring) : noOuterQuote v = true -> stripQuotes v = v.
Proof.
  unfold noOuterQuote. intros H. apply andb_true_iff in H. destruct H as [H1 H2].
  destruct v as [|c r]; [reflexivity|]. unfold stripQuotes.
  simpl in H1. apply negb_true_iff in H1. rewrite H1. unfold dropLastQuote.
  destruct (rev (c :: r)) as [|c' r']; [reflexivity|].
  simpl in H2. apply negb_true_iff in H2. now rewrite H2.
Qed.

Lemma split_nonempty (sep : char16) (s : jsstring) : split sep s <> [].
Proof.
  destruct s as [|c r]; simpl; [discriminate|].
  destruct (c =? sep); [discriminate|]. destruct (split sep r); discriminate.
Qed.

Lemma split_no_sep (sep : char16) (s : jsstring) : ~ In sep s -> split sep s = [s].
Proof.
  induction s as [|c r IH]; [reflexivity|]. intros H. simpl.
  destruct (N.eqb_spec c sep) as [->|_]; [elim H; now left|].
  rewrite IH; [reflexivity|]. intros Hin. apply H. now right.
Qed.

Lemma split_app_sep (sep : char16) (k v : jsstring) :
  ~ In sep k -> split sep (k ++ sep :: v) = k :: split sep v.
Proof.
  induction k as [|c r IH]; intros H.
  - simpl. now rewrite N.eqb_refl.
  - simpl. destruct (N.eqb_spec c sep) as [->|_]; [elim H; now left|].
    rewrite IH; [reflexivity|]. intros Hin. apply H. now right.
Qed.

Lemma join_split (sep : char16) (s : jsstring) : join [sep] (split sep s) = s.
Proof.
  induction s as [|c r IH]; [reflexivity|]. simpl.
  pose proof (split_nonempty sep r) as Hne.
  destruct (N.eqb_spec c sep) as [->|_].
  - destruct (split sep r) as [|p ps]; [congruence|].
    change (join [sep] ([] :: p :: ps)) with ([] ++ [sep] ++ join [sep] (p :: ps)).
    now rewrite IH.
  - destruct (split sep r) as [|p ps]; [congruence|].
    destruct ps as [|p' ps'].
    + simpl in *. now rewrite IH.
    + change (join [sep] ((c :: p) :: p' :: ps'))
        with (c :: (p ++ [sep] ++ join [sep] (p' :: ps'))).
      change (join [sep] (p :: p' :: ps')) with (p ++ [sep] ++ join [sep] (p' :: ps')) in IH.
      now rewrite IH.
Qed.

Lemma split_join (sep : char16) (lines : list jsstring) :
  lines <> [] -> (forall l, In l lines -> ~ In sep l) ->
  split sep (join [sep] lines) = lines.
Proof.
  induction lines as [|l r IH]; [congruence|]. intros _ H.
  destruct r as [|l2 r'].
  - simpl. apply split_no_sep. apply H. now left.
  - change (join [sep] (l :: l2 :: r')) with (l ++ sep :: join [sep] (l2 :: r')).
    rewrite split_app_sep by (apply H; now left).
    rewrite IH; [reflexivity|discriminate|]. intros l' Hl'. apply H. now right.
Qed.

Lemma join_snoc_empty (sep : jsstring) (lines : list jsstring) :
  lines <> [] -> join sep (lines ++ [[]]) = join sep lines ++ sep.
Proof.
  induction lines as [|l r IH]; [congruence|]. intros _.
  destruct r as [|l2 r'].
  - simpl. now rewrite app_nil_r.
  - change (join sep ((l :: l2 :: r') ++ [[]]))
      with (l ++ sep ++ join sep ((l2 :: r') ++ [[]])).
    rewrite IH by discriminate.
    change (join sep (l :: l2 :: r')) with (l ++ sep ++ join sep (l2 :: r')).
    now rewrite <- !app_assoc.
Qed.

(** A blank line, or one that begins with [#], is skipped. *)
Lemma parseEnvFileLine_skipped (vars : jsobject) (line : jsstring) :
  trim line = [] \/ startsWith HASH (trim line) = true ->
  parseEnvFileLine vars line = vars.
Proof.
  unfold parseEnvFileLine. intros [-> | ->]; [reflexivity|].
  now rewrite orb_true_r.
Qed.

(** The first [=] of a line splits the key from the value. *)
Lemma parseEnvFileLine_first_equals (vars : jsobject) (k v : jsstring) :
  k <> [] -> ~ In EQUALS k ->
  trim (k ++ EQUALS :: v) = k ++ EQUALS :: v ->
  startsWith HASH k = false ->
  parseEnvFileLine vars (k ++ EQUALS :: v)
  = setProperty (trim k) (stripQuotes (trim v)) vars.
Proof.
  intros Hk Heq Htrim Hhash. unfold parseEnvFileLine. cbv zeta. rewrite Htrim.
  rewrite split_app_sep by assumption.
  destruct k as [|c r]; [congruence|]. cbn [app].
  cbn [startsWith] in *. rewrite Hhash. cbn [orb negb andb].
  pose proof (split_nonempty EQUALS v) as Hne.
  destruct (split EQUALS v) as [|p ps] eqn:E; [congruence|].
  cbn [negb andb]. rewrite <- E, join_split. reflexivity.
Qed.

Lemma noOuterSpace_line (k v : jsstring) :
  k <> [] -> noOuterSpace k = true -> noOuterSpace v = true ->
  noOuterSpace (k ++ EQUALS :: v) = true.
Proof.
  unfold noOuterSpace. intros Hk Hks Hvs.
  apply andb_true_iff in Hks. destruct Hks as [Hk1 _].
  apply andb_true_iff in Hvs. destruct Hvs as [_ Hv2].
  apply andb_true_iff. split.
  - destruct k; [congruence|]. exact Hk1.
  - rewrite rev_app_distr. cbn [rev]. rewrite <- app_assoc.
    destruct (rev v) as [|c r]; [reflexivity|]. exact Hv2.
Qed.

Lemma parseEnvFileLine_clean (vars : jsobject) (k v : jsstring) :
  cleanKey k -> cleanValue v ->
  parseEnvFileLine vars (envLine (k, v)) = setProperty k v vars.
Proof.
  intros [Hk [Hks [_ [Heq [Hhash _]]]]] [Hvs [_ [Hvq _]]].
  unfold envLine. cbn [fst snd app].
  rewrite parseEnvFileLine_first_equals; try assumption.
  - now rewrite (trim_noOuterSpace k Hks), (trim_noOuterSpace v Hvs),
      (stripQuotes_noOuterQuote v Hvq).
  - apply trim_noOuterSpace. now apply noOuterSpace_line.
Qed.

Lemma fold_parseEnvFileLine_clean (vars : jsobject) :
  (forall k v, In (k, v) vars -> cleanKey k /\ cleanValue v) ->
  forall acc,
    fold_left parseEnvFileLine (map envLine vars) acc = fold_left assign vars acc.
Proof.
  induction vars as [|[k v] r IH]; intros H acc; [reflexivity|].
  cbn [map fold_left]. destruct (H k v (or_introl eq_refl)) as [Hk Hv].
  rewrite (parseEnvFileLine_clean acc k v Hk Hv).
  apply IH. intros k' v' Hin. apply H. now right.
Qed.

Lemma getOwn_fold_assign (vars : jsobject) (k0 : jsstring) :
  NoDup (keys vars) ->
  (forall k, In k (keys vars) -> k <> js "__proto__") ->
  forall acc,
    getOwn k0 (fold_left assign vars acc)
    = match getOwn k0 vars with
      | Some v => Some v
      | None => getOwn k0 acc
      end.
Proof.
  induction vars as [|[k v] r IH]; intros Hnd Hp acc; [reflexivity|].
  cbn [fold_left]. inversion Hnd as [|? ? Hni Hnd']; subst.
  rewrite IH; [|assumption|intros k' Hk'; apply Hp; now right].
  unfold assign. cbn [fst snd getOwn]. rewrite getOwn_setProperty.
  assert (Hk : jsstring_eqb k (js "__proto__") = false).
  { apply jsstring_eqb_neq. apply Hp. now left. }
  rewrite Hk. cbn [negb]. rewrite orb_true_r, andb_true_r.
  destruct (jsstring_eqb k0 k) eqn:E; [|reflexivity].
  apply jsstring_eqb_eq in E. subst k0.
  apply getOwn_None in Hni. now rewrite Hni.
Qed.

Lemma wellFormed_app (n : nat) (a b : jsstring) :
  (List.length a <= n)%nat -> wellFormed a = true -> wellFormed b = true ->
  wellFormed (a ++ b) = true.
Proof.
  revert a. induction n as [|n IH]; intros a Hlen Ha Hb.
  - destruct a; [assumption|simpl in Hlen; lia].
  - destruct a as [|c r]; [assumption|]. simpl in Hlen.
    cbn [app wellFormed] in *. destruct (isHighSurrogate c).
    + destruct r as [|d r']; [discriminate|]. cbn [app].
      apply andb_true_iff in Ha. destruct Ha as [Hd Hr]. rewrite Hd. cbn [andb].
      simpl in Hlen. apply IH; [lia|assumption|assumption].
    + apply andb_true_iff in Ha. destruct Ha as [Hc Hr]. rewrite Hc. cbn [andb].
      apply IH; [lia|assumption|assumption].
Qed.

Lemma wellFormed_join (sep : jsstring) (parts : list jsstring) :
  wellFormed sep = true -> (forall p, In p parts -> wellFormed p = true) ->
  wellFormed (join sep parts) = true.
Proof.
  intros Hsep. induction parts as [|p r IH]; intros H; [reflexivity|].
  destruct r as [|p2 r'].
  - apply H. now left.
  - change (join sep (p :: p2 :: r')) with (p ++ sep ++ join sep (p2 :: r')).
    apply (wellFormed_app (List.length p)); [lia|apply H; now left|].
    apply (wellFormed_app (List.length sep)); [lia|assumption|].
    apply IH. intros p' Hp'. apply H. now right.
Qed.

Lemma wellFormed_envContent (vars : jsobject) :
  (forall k v, In (k, v) vars -> wellFormed k = true /\ wellFormed v = true) ->
  wellFormed (envContent vars) = true.
Proof.
  intros H. unfold envContent, entries.
  apply (wellFormed_app (List.length (join [LF] (map envLine vars))));
    [lia| |reflexivity].
  apply wellFormed_join; [reflexivity|]. intros p Hp.
  apply in_map_iff in Hp. destruct Hp as [[k v] [<- Hin]].
  destruct (H k v Hin) as [Hk Hv]. unfold envLine. cbn [fst snd].
  apply (wellFormed_app (List.length k)); [lia|assumption|].
  apply (wellFormed_app 1); [simpl; lia|reflexivity|assumption].
Qed.

Lemma parseEnvText_envContent (vars : jsobject) :
  (forall k v, In (k, v) vars -> cleanKey k /\ cleanValue v) ->
  parseEnvText (envContent vars) = fold_left assign vars [].
Proof.
  intros H. unfold parseEnvText, envContent, entries.
  destruct vars as [|kv r] eqn:E; [reflexivity|]. rewrite <- E in *.
  assert (Hne : map envLine vars <> []) by (rewrite E; discriminate).
  change [LF] with ([LF] : jsstring) at 2.
  rewrite <- (join_snoc_empty [LF] (map envLine vars) Hne).
  rewrite split_join.
  - rewrite fold_left_app. cbn [fold_left].
    rewrite (parseEnvFileLine_skipped _ [] (or_introl eq_refl)).
    now apply fold_parseEnvFileLine_clean.
  - destruct (map envLine vars); [congruence|discriminate].
  - intros l Hl. apply in_app_or in Hl. destruct Hl as [Hl|Hl].
    2:{ destruct Hl as [<-|Hl]; [intros []|destruct Hl]. }
    apply in_map_iff in Hl. destruct Hl as [[k v] [<- Hin]].
    destruct (H k v Hin) as [[_ [_ [Hk _]]] [_ [Hv _]]].
    unfold envLine. cbn [fst snd]. intros Hlf.
    apply in_app_or in Hlf. destruct Hlf as [Hlf|[Hlf|Hlf]];
      [tauto|discriminate|tauto].
Qed.

(** C8, as amended: for a map whose keys are non-empty, hold no [=] and
    no line feed, do not begin with [#], are not [__proto__], and whose
    keys and values have no white space at either end, values no line
    feed and no quote at either end (all of them well-formed strings),
    parsing the file that [writeEnvFile] wrote gives every key the value
    it has in the map.  The parser skips blank lines and lines that begin
    with [#], and splits a line at its first [=]. *)
Theorem parse_write_round_trip (vars : jsobject) (w : World) :
  NoDup (keys vars) ->
  (forall k v, In (k, v) vars -> cleanKey k /\ cleanValue v) ->
  (forall k, getOwn k (parseEnvFile (readFileSync (writeEnvFile vars w)))
             = getOwn k vars)
  /\ (forall acc line,
        trim line = [] \/ startsWith HASH (trim line) = true ->
        parseEnvFileLine acc line = acc)
  /\ (forall acc k v,
        k <> [] -> ~ In EQUALS k -> trim (k ++ EQUALS :: v) = k ++ EQUALS :: v ->
        startsWith HASH k = false ->
        parseEnvFileLine acc (k ++ EQUALS :: v)
        = setProperty (trim k) (stripQuotes (trim v)) acc).
Proof.
  intros Hnd Hclean. split; [|split].
  - intros k0. unfold writeEnvFile, writeFileSync, readFileSync. cbn [envFile option_map].
    rewrite utf8Decode_utf8Encode.
    + cbn [parseEnvFile]. rewrite (parseEnvText_envContent vars Hclean).
      rewrite (getOwn_fold_assign vars k0 Hnd).
      * now destruct (getOwn k0 vars).
      * intros k Hk. unfold keys in Hk. apply in_map_iff in Hk.
        destruct Hk as [[k' v] [<- Hin]]. apply (Hclean k' v Hin).
    + apply wellFormed_envContent. intros k v Hin.
      destruct (Hclean k v Hin) as [Hk Hv]. split; [apply Hk|apply Hv].
  - exact parseEnvFileLine_skipped.
  - exact parseEnvFileLine_first_equals.
Qed.

(** ** Watching a file that cannot be read *)

(** When the first read fails the watcher starts all the same, from the
    empty Baseline. *)
Lemma watch_unreadable (w : World) (f : FileWatcher) :
  readFileSync w = None ->
  watcher (fst (watch w f)) = true
  /\ lastContent (fst (watch w f)) = []
  /\ last (snd (watch w f)) Stopped = Started.
Proof.
  intros H. unfold watch. rewrite H.
  destruct (if watcher f then stop f else (f, [])) as [f1 out]. cbn [fst snd watcher lastContent].
  repeat split. now rewrite last_last.
Qed.

(** From the empty Baseline, the next change that is processed reports as
    added every key of the file that is not a member of
    [Object.prototype], and reports no other. *)
Lemma first_change_added (w : World) (t : N) (f : FileWatcher) (content : jsstring) :
  lastContent f = [] -> readFileSync w = Some content ->
  forall k, inPrototype k = false ->
    (hasOwn k (parseEnvContent content) = true
     <-> exists changes,
           snd (processFileChange w t f) = [EnvChanged changes]
           /\ In k (added (variables changes))).
Proof.
  intros Hl Hr k Hp. rewrite (processFileChange_read w t f content Hr), Hl.
  set (changes := calculateChanges [] content t).
  assert (Hadd : In k (added (variables changes))
                 <-> hasOwn k (parseEnvContent content) = true).
  { unfold changes, calculateChanges. cbv zeta. cbn [variables].
    rewrite added_iff, (hasProperty_own k _ Hp). cbn. tauto. }
  split.
  - intros Hk. exists changes. apply Hadd in Hk.
    assert (Hc : hasChanged changes = true).
    { unfold hasChanged. destruct (added (variables changes)); [destruct Hk|reflexivity]. }
    rewrite Hc. split; [reflexivity|assumption].
  - intros [c [Hc Hk]]. destruct (hasChanged changes); [|discriminate].
    injection Hc as <-. now apply Hadd.
Qed.

(* ================================================================= *)
(** * Runs on concrete inputs *)


(** C3, counterexample: over a Baseline [A=1] the file is edited to
    [A=2] and, 100 ms later, back to [A=1]: the burst ends with no event
    emitted. *)
Lemma burst_without_net_change_emits_nothing :
  let d := demoDetector (demoWorld (js "A=1") []) in
  let burst := [(0, utf8Encode (js "A=2")); (100, utf8Encode (js "A=1"))] in
  withinDebounce 0 burst = true
  /\ emitted (elapse 5000 (edits burst d)) = [].
Proof. vm_compute. repeat split. Qed.

(** C4, counterexample: two local-change events, the second before the
    first push has an answer, leave two pushes in flight; two poll ticks
    leave two pulls in flight. *)
Lemma two_pushes_in_flight :
  let options := {| pushOnly := false; pullOnly := false |} in
  pushesInFlight (sessionRun options [EnvChangedEvent; EnvChangedEvent]) = 2%nat
  /\ pullsInFlight (sessionRun options [IntervalTick; IntervalTick]) = 2%nat.
Proof. vm_compute. repeat split. Qed.

(** C5, counterexample: the string that is one high surrogate, U+D800,
    comes back as U+FFFD (under primitives that open what they sealed,
    [standIn_opens_sealed]). *)
Lemma lone_surrogate_is_not_given_back :
  let '(e, i, t) :=
    encryptValue (crypto := standIn) demoManager demoIv [55296] in
  decryptValue (crypto := standIn) demoManager e i t = Return [65533]
  /\ decryptValue (crypto := standIn) demoManager e i t <> Return [55296].
Proof. vm_compute. split; [reflexivity|discriminate]. Qed.

(** C5, at a concrete input. *)
Lemma decrypt_encrypt_well_formed_witness :
  let '(e, i, t) :=
    encryptValue (crypto := standIn) demoManager demoIv (js "s3cr3t") in
  decryptValue (crypto := standIn) demoManager e i t = Return (js "s3cr3t").
Proof.
  exact (@decrypt_encrypt_well_formed standIn
           demoManager demoIv (js "s3cr3t") standInSha256_length
           (fun key iv plain _ _ => standIn_opens_sealed key iv plain) eq_refl eq_refl).
Defined.

(** C6, at the failing input: the old content is empty and the new
    content is the line [toString=1].  The key is new, yet it is listed
    under [modified] and not under [added]; and when the line is taken
    away again the key is not listed under [removed]. *)
Lemma inherited_name_is_not_reported_added :
  getOwn (js "toString") (parseEnvContent (js "")) = None
  /\ getOwn (js "toString") (parseEnvContent (js "toString=1")) = Some (js "1")
  /\ variables (calculateChanges (js "") (js "toString=1") 0)
     = {| added := []; modified := [js "toString"]; removed := [] |}
  /\ variables (calculateChanges (js "toString=1") (js "") 0)
     = {| added := []; modified := []; removed := [] |}.
Proof. vm_compute. repeat split. Qed.

(** C7, at a concrete input: the second record's tag was altered, and
    [decryptVariables] throws the error that names its key. *)
Lemma altered_tag_names_the_key :
  let good := demoRecord "A" "1" in
  let bad := {| key := js "B"; encryptedValue := encryptedValue good;
                iv := iv good; authTag := js "00"; isSecret := false |} in
  decryptVariables (crypto := standIn) demoManager [good; bad]
  = Throw (Error (js "Failed to decrypt variable B")).
Proof. vm_compute. reflexivity. Qed.

(** C8, counterexample: a value in quotes is read back without them. *)
Lemma quoted_value_is_not_given_back :
  let vars := [(js "A", js "'x'")] in
  let back := parseEnvFile (readFileSync (writeEnvFile vars (demoWorld [] []))) in
  getOwn (js "A") vars = Some (js "'x'")
  /\ getOwn (js "A") back = Some (js "x")
  /\ back <> vars.
Proof. vm_compute. repeat split. discriminate. Qed.

(** C8, at a concrete input. *)
Lemma parse_write_round_trip_witness :
  let vars := [(js "API_URL", js "https://x.io/?a=b"); (js "PORT", js "8080")] in
  getOwn (js "API_URL") (parseEnvFile (readFileSync (writeEnvFile vars (demoWorld [] []))))
  = Some (js "https://x.io/?a=b").
Proof.
  cbv zeta.
  refine (proj1 (parse_write_round_trip
                   [(js "API_URL", js "https://x.io/?a=b"); (js "PORT", js "8080")]
                   (demoWorld [] []) _ _) (js "API_URL")).
  - repeat constructor; simpl; intuition discriminate.
  - intros k v [H|[H|[]]]; injection H as <- <-;
      (split; [unfold cleanKey|unfold cleanValue]);
      repeat split; try (vm_compute; reflexivity); try discriminate;
      simpl; intuition discriminate.
Defined.

(** C9, at the failing input: the file cannot be read when the watch
    starts (the Baseline is empty and the watcher is on); then the file
    holds the line [constructor=x], and the change that is processed
    lists the key under [modified], not under [added]. *)
Lemma inherited_name_after_unreadable_start :
  let w0 := {| envFile := None; writes := 0;
               remote := fun _ => PullThrows CryptoError; pullCalls := 0 |} in
  let f := fst (watch w0 newFileWatcher) in
  let w1 := {| envFile := Some (utf8Encode (js "constructor=x")); writes := 0;
               remote := remote w0; pullCalls := 0 |} in
  watcher f = true
  /\ lastContent f = []
  /\ map variables (envChanges (snd (processFileChange w1 2000 f)))
     = [ {| added := []; modified := [js "constructor"]; removed := [] |} ].
Proof. vm_compute. repeat split. Qed.

(** C10, at a concrete input: every remote key is in the local file with
    an equal value and the local file has one key more; the pull leaves
    the file as it is. *)
Lemma extra_local_key_is_kept :
  let w := demoWorld (js "A=1" ++ LF :: js "B=2") [demoRecord "A" "1"] in
  unchangedFile w (snd (demoPull w)).
Proof. vm_compute. repeat split. Qed.

(* ================================================================= *)
(** * Further properties *)

(** ** What the UTF-8 decoder gives *)

Lemma isScalar_REPLACEMENT : isScalar REPLACEMENT.
Proof. unfold isScalar, REPLACEMENT. lia. Qed.

Lemma leadByte_scalar (b : N) :
  match leadByte b with
  | Single cp => isScalar cp
  | Multi cp need lo hi => endsInScalar (cp, need, lo, hi)
  | Invalid => True
  end.
Proof.
  unfold leadByte.
  destruct (b <? 128) eqn:E1; [apply N.ltb_lt in E1; unfold isScalar; lia|].
  destruct ((194 <=? b) && (b <=? 223)) eqn:E2.
  { apply andb_true_iff in E2. rewrite !N.leb_le in E2.
    cbn [endsInScalar]. intros c Hc. unfold isScalar. lia. }
  destruct ((224 <=? b) && (b <=? 239)) eqn:E3.
  { apply andb_true_iff in E3. rewrite !N.leb_le in E3.
    cbn [endsInScalar]. intros c1 Hc1 c2 Hc2. unfold isScalar.
    destruct (N.eqb_spec b 224); destruct (N.eqb_spec b 237); lia. }
  destruct ((240 <=? b) && (b <=? 244)) eqn:E4; [|exact I].
  apply andb_true_iff in E4. rewrite !N.leb_le in E4.
  cbn [endsInScalar]. intros c1 Hc1 c2 Hc2 c3 Hc3. unfold isScalar.
  destruct (N.eqb_spec b 240); destruct (N.eqb_spec b 244); lia.
Qed.

Lemma utf8DecodeFrom_scalars (bs : list N) :
  forall st,
    match st with Some s => endsInScalar s | None => True end ->
    Forall isScalar (utf8DecodeFrom st bs).
Proof.
  induction bs as [|b r IH]; intros st Hst.
  - destruct st; simpl; [constructor; [apply isScalar_REPLACEMENT|constructor]|constructor].
  - assert (Hfresh : Forall isScalar
                       match leadByte b with
                       | Single cp => cp :: utf8DecodeFrom None r
                       | Multi cp need lo hi => utf8DecodeFrom (Some (cp, need, lo, hi)) r
                       | Invalid => REPLACEMENT :: utf8DecodeFrom None r
                       end).
    { pose proof (leadByte_scalar b) as Hl. destruct (leadByte b) as [cp|cp need lo hi|].
      - constructor; [assumption|]. now apply IH.
      - now apply IH.
      - constructor; [apply isScalar_REPLACEMENT|]. now apply IH. }
    cbn [utf8DecodeFrom]. destruct st as [[[[cp need] lo] hi]|]; [|exact Hfresh].
    destruct (N.leb_spec lo b); destruct (N.leb_spec b hi); cbn [andb];
      try (constructor; [apply isScalar_REPLACEMENT|exact Hfresh]).
    destruct need as [|[|[|[|n]]]]; cbn [endsInScalar] in Hst.
    + constructor; [apply Hst; lia|]. now apply IH.
    + constructor; [apply Hst; lia|]. now apply IH.
    + apply IH. cbn [endsInScalar]. intros b' Hb'. apply Hst; lia.
    + apply IH. cbn [endsInScalar]. intros b' Hb' b'' Hb''. apply Hst; lia.
    + destruct Hst.
Qed.

Lemma wellFormed_utf16 (cps : list N) :
  Forall isScalar cps -> wellFormed (flat_map utf16Units cps) = true.
Proof.
  intros H. induction H as [|cp r [Hlt Hns] Hr IH]; [reflexivity|].
  change (flat_map utf16Units (cp :: r)) with (utf16Units cp ++ flat_map utf16Units r).
  destruct (N.ltb_spec cp 65536) as [Hc|Hc].
  - assert (Hu : utf16Units cp = [cp]).
    { unfold utf16Units. now replace (cp <? 65536) with true by (symmetry; now apply N.ltb_lt). }
    rewrite Hu. cbn [app wellFormed].
    destruct (surrogate_cases cp) as [[Hh Hr']|[[Hh [Hl Hr']]|[Hh [Hl Hr']]]]; try lia.
    rewrite Hh, Hl. cbn [negb andb].
    replace (cp <? 65536) with true by (symmetry; now apply N.ltb_lt). exact IH.
  - assert (Hq : (cp - 65536) / 1024 < 1024)
      by (apply N.Div0.div_lt_upper_bound; lia).
    pose proof (N.mod_lt (cp - 65536) 1024 ltac:(lia)) as Hm.
    assert (Hu : utf16Units cp
                 = [55296 + (cp - 65536) / 1024; 56320 + (cp - 65536) mod 1024]).
    { unfold utf16Units. now replace (cp <? 65536) with false by (symmetry; now apply N.ltb_ge). }
    rewrite Hu. set (q := (cp - 65536) / 1024) in *. set (m := (cp - 65536) mod 1024) in *.
    cbn [app wellFormed]. unfold isHighSurrogate, isLowSurrogate.
    replace (55296 <=? 55296 + q) with true by (symmetry; apply N.leb_le; lia).
    replace (55296 + q <=? 56319) with true by (symmetry; apply N.leb_le; lia).
    replace (56320 <=? 56320 + m) with true by (symmetry; apply N.leb_le; lia).
    replace (56320 + m <=? 57343) with true by (symmetry; apply N.leb_le; lia).
    exact IH.
Qed.

(** Whatever the bytes, decoding them gives a well-formed string. *)
Lemma wellFormed_utf8Decode (buf : list byte) : wellFormed (utf8Decode buf) = true.
Proof.
  unfold utf8Decode. apply wellFormed_utf16. now apply utf8DecodeFrom_scalars.
Qed.

(** ** White space, separators and well-formed strings *)

Lemma isWhiteSpace_plain (c : char16) : isWhiteSpace c = true -> plain c.
Proof.
  unfold isWhiteSpace, plain, isHighSurrogate, isLowSurrogate. intros H.
  repeat (apply orb_true_iff in H; destruct H as [H|H]);
    try (apply N.eqb_eq in H; subst c; repeat split; reflexivity).
  apply andb_true_iff in H. destruct H as [H1 H2].
  apply N.leb_le in H1. apply N.leb_le in H2.
  repeat split; [| |lia].
  - replace (c <=? 56319) with true by (symmetry; apply N.leb_le; lia).
    replace (55296 <=? c) with false by (symmetry; apply N.leb_gt; lia). reflexivity.
  - replace (56320 <=? c) with false by (symmetry; apply N.leb_gt; lia). reflexivity.
Qed.

Lemma wellFormed_plain_cons (c : char16) (r : jsstring) :
  plain c -> wellFormed (c :: r) = wellFormed r.
Proof.
  intros [Hh [Hl Hc]]. cbn [wellFormed]. rewrite Hh, Hl.
  now replace (c <? 65536) with true by (symmetry; now apply N.ltb_lt).
Qed.

(** A well-formed string cut at a plain code unit gives two well-formed
    strings. *)
Lemma wellFormed_cut (n : nat) (a : jsstring) (c : char16) (b : jsstring) :
  (List.length a <= n)%nat -> plain c ->
  wellFormed (a ++ c :: b) = true -> wellFormed a = true /\ wellFormed b = true.
Proof.
  revert a. induction n as [|n IH]; intros a Hlen Hc H.
  - destruct a; [|simpl in Hlen; lia]. cbn [app] in H.
    rewrite (wellFormed_plain_cons c b Hc) in H. now split.
  - destruct a as [|x a']; [cbn [app] in H;
                            rewrite (wellFormed_plain_cons c b Hc) in H; now split|].
    simpl in Hlen. cbn [app wellFormed] in *. destruct (isHighSurrogate x).
    + destruct a' as [|d a'']; cbn [app] in H.
      * destruct Hc as [_ [Hl _]]. rewrite Hl in H. discriminate.
      * apply andb_true_iff in H. destruct H as [Hd H]. rewrite Hd.
        simpl in Hlen. apply (IH a'' ltac:(lia) Hc H).
    + apply andb_true_iff in H. destruct H as [Hx H]. rewrite Hx.
      apply (IH a' ltac:(lia) Hc H).
Qed.

(** What [trimStart] removes is white space, and the rest follows it. *)
Lemma trimStart_suffix (s : jsstring) :
  exists ws, s = ws ++ trimStart s /\ Forall (fun c => isWhiteSpace c = true) ws.
Proof.
  induction s as [|c r [ws [H1 H2]]]; [now exists []|].
  cbn [trimStart]. destruct (isWhiteSpace c) eqn:E.
  - exists (c :: ws). split; [cbn [app]; now f_equal|now constructor].
  - now exists [].
Qed.

(** What [trimEnd] removes is white space, and it follows the rest. *)
Lemma trimEnd_prefix (s : jsstring) :
  exists ws, s = trimEnd s ++ ws /\ Forall (fun c => isWhiteSpace c = true) ws.
Proof.
  unfold trimEnd. destruct (trimStart_suffix (rev s)) as [ws [H1 H2]].
  exists (rev ws). split.
  - rewrite <- rev_app_distr, <- H1. symmetry. apply rev_involutive.
  - apply Forall_rev. exact H2.
Qed.

Lemma headNotSpace_trimStart (s : jsstring) : headNotSpace (trimStart s) = true.
Proof.
  induction s as [|c r IH]; [reflexivity|]. cbn [trimStart].
  destruct (isWhiteSpace c) eqn:E; [exact IH|]. cbn [headNotSpace]. now rewrite E.
Qed.

Lemma headNotSpace_trimEnd (s : jsstring) :
  headNotSpace s = true -> headNotSpace (trimEnd s) = true.
Proof.
  intros H. destruct (trimEnd_prefix s) as [ws [H1 _]].
  destruct (trimEnd s) as [|c r]; [reflexivity|]. rewrite H1 in H. exact H.
Qed.

(** What [trim] returns has no white space at either end. *)
Lemma noOuterSpace_trim (s : jsstring) : noOuterSpace (trim s) = true.
Proof.
  unfold noOuterSpace. apply andb_true_iff. split.
  - unfold trim. apply headNotSpace_trimEnd, headNotSpace_trimStart.
  - unfold trim, trimEnd. rewrite rev_involutive. apply headNotSpace_trimStart.
Qed.

Lemma trimEnd_nonempty (s : jsstring) :
  s <> [] -> headNotSpace s = true -> trimEnd s <> [].
Proof.
  intros Hne Hh Ht. destruct (trimEnd_prefix s) as [ws [H1 H2]].
  rewrite Ht in H1. cbn [app] in H1. subst ws.
  destruct s as [|c r]; [congruence|]. inversion H2 as [|? ? Hc _]; subst.
  cbn [headNotSpace] in Hh. rewrite Hc in Hh. discriminate.
Qed.

Lemma trimStart_incl (s : jsstring) (c : char16) : In c (trimStart s) -> In c s.
Proof.
  destruct (trimStart_suffix s) as [ws [H1 _]]. intros H. rewrite H1.
  apply in_or_app. now right.
Qed.

Lemma trimEnd_incl (s : jsstring) (c : char16) : In c (trimEnd s) -> In c s.
Proof.
  destruct (trimEnd_prefix s) as [ws [H1 _]]. intros H. rewrite H1.
  apply in_or_app. now left.
Qed.

Lemma trim_incl (s : jsstring) (c : char16) : In c (trim s) -> In c s.
Proof. intros H. apply trimStart_incl, trimEnd_incl. exact H. Qed.

Lemma wellFormed_drop_plain_prefix (ws s : jsstring) :
  Forall plain ws -> wellFormed (ws ++ s) = true -> wellFormed s = true.
Proof.
  intros H. induction H as [|c r Hc _ IH]; [tauto|].
  cbn [app]. rewrite (wellFormed_plain_cons c _ Hc). exact IH.
Qed.

Lemma wellFormed_drop_plain_suffix (s ws : jsstring) :
  Forall plain ws -> wellFormed (s ++ ws) = true -> wellFormed s = true.
Proof.
  intros H. destruct H as [|c r Hc _]; [now rewrite app_nil_r|].
  intros Hw. exact (proj1 (wellFormed_cut (List.length s) s c r (le_n _) Hc Hw)).
Qed.

Lemma Forall_whiteSpace_plain (ws : jsstring) :
  Forall (fun c => isWhiteSpace c = true) ws -> Forall plain ws.
Proof. apply Forall_impl. exact isWhiteSpace_plain. Qed.

Lemma wellFormed_trim (s : jsstring) : wellFormed s = true -> wellFormed (trim s) = true.
Proof.
  intros H. unfold trim.
  destruct (trimStart_suffix s) as [ws [H1 H2]].
  destruct (trimEnd_prefix (trimStart s)) as [ws' [H3 H4]].
  rewrite H1 in H. apply (wellFormed_drop_plain_prefix ws) in H;
    [|now apply Forall_whiteSpace_plain].
  rewrite H3 in H. apply (wellFormed_drop_plain_suffix _ ws') in H;
    [exact H|now apply Forall_whiteSpace_plain].
Qed.

Lemma wellFormed_join_parts (sep : char16) (parts : list jsstring) :
  plain sep -> wellFormed (join [sep] parts) = true ->
  forall p, In p parts -> wellFormed p = true.
Proof.
  intros Hs. induction parts as [|p r IH]; intros H q Hq; [destruct Hq|].
  destruct r as [|p2 r'].
  - destruct Hq as [<-|[]]. exact H.
  - change (join [sep] (p :: p2 :: r')) with (p ++ sep :: join [sep] (p2 :: r')) in H.
    destruct (wellFormed_cut (List.length p) p sep _ (le_n _) Hs H) as [H1 H2].
    destruct Hq as [<-|Hq]; [exact H1|]. now apply IH.
Qed.

(** The pieces of a well-formed string split at a plain code unit are
    well-formed. *)
Lemma wellFormed_split (sep : char16) (s : jsstring) :
  plain sep -> wellFormed s = true ->
  forall p, In p (split sep s) -> wellFormed p = true.
Proof.
  intros Hs H. apply (wellFormed_join_parts sep); [exact Hs|].
  now rewrite join_split.
Qed.

Lemma plain_ascii (c : char16) : c < 128 -> plain c.
Proof.
  intros H. unfold plain, isHighSurrogate, isLowSurrogate.
  replace (55296 <=? c) with false by (symmetry; apply N.leb_gt; lia).
  replace (56320 <=? c) with false by (symmetry; apply N.leb_gt; lia).
  repeat split. lia.
Qed.

Lemma isQuote_plain (c : char16) : isQuote c = true -> plain c.
Proof.
  unfold isQuote, QUOTE, DQUOTE. intros H. apply plain_ascii.
  apply orb_true_iff in H. destruct H as [H|H]; apply N.eqb_eq in H; lia.
Qed.

Lemma wellFormed_dropLastQuote (s : jsstring) :
  wellFormed s = true -> wellFormed (dropLastQuote s) = true.
Proof.
  intros H. unfold dropLastQuote. destruct (rev s) as [|c r] eqn:E; [exact H|].
  destruct (isQuote c) eqn:Eq; [|exact H].
  assert (Hs : s = rev r ++ [c]).
  { rewrite <- (rev_involutive s), E. reflexivity. }
  rewrite Hs in H. apply (wellFormed_drop_plain_suffix _ [c]); [|exact H].
  constructor; [now apply isQuote_plain|constructor].
Qed.

Lemma wellFormed_stripQuotes (s : jsstring) :
  wellFormed s = true -> wellFormed (stripQuotes s) = true.
Proof.
  intros H. unfold stripQuotes. destruct s as [|c r]; [reflexivity|].
  destruct (isQuote c) eqn:E; apply wellFormed_dropLastQuote; [|exact H].
  now rewrite (wellFormed_plain_cons c r (isQuote_plain c E)) in H.
Qed.

(** ** What the parser of utils/env-parser can return *)

Lemma In_updateOwn (k v : jsstring) (o : jsobject) (e : jsstring * jsstring) :
  In e (updateOwn k v o) -> In e o \/ (e = (k, v) /\ In k (keys o)).
Proof.
  induction o as [|[k' v'] r IH]; [intros []|]. cbn [updateOwn].
  destruct (jsstring_eqb k k') eqn:E.
  - apply jsstring_eqb_eq in E. subst k'. intros [<-|H].
    + right. split; [reflexivity|now left].
    + left. now right.
  - intros [<-|H]; [left; now left|].
    destruct (IH H) as [H1|[H1 H2]]; [left; now right|right].
    split; [exact H1|now right].
Qed.

(** What [o[k] = v] can add to an object. *)
Lemma In_setProperty (k v : jsstring) (o : jsobject) (e : jsstring * jsstring) :
  In e (setProperty k v o) ->
  In e o \/ (e = (k, v) /\ (k <> js "__proto__" \/ In k (keys o))).
Proof.
  unfold setProperty. destruct (hasOwn k o) eqn:Eh.
  - intros H. destruct (In_updateOwn k v o e H) as [H1|[H1 H2]]; [now left|right].
    split; [exact H1|now right].
  - destruct (jsstring_eqb k (js "__proto__")) eqn:Ep; [now left|].
    intros H. apply In_insertOwn in H. destruct H as [H|H]; [right|now left].
    split; [exact H|left]. now apply jsstring_eqb_neq.
Qed.

Lemma split_pieces_no_sep (sep : char16) (s p : jsstring) :
  In p (split sep s) -> ~ In sep p.
Proof.
  revert p. induction s as [|c r IH]; intros p.
  - intros [<-|[]] [].
  - cbn [split]. destruct (c =? sep) eqn:E.
    + intros [<-|H]; [intros []|now apply IH].
    + destruct (split sep r) as [|q qs] eqn:Es.
      * intros [<-|[]] [H|[]]. subst c. now rewrite N.eqb_refl in E.
      * intros [<-|H].
        -- intros [H|H]; [subst c; now rewrite N.eqb_refl in E|].
           revert H. apply IH. now left.
        -- apply IH. now right.
Qed.

(** The first piece and the rest, joined again. *)
Lemma split_first (sep : char16) (s key : jsstring) (valueParts : list jsstring) :
  split sep s = key :: valueParts -> valueParts <> [] ->
  s = key ++ sep :: join [sep] valueParts.
Proof.
  intros H Hne. rewrite <- (join_split sep s), H.
  destruct valueParts as [|p ps]; [congruence|reflexivity].
Qed.

Lemma stripQuotes_incl (s : jsstring) (c : char16) : In c (stripQuotes s) -> In c s.
Proof.
  assert (Hd : forall t, In c (dropLastQuote t) -> In c t).
  { intros t. unfold dropLastQuote. destruct (rev t) as [|x r] eqn:E; [tauto|].
    destruct (isQuote x); [|tauto]. intros H.
    rewrite <- (rev_involutive t), E. cbn [rev]. apply in_or_app. now left. }
  unfold stripQuotes. destruct s as [|x r]; [tauto|].
  destruct (isQuote x); [|apply Hd]. intros H. right. now apply Hd.
Qed.

Lemma startsWith_trimEnd (c : char16) (s : jsstring) :
  startsWith c s = false -> startsWith c (trimEnd s) = false.
Proof.
  intros H. destruct (trimEnd_prefix s) as [ws [H1 _]].
  destruct (trimEnd s) as [|x r]; [reflexivity|]. rewrite H1 in H. exact H.
Qed.

Lemma headNotSpace_prefix (a b : jsstring) :
  a <> [] -> headNotSpace (a ++ b) = true -> headNotSpace a = true.
Proof. destruct a; [congruence|tauto]. Qed.

Lemma startsWith_prefix (c : char16) (a b : jsstring) :
  a <> [] -> startsWith c (a ++ b) = false -> startsWith c a = false.
Proof. destruct a; [congruence|tauto]. Qed.

(** What one line can add to the variables: the key and the value cut
    out of it. *)
Lemma parseEnvFileLine_entries (vars : jsobject) (line : jsstring)
    (e : jsstring * jsstring) :
  In e (parseEnvFileLine vars line) ->
  In e vars
  \/ exists key rest,
       trim line = key ++ EQUALS :: rest /\ key <> [] /\ ~ In EQUALS key
       /\ startsWith HASH (trim line) = false
       /\ e = (trim key, stripQuotes (trim rest))
       /\ (trim key <> js "__proto__" \/ In (trim key) (keys vars)).
Proof.
  unfold parseEnvFileLine. destruct (trim line) as [|c r] eqn:Et; [now left|].
  destruct (startsWith HASH (c :: r)) eqn:Eh; cbn [orb]; [now left|].
  destruct (split EQUALS (c :: r)) as [|key valueParts] eqn:Es; [now left|].
  destruct key as [|k0 key']; [now left|].
  destruct valueParts as [|p ps]; [now left|]. cbn [negb andb].
  intros H. apply In_setProperty in H. destruct H as [H|[H1 H2]]; [now left|right].
  exists (k0 :: key'), (join [EQUALS] (p :: ps)). split; [|split; [|split; [|split]]].
  - apply (split_first EQUALS _ _ _ Es). discriminate.
  - discriminate.
  - apply (split_pieces_no_sep EQUALS (c :: r)). rewrite Es. now left.
  - reflexivity.
  - split; assumption.
Qed.

(** The key cut out of a trimmed line. *)
Lemma key_of_line_clean (line key rest : jsstring) :
  wellFormed line = true -> ~ In LF line ->
  trim line = key ++ EQUALS :: rest -> key <> [] -> ~ In EQUALS key ->
  startsWith HASH (trim line) = false ->
  trim key <> [] /\ noOuterSpace (trim key) = true /\ ~ In LF (trim key)
  /\ ~ In EQUALS (trim key) /\ startsWith HASH (trim key) = false
  /\ wellFormed (trim key) = true.
Proof.
  intros Hw Hlf Ht Hne Heq Hh.
  assert (Hhead : headNotSpace key = true).
  { apply (headNotSpace_prefix key (EQUALS :: rest) Hne). rewrite <- Ht.
    pose proof (noOuterSpace_trim line) as Hn. unfold noOuterSpace in Hn.
    now apply andb_true_iff in Hn. }
  assert (Hts : trimStart key = key) by now apply trimStart_head.
  assert (Hwk : wellFormed key = true).
  { pose proof (wellFormed_trim line Hw) as Hwt. rewrite Ht in Hwt.
    apply (wellFormed_cut (List.length key) key EQUALS rest (le_n _)); [|exact Hwt].
    apply plain_ascii. unfold EQUALS. lia. }
  split; [|split; [|split; [|split; [|split]]]].
  - unfold trim. rewrite Hts. now apply trimEnd_nonempty.
  - apply noOuterSpace_trim.
  - intros H. apply Hlf. apply (trim_incl line). rewrite Ht.
    apply in_or_app. left. now apply trim_incl.
  - intros H. apply Heq. now apply trim_incl.
  - unfold trim. rewrite Hts. apply startsWith_trimEnd.
    apply (startsWith_prefix HASH key (EQUALS :: rest) Hne). now rewrite <- Ht.
  - now apply wellFormed_trim.
Qed.

(** The value cut out of a trimmed line. *)
Lemma value_of_line (line key rest : jsstring) :
  wellFormed line = true -> ~ In LF line ->
  trim line = key ++ EQUALS :: rest ->
  ~ In LF (stripQuotes (trim rest)) /\ wellFormed (stripQuotes (trim rest)) = true.
Proof.
  intros Hw Hlf Ht. split.
  - intros H. apply Hlf. apply (trim_incl line). rewrite Ht.
    apply in_or_app. right. right. apply trim_incl. now apply stripQuotes_incl.
  - apply wellFormed_stripQuotes, wellFormed_trim.
    pose proof (wellFormed_trim line Hw) as Hwt. rewrite Ht in Hwt.
    apply (wellFormed_cut (List.length key) key EQUALS rest (le_n _)); [|exact Hwt].
    apply plain_ascii. unfold EQUALS. lia.
Qed.

(** The entries an object holds after the lines of a well-formed text
    have been parsed into it, when its own entries were of that kind. *)
Lemma fold_parseEnvFileLine_entries (lines : list jsstring) (vars : jsobject) :
  (forall line, In line lines -> wellFormed line = true /\ ~ In LF line) ->
  (forall k v, In (k, v) vars -> cleanKey k /\ ~ In LF v /\ wellFormed v = true) ->
  forall k v, In (k, v) (fold_left parseEnvFileLine lines vars) ->
    cleanKey k /\ ~ In LF v /\ wellFormed v = true.
Proof.
  revert vars. induction lines as [|line r IH]; intros vars Hl Hv; [exact Hv|].
  cbn [fold_left]. apply IH; [intros l Hin; apply Hl; now right|].
  intros k v H. apply parseEnvFileLine_entries in H.
  destruct H as [H|[key [rest [Ht [Hne [Heq [Hh [He Hp]]]]]]]]; [now apply Hv|].
  injection He as -> ->.
  destruct (Hl line (or_introl eq_refl)) as [Hw Hlf].
  destruct (key_of_line_clean line key rest Hw Hlf Ht Hne Heq Hh)
    as [K1 [K2 [K3 [K4 [K5 K6]]]]].
  destruct (value_of_line line key rest Hw Hlf Ht) as [V1 V2].
  split; [|split; assumption].
  unfold cleanKey. repeat (split; [assumption|]). split; [|assumption].
  destruct Hp as [Hp|Hp]; [exact Hp|].
  unfold keys in Hp. apply in_map_iff in Hp. destruct Hp as [[k' v'] [Hk Hin]].
  cbn [fst] in Hk. subst k'. destruct (Hv _ _ Hin) as [[_ [_ [_ [_ [_ [Hproto _]]]]]] _].
  exact Hproto.
Qed.

Lemma parseEnvText_entries (content : jsstring) (k v : jsstring) :
  wellFormed content = true ->
  In (k, v) (parseEnvText content) ->
  cleanKey k /\ ~ In LF v /\ wellFormed v = true.
Proof.
  intros Hw. unfold parseEnvText. apply fold_parseEnvFileLine_entries.
  - intros line Hin. split.
    + apply (wellFormed_split LF content); [apply plain_ascii; unfold LF; lia|exact Hw|exact Hin].
    + now apply (split_pieces_no_sep LF content).
  - intros ? ? [].
Qed.

Lemma parseEnvFile_entries (w : World) (k v : jsstring) :
  In (k, v) (parseEnvFile (readFileSync w)) ->
  cleanKey k /\ ~ In LF v /\ wellFormed v = true.
Proof.
  unfold readFileSync. destruct (envFile w) as [bytes|]; cbn [option_map parseEnvFile].
  - apply parseEnvText_entries. apply wellFormed_utf8Decode.
  - intros [].
Qed.

(** X1: whatever bytes the file holds, every variable [parseEnvFile]
    reads from it has a key of the kind a line [key=value] gives back
    (not empty, no white space at either end, no line feed, no [=], not
    beginning with [#], never [__proto__], well-formed), and a
    well-formed value without a line feed. *)
Theorem parseEnvFile_entries_clean (w : World) (k v : jsstring) :
  In (k, v) (entries (parseEnvFile (readFileSync w))) ->
  cleanKey k /\ ~ In LF v /\ wellFormed v = true.
Proof. exact (parseEnvFile_entries w k v). Qed.

(** ** utils/env-parser: the template *)

Lemma getOwn_blank (k0 : jsstring) (vars : jsobject) :
  getOwn k0 (map (fun k => (k, [])) (keys vars))
  = if hasOwn k0 vars then Some [] else None.
Proof.
  unfold hasOwn. induction vars as [|[k v] r IH]; [reflexivity|].
  cbn [keys map fst getOwn]. destruct (jsstring_eqb k0 k); [reflexivity|exact IH].
Qed.

Lemma keys_blank (ks : list jsstring) : keys (map (fun k => (k, [])) ks) = ks.
Proof.
  unfold keys. rewrite map_map. cbn [fst]. apply map_id.
Qed.

Lemma template_envContent (ks : list jsstring) :
  join [LF] (map (fun key => key ++ [EQUALS]) ks) ++ [LF]
  = envContent (map (fun k => (k, [])) ks).
Proof.
  unfold envContent, entries. rewrite map_map. reflexivity.
Qed.

(** X2: the template [createTemplate] writes, when parsed, gives every
    key of the source file the empty value and holds no other key;
    whatever bytes the source file holds, and also when there is none. *)
Theorem createTemplate_keeps_keys_only (sourceFile : option (list byte)) (k : jsstring) :
  getOwn k (parseEnvFile (Some (utf8Decode (createTemplate sourceFile))))
  = if hasOwn k (parseEnvFile (option_map utf8Decode sourceFile)) then Some [] else None.
Proof.
  unfold createTemplate. set (vars := parseEnvFile (option_map utf8Decode sourceFile)).
  assert (Hclean : forall k v, In (k, v) vars -> cleanKey k).
  { intros k1 v1. unfold vars. destruct sourceFile as [bytes|]; cbn [option_map parseEnvFile].
    - intros H. apply (parseEnvText_entries (utf8Decode bytes) k1 v1); [|exact H].
      apply wellFormed_utf8Decode.
    - intros []. }
  assert (Hblank : forall k v, In (k, v) (map (fun k => (k, [])) (keys vars))
                               -> cleanKey k /\ cleanValue v).
  { intros k1 v1 H. apply in_map_iff in H. destruct H as [k2 [He H]].
    injection He as <- <-. unfold keys in H. apply in_map_iff in H.
    destruct H as [[k3 v3] [<- H]]. split; [exact (Hclean k3 v3 H)|].
    repeat split; intros []. }
  rewrite template_envContent, utf8Decode_utf8Encode.
  - cbn [parseEnvFile]. rewrite (parseEnvText_envContent _ Hblank).
    rewrite getOwn_fold_assign.
    + rewrite getOwn_blank. now destruct (hasOwn k vars).
    + rewrite keys_blank. apply NoDup_parseEnvFile.
    + rewrite keys_blank. intros k1 Hk1. unfold keys in Hk1. apply in_map_iff in Hk1.
      destruct Hk1 as [[k3 v3] [<- H]]. apply (Hclean k3 v3 H).
  - apply wellFormed_envContent. intros k1 v1 H. destruct (Hblank k1 v1 H) as [Hk Hv].
    split; [apply Hk|apply Hv].
Qed.

(** ** Substrings *)

Lemma isPrefixOf_iff (p s : jsstring) :
  isPrefixOf p s = true <-> exists b, s = p ++ b.
Proof.
  revert s. induction p as [|x p IH]; intros s.
  - split; [intros _; now exists s|reflexivity].
  - destruct s as [|y s]; cbn [isPrefixOf].
    + split; [discriminate|intros [b H]; discriminate].
    + rewrite andb_true_iff, N.eqb_eq, IH. split.
      * intros [-> [b ->]]. now exists b.
      * intros [b H]. injection H as -> ->. split; [reflexivity|now exists b].
Qed.

(** [s.includes(p)]: [p] occurs somewhere in [s]. *)
Lemma includes_iff (s p : jsstring) :
  includes s p = true <-> exists a b, s = a ++ p ++ b.
Proof.
  induction s as [|c r IH]; cbn [includes]; rewrite orb_true_iff, isPrefixOf_iff.
  - split.
    + intros [[b H]|H]; [now exists [], b|discriminate].
    + intros [a [b H]]. left. destruct a; [now exists b|discriminate].
  - rewrite IH. split.
    + intros [[b H]|[a [b H]]]; [now exists [], b|].
      exists (c :: a), b. cbn [app]. now f_equal.
    + intros [a [b H]]. destruct a as [|x a]; [left; now exists b|right].
      injection H as -> ->. now exists a, b.
Qed.

Lemma includes_app_l (s t p : jsstring) : includes s p = true -> includes (s ++ t) p = true.
Proof.
  rewrite !includes_iff. intros [a [b ->]]. exists a, (b ++ t).
  now rewrite <- !app_assoc.
Qed.

Lemma includes_app_r (s t p : jsstring) : includes t p = true -> includes (s ++ t) p = true.
Proof.
  rewrite !includes_iff. intros [a [b ->]]. exists (s ++ a), b.
  now rewrite <- !app_assoc.
Qed.

Lemma includes_trans (s p q : jsstring) :
  includes s p = true -> includes p q = true -> includes s q = true.
Proof.
  rewrite !includes_iff. intros [a [b ->]] [a' [b' ->]].
  exists (a ++ a'), (b' ++ b). now rewrite <- !app_assoc.
Qed.

Lemma includes_refl (s : jsstring) : includes s s = true.
Proof. apply includes_iff. exists [], []. cbn [app]. now rewrite app_nil_r. Qed.

Lemma includes_join (sep : jsstring) (parts : list jsstring) (p : jsstring) :
  In p parts -> includes (join sep parts) p = true.
Proof.
  induction parts as [|q r IH]; [intros []|].
  destruct r as [|q2 r'].
  - intros [<-|[]]. apply includes_refl.
  - change (join sep (q :: q2 :: r')) with (q ++ sep ++ join sep (q2 :: r')).
    intros [<-|H]; [apply includes_app_l, includes_refl|].
    apply includes_app_r, includes_app_r. now apply IH.
Qed.

(** ** utils/env-parser: .gitignore *)

Lemma wellFormed_textOf (file : option (list byte)) : wellFormed (textOf file) = true.
Proof. destruct file; [apply wellFormed_utf8Decode|reflexivity]. Qed.

(** When every entry occurs in the file nothing is written. *)
Lemma updateGitignore_present (gitignore : option (list byte)) (entries : list jsstring) :
  (forall e, In e entries -> includes (textOf gitignore) e = true) ->
  updateGitignore gitignore entries = gitignore.
Proof.
  intros H. unfold updateGitignore. fold (textOf gitignore).
  rewrite filter_none; [reflexivity|].
  intros e He. now rewrite (H e He).
Qed.

(** What the file holds after the call: what it held, and behind it
    something in which every entry occurs that did not before. *)
Lemma updateGitignore_text (gitignore : option (list byte)) (entries : list jsstring) :
  (forall e, In e entries -> wellFormed e = true) ->
  exists suffix,
    textOf (updateGitignore gitignore entries) = textOf gitignore ++ suffix
    /\ forall e, In e entries -> includes (textOf gitignore) e = false ->
                 includes suffix e = true.
Proof.
  intros Hwf. unfold updateGitignore. fold (textOf gitignore).
  set (content := textOf gitignore).
  set (linesToAdd := filter (fun entry => negb (includes content entry)) entries).
  assert (Hadd : forall e, In e entries -> includes content e = false -> In e linesToAdd).
  { intros e He Hn. apply filter_In. split; [exact He|now rewrite Hn]. }
  destruct linesToAdd as [|l ls] eqn:El; cbn [isEmpty negb].
  - exists []. split; [now rewrite app_nil_r|].
    intros e He Hn. destruct (Hadd e He Hn).
  - rewrite <- El in *.
    assert (Hlines : wellFormed (join [LF] linesToAdd ++ [LF]) = true).
    { apply (wellFormed_app (List.length (join [LF] linesToAdd))); [lia| |reflexivity].
      apply wellFormed_join; [reflexivity|]. intros p Hp. apply Hwf.
      unfold linesToAdd in Hp. now apply filter_In in Hp. }
    assert (Hcontent : wellFormed content = true) by apply wellFormed_textOf.
    assert (Hin : forall e, In e entries -> includes content e = false ->
                            includes (join [LF] linesToAdd ++ [LF]) e = true).
    { intros e He Hn. apply includes_app_l, includes_join. now apply Hadd. }
    destruct (negb (isEmpty content) && negb (endsWith LF content)); cbn [textOf].
    + exists ([LF] ++ join [LF] linesToAdd ++ [LF]). split.
      * rewrite utf8Decode_utf8Encode; [now rewrite <- app_assoc|].
        apply (wellFormed_app (List.length (content ++ [LF]))); [lia| |exact Hlines].
        apply (wellFormed_app (List.length content)); [lia|exact Hcontent|reflexivity].
      * intros e He Hn. apply includes_app_r. now apply Hin.
    + exists (join [LF] linesToAdd ++ [LF]). split; [|exact Hin].
      rewrite utf8Decode_utf8Encode; [reflexivity|].
      apply (wellFormed_app (List.length content)); [lia|exact Hcontent|exact Hlines].
Qed.

Lemma updateGitignore_includes (gitignore : option (list byte)) (entries : list jsstring) :
  (forall e, In e entries -> wellFormed e = true) ->
  forall e, In e entries -> includes (textOf (updateGitignore gitignore entries)) e = true.
Proof.
  intros Hwf e He. destruct (updateGitignore_text gitignore entries Hwf) as [suffix [H1 H2]].
  rewrite H1. destruct (includes (textOf gitignore) e) eqn:E.
  - now apply includes_app_l.
  - apply includes_app_r. now apply H2.
Qed.

(** X3: after [updateGitignore], for entries that are well-formed
    strings, the file begins with the text it held before and every
    entry occurs in it. *)
Theorem updateGitignore_appends (gitignore : option (list byte)) (entries : list jsstring) :
  (forall e, In e entries -> wellFormed e = true) ->
  (exists suffix,
     textOf (updateGitignore gitignore entries) = textOf gitignore ++ suffix)
  /\ forall e, In e entries ->
       includes (textOf (updateGitignore gitignore entries)) e = true.
Proof.
  intros Hwf. split; [|exact (updateGitignore_includes gitignore entries Hwf)].
  destruct (updateGitignore_text gitignore entries Hwf) as [suffix [H _]].
  now exists suffix.
Qed.

(** X4: [updateGitignore] a second time with the same well-formed
    entries writes nothing: the file stays as the first call left it. *)
Theorem updateGitignore_idempotent (gitignore : option (list byte))
    (entries : list jsstring) :
  (forall e, In e entries -> wellFormed e = true) ->
  updateGitignore (updateGitignore gitignore entries) entries
  = updateGitignore gitignore entries.
Proof.
  intros Hwf. apply updateGitignore_present.
  exact (updateGitignore_includes gitignore entries Hwf).
Qed.

(** ** core/encryption: a batch, and commands/sync: the one-time sync *)

Section BatchProperties.

Context {crypto : Crypto} {unicode : Unicode}.
Variable projectName : jsstring.

(** Four of the ten patterns hold [key] and never decide. *)
Lemma includes_key (s p : jsstring) :
  includes p (js "key") = true -> includes s p = true -> includes s (js "key") = true.
Proof. intros Hp Hs. exact (includes_trans s p (js "key") Hs Hp). Qed.

(** X5: [looksLikeSecret] answers as the test of six patterns does:
    [api_key], [access_key], [private_key] and [apikey] hold [key] and
    so never change the answer. *)
Theorem looksLikeSecret_six_patterns (key value : jsstring) :
  looksLikeSecret key value
  = existsb (fun pattern => includes (toLowerCase key) pattern
                            || includes (toLowerCase value) pattern)
            (map js [ "secret"; "password"; "token"; "key"; "auth"; "credential" ]%string).
Proof.
  unfold looksLikeSecret, secretPatterns. cbn [map existsb].
  set (lowerKey := toLowerCase key). set (lowerValue := toLowerCase value).
  assert (Hkey : forall p, includes p (js "key") = true ->
            includes lowerKey (js "key") || includes lowerValue (js "key") = false ->
            includes lowerKey p || includes lowerValue p = false).
  { intros p Hp H. apply orb_false_iff in H. destruct H as [H1 H2].
    apply orb_false_iff. split.
    - destruct (includes lowerKey p) eqn:E; [|reflexivity].
      now rewrite (includes_key lowerKey p Hp E) in H1.
    - destruct (includes lowerValue p) eqn:E; [|reflexivity].
      now rewrite (includes_key lowerValue p Hp E) in H2. }
  destruct (includes lowerKey (js "key") || includes lowerValue (js "key")) eqn:K.
  - now rewrite !orb_true_r.
  - rewrite (Hkey (js "api_key") eq_refl eq_refl), (Hkey (js "access_key") eq_refl eq_refl),
      (Hkey (js "private_key") eq_refl eq_refl), (Hkey (js "apikey") eq_refl eq_refl).
    now rewrite !orb_false_r.
Qed.

(** Decrypting what [encryptValue] made of a well-formed value. *)
Lemma decryptValue_sealed (em : EncryptionManager) (randomBytes : list byte)
    (value c i t : jsstring) :
  (forall message, List.length (sha256 message) = 32%nat) ->
  opensSealed ->
  List.length randomBytes = 16%nat ->
  wellFormed value = true ->
  encryptValue em randomBytes value = (c, i, t) ->
  decryptValue em c i t = Return value.
Proof.
  intros Hsha Hgcm Hiv Hwf. unfold encryptValue, decryptValue.
  specialize (Hgcm (deriveKey em) randomBytes (utf8Encode value) (Hsha _) Hiv).
  destruct (aes256gcmEncrypt (deriveKey em) randomBytes (utf8Encode value))
    as [cipherText tag].
  intros He. injection He as <- <- <-.
  rewrite length_hexEncode_even, !hexDecode_hexEncode. simpl in Hgcm. rewrite Hgcm.
  now rewrite utf8Decode_utf8Encode.
Qed.

Lemma decryptVariablesFrom_encryptVariablesFrom (em : EncryptionManager)
    (randomBytes : nat -> list byte) (vars : list (jsstring * jsstring)) :
  (forall message, List.length (sha256 message) = 32%nat) ->
  opensSealed ->
  (forall n, List.length (randomBytes n) = 16%nat) ->
  (forall k v, In (k, v) vars -> wellFormed v = true) ->
  forall n acc,
    decryptVariablesFrom em acc (encryptVariablesFrom em randomBytes n vars)
    = Return (fold_left assign vars acc).
Proof.
  intros Hsha Hgcm Hiv. induction vars as [|[k v] r IH]; intros Hwf n acc; [reflexivity|].
  cbn [encryptVariablesFrom fold_left].
  destruct (encryptValue em (randomBytes n) v) as [[c i] t] eqn:E.
  cbn [decryptVariablesFrom key encryptedValue iv authTag].
  rewrite (decryptValue_sealed em (randomBytes n) v c i t Hsha Hgcm (Hiv n)
             (Hwf k v (or_introl eq_refl)) E).
  apply IH. intros k' v' H. apply (Hwf k' v'). now right.
Qed.

(** Decrypting a batch that [encryptVariables] made gives every key its
    value again. *)
Lemma decryptVariables_encryptVariables (em : EncryptionManager)
    (randomBytes : nat -> list byte) (vars : jsobject) :
  (forall message, List.length (sha256 message) = 32%nat) ->
  opensSealed ->
  (forall n, List.length (randomBytes n) = 16%nat) ->
  NoDup (keys vars) ->
  (forall k v, In (k, v) vars -> k <> js "__proto__" /\ wellFormed v = true) ->
  exists remoteVars,
    decryptVariables em (encryptVariables em randomBytes vars) = Return remoteVars
    /\ forall k, getOwn k remoteVars = getOwn k vars.
Proof.
  intros Hsha Hgcm Hiv Hnd Hvars. exists (fold_left assign vars []). split.
  - unfold decryptVariables, encryptVariables, entries.
    apply decryptVariablesFrom_encryptVariablesFrom; try assumption.
    intros k v H. apply (Hvars k v H).
  - intros k. rewrite (getOwn_fold_assign vars k Hnd).
    + now destruct (getOwn k vars).
    + intros k' Hk'. unfold keys in Hk'. apply in_map_iff in Hk'.
      destruct Hk' as [[k2 v2] [<- H]]. apply (Hvars k2 v2 H).
Qed.

(** X6: a batch round trip.  For variables with distinct keys, none of
    them [__proto__], and well-formed values, [decryptVariables] of what
    [encryptVariables] returned gives every key its value again. *)
Theorem encryptVariables_round_trip (em : EncryptionManager)
    (randomBytes : nat -> list byte) (vars : jsobject) :
  (forall message, List.length (sha256 message) = 32%nat) ->
  opensSealed ->
  (forall n, List.length (randomBytes n) = 16%nat) ->
  NoDup (keys vars) ->
  (forall k v, In (k, v) vars -> k <> js "__proto__" /\ wellFormed v = true) ->
  exists remoteVars,
    decryptVariables em (encryptVariables em randomBytes vars) = Return remoteVars
    /\ forall k, getOwn k remoteVars = getOwn k vars.
Proof. exact (decryptVariables_encryptVariables em randomBytes vars). Qed.

(** What [performPush] sends, decrypted, is what the file holds. *)
Lemma performPush_sends_file (randomBytes : nat -> list byte)
    (pushVariables : list EncryptedVariable -> PushResult) (w : World) :
  (forall message, List.length (sha256 message) = 32%nat) ->
  opensSealed ->
  (forall n, List.length (randomBytes n) = 16%nat) ->
  exists remoteVars,
    decryptVariables {| derivationKey := projectName |}
      (snd (performPush projectName randomBytes pushVariables w)) = Return remoteVars
    /\ forall k, getOwn k remoteVars = getOwn k (parseEnvFile (readFileSync w)).
Proof.
  intros Hsha Hgcm Hiv.
  assert (Hsent : snd (performPush projectName randomBytes pushVariables w)
                  = encryptVariables {| derivationKey := projectName |} randomBytes
                      (parseEnvFile (readFileSync w))).
  { unfold performPush. destruct (pushVariables _) as [e|success message];
      [reflexivity|]. now destruct success. }
  rewrite Hsent. apply decryptVariables_encryptVariables; try assumption.
  - apply NoDup_parseEnvFile.
  - intros k v H. destruct (parseEnvFile_entries w k v H) as [Hk [_ Hv]].
    split; [apply Hk|exact Hv].
Qed.

(** X7: whatever bytes the local file holds, the records [performPush]
    hands to the remote store decrypt, under the same project name, to
    the variables [parseEnvFile] reads from the file; also when the
    store refuses them. *)
Theorem performPush_sends_the_file (randomBytes : nat -> list byte)
    (pushVariables : list EncryptedVariable -> PushResult) (w : World) :
  (forall message, List.length (sha256 message) = 32%nat) ->
  opensSealed ->
  (forall n, List.length (randomBytes n) = 16%nat) ->
  exists remoteVars,
    decryptVariables {| derivationKey := projectName |}
      (snd (performPush projectName randomBytes pushVariables w)) = Return remoteVars
    /\ forall k, getOwn k remoteVars = getOwn k (parseEnvFile (readFileSync w)).
Proof. exact (performPush_sends_file randomBytes pushVariables w). Qed.

End BatchProperties.

Section SyncProperties.

Context {crypto : Crypto} {unicode : Unicode}.
Variable projectName : jsstring.

Lemma performPull_pullCalls (w : World) :
  pullCalls (snd (performPull projectName w)) = S (pullCalls w)
  /\ remote (snd (performPull projectName w)) = remote w.
Proof.
  unfold performPull, pullVariables.
  destruct (remote w (pullCalls w)) as [e|success data]; [now split|].
  destruct (if negb success then None else data) as [data'|]; [|now split].
  destruct (decryptVariables {| derivationKey := projectName |} data') as [remoteVars|e];
    [|now split].
  destruct (negb _); now split.
Qed.

(** A pull whose answer decrypts to what the local file holds. *)
Lemma performPull_same (w : World) (data : list EncryptedVariable) (remoteVars : jsobject) :
  remote w (pullCalls w) = PullResponse true (Some data) ->
  decryptVariables {| derivationKey := projectName |} data = Return remoteVars ->
  (forall k, In k (keys remoteVars) ->
             getOwn k (parseEnvFile (readFileSync w)) = getOwn k remoteVars) ->
  fst (performPull projectName w) = Return tt
  /\ unchangedFile w (snd (performPull projectName w)).
Proof.
  intros Hremote Hdec Hsame. unfold performPull, pullVariables, unchangedFile.
  rewrite Hremote. cbn [negb]. rewrite Hdec.
  change (readFileSync {| envFile := envFile w; writes := writes w;
                           remote := remote w; pullCalls := S (pullCalls w) |})
    with (readFileSync w).
  destruct (existsb (differsLocally (parseEnvFile (readFileSync w)) remoteVars)
              (keys remoteVars)) eqn:E.
  - apply pull_differs_iff in E. destruct E as [k [H1 H2]]. elim H2. now apply Hsame.
  - cbn. repeat split.
Qed.

(** X8: a one-time sync in both directions whose push is accepted and
    whose pull is answered with the records just pushed ends without an
    error and does not write the local file, whatever bytes it holds. *)
Theorem one_time_sync_echo (options : SyncOptions) (randomBytes : nat -> list byte)
    (pushVariables : list EncryptedVariable -> PushResult) (w : World)
    (message : jsstring) :
  let sent := encryptVariables {| derivationKey := projectName |} randomBytes
                (parseEnvFile (readFileSync w)) in
  let run := performOneTimeSync projectName options randomBytes pushVariables w in
  (forall message, List.length (sha256 message) = 32%nat) ->
  opensSealed ->
  (forall n, List.length (randomBytes n) = 16%nat) ->
  pushOnly options = false -> pullOnly options = false ->
  pushVariables sent = PushResponse true message ->
  remote w (pullCalls w) = PullResponse true (Some sent) ->
  result run = Return tt /\ unchangedFile w (after run) /\ pushed run = [sent].
Proof.
  intros sent run Hsha Hgcm Hiv Hpush Hpull Haccepted Hremote.
  destruct (decryptVariables_encryptVariables {| derivationKey := projectName |}
              randomBytes (parseEnvFile (readFileSync w)) Hsha Hgcm Hiv
              (NoDup_parseEnvFile (readFileSync w)))
    as [remoteVars [Hdec Hsame]].
  { intros k v H. destruct (parseEnvFile_entries w k v H) as [Hk [_ Hv]].
    split; [apply Hk|exact Hv]. }
  fold sent in Hdec.
  destruct (performPull_same w sent remoteVars Hremote Hdec) as [Hr Hu].
  { intros k _. symmetry. apply Hsame. }
  unfold run, performOneTimeSync. rewrite Hpush, Hpull. cbn [negb andb].
  unfold performPush. fold sent. rewrite Haccepted. cbn [negb].
  destruct (performPull projectName w) as [r w'] eqn:E. cbn [fst snd] in *.
  cbn [result after pushed]. split; [exact Hr|split; [exact Hu|reflexivity]].
Qed.

(** X9: the directions of a one-time sync.  With [pushOnly] it pushes
    once and neither pulls nor writes, also when [pullOnly] is set as
    well; with [pullOnly] alone it pushes nothing and pulls once; in
    both directions a push that fails leaves the remote store unasked
    and the file as it is.  No run pushes or pulls more than once or
    writes the file more than once. *)
Theorem one_time_sync_directions (options : SyncOptions) (randomBytes : nat -> list byte)
    (pushVariables : list EncryptedVariable -> PushResult) (w : World) :
  let run := performOneTimeSync projectName options randomBytes pushVariables w in
  (pushOnly options = true -> after run = w /\ List.length (pushed run) = 1%nat)
  /\ (pushOnly options = false -> pullOnly options = true ->
      pushed run = [] /\ pullCalls (after run) = S (pullCalls w))
  /\ (pushOnly options = false -> pullOnly options = false ->
      forall e, fst (performPush projectName randomBytes pushVariables w) = Throw e ->
      result run = Throw e /\ after run = w)
  /\ (List.length (pushed run) <= 1)%nat
  /\ (pullCalls (after run) <= S (pullCalls w))%nat
  /\ (writes (after run) <= S (writes w))%nat.
Proof.
  intros run.
  assert (Hpull : (pullCalls (snd (performPull projectName w)) <= S (pullCalls w))%nat
                  /\ (writes (snd (performPull projectName w)) <= S (writes w))%nat).
  { split.
    - destruct (performPull_pullCalls w) as [H _]. rewrite H. lia.
    - destruct (performPull_cases projectName w) as [[_ H]|[vars [_ H]]]; rewrite H; lia. }
  destruct Hpull as [Hp Hw]. unfold run, performOneTimeSync.
  destruct (pushOnly options) eqn:Epush; destruct (pullOnly options) eqn:Epull;
    cbn [negb andb].
  - destruct (performPush projectName randomBytes pushVariables w) as [r sent].
    cbn [result after pushed List.length].
    repeat split; try discriminate; lia.
  - destruct (performPush projectName randomBytes pushVariables w) as [r sent].
    cbn [result after pushed List.length].
    repeat split; try discriminate; lia.
  - destruct (performPull projectName w) as [r w'] eqn:E. cbn [snd] in *.
    cbn [result after pushed List.length].
    split; [discriminate|]. split.
    + intros _ _. split; [reflexivity|].
      pose proof (performPull_pullCalls w) as [H _]. now rewrite E in H.
    + split; [discriminate|]. repeat split; lia.
  - destruct (performPush projectName randomBytes pushVariables w) as [r sent].
    destruct r as [[]|e'].
    + destruct (performPull projectName w) as [r w'] eqn:E. cbn [fst snd] in *.
      cbn [result after pushed List.length].
      split; [discriminate|]. split; [discriminate|]. split.
      * intros _ _ e He. discriminate.
      * repeat split; lia.
    + cbn [fst result after pushed List.length].
      split; [discriminate|]. split; [discriminate|]. split.
      * intros _ _ e He. injection He as ->. now split.
      * repeat split; lia.
Qed.

Lemma read_eq_dec (a b : option jsstring) : a = b \/ a <> b.
Proof.
  destruct a as [x|], b as [y|]; try (right; discriminate); [|now left].
  destruct (jsstring_eqb x y) eqn:E.
  - apply jsstring_eqb_eq in E. left. now subst.
  - apply jsstring_eqb_neq in E. right. congruence.
Qed.

(** A pull that wrote clean variables has left a file that reads as
    them. *)
Lemma parseEnvFile_written (vars : jsobject) (w : World) :
  NoDup (keys vars) ->
  (forall k v, In (k, v) vars -> cleanKey k /\ cleanValue v) ->
  forall k, getOwn k (parseEnvFile (readFileSync (writeFileSync (envContent vars) w)))
            = getOwn k vars.
Proof.
  intros Hnd Hclean k0. unfold writeFileSync, readFileSync. cbn [envFile option_map].
  rewrite utf8Decode_utf8Encode.
  - cbn [parseEnvFile]. rewrite (parseEnvText_envContent vars Hclean).
    rewrite (getOwn_fold_assign vars k0 Hnd).
    + now destruct (getOwn k0 vars).
    + intros k Hk. unfold keys in Hk. apply in_map_iff in Hk.
      destruct Hk as [[k' v] [<- Hin]]. apply (Hclean k' v Hin).
  - apply wellFormed_envContent. intros k v Hin.
    destruct (Hclean k v Hin) as [Hk Hv]. split; [apply Hk|apply Hv].
Qed.

(** X10: pulling twice.  When the remote store gives the same answer
    to two pulls in a row and its variables are of the kind the file
    format gives back, the second pull does not write the file, whatever
    the first one did. *)
Theorem second_pull_does_not_write (w : World) (data : list EncryptedVariable)
    (remoteVars : jsobject) :
  let w1 := snd (performPull projectName w) in
  let w2 := snd (performPull projectName w1) in
  remote w (pullCalls w) = PullResponse true (Some data) ->
  remote w (S (pullCalls w)) = PullResponse true (Some data) ->
  decryptVariables {| derivationKey := projectName |} data = Return remoteVars ->
  (forall k v, In (k, v) remoteVars -> cleanKey k /\ cleanValue v) ->
  unchangedFile w1 w2.
Proof.
  intros w1 w2 Hfirst Hsecond Hdec Hclean.
  destruct (performPull_pullCalls w) as [Hcalls Hrem]. fold w1 in Hcalls, Hrem.
  apply (performPull_same w1 data remoteVars); [now rewrite Hrem, Hcalls|exact Hdec|].
  assert (Hnd : NoDup (keys remoteVars)) by exact (decryptVariables_NoDup _ _ _ Hdec).
  unfold w1, performPull, pullVariables. rewrite Hfirst. cbn [negb]. rewrite Hdec.
  change (readFileSync {| envFile := envFile w; writes := writes w;
                           remote := remote w; pullCalls := S (pullCalls w) |})
    with (readFileSync w).
  destruct (existsb (differsLocally (parseEnvFile (readFileSync w)) remoteVars)
              (keys remoteVars)) eqn:E; cbn [negb snd].
  - intros k _. now apply parseEnvFile_written.
  - intros k Hk.
    change (readFileSync {| envFile := envFile w; writes := writes w;
                             remote := remote w; pullCalls := S (pullCalls w) |})
      with (readFileSync w).
    destruct (read_eq_dec (getOwn k (parseEnvFile (readFileSync w)))
                (getOwn k remoteVars)) as [Heq|Hne]; [exact Heq|].
    assert (Hex : existsb (differsLocally (parseEnvFile (readFileSync w)) remoteVars)
                    (keys remoteVars) = true).
    { apply pull_differs_iff. now exists k. }
    congruence.
Qed.

End SyncProperties.

(** ** core/encryption: what decrypting returns *)

Section DecryptProperties.

Context {crypto : Crypto}.

Lemma decryptValue_wellFormed (em : EncryptionManager) (c i t v : jsstring) :
  decryptValue em c i t = Return v -> wellFormed v = true.
Proof.
  unfold decryptValue. destruct (Nat.odd (List.length c)); [discriminate|].
  destruct (aes256gcmDecrypt _ _ _ _) as [plainText|]; [|discriminate].
  intros H. injection H as <-. apply wellFormed_utf8Decode.
Qed.

Lemma decryptVariablesFrom_entries (em : EncryptionManager)
    (encrypted : list EncryptedVariable) (vars result : jsobject) :
  decryptVariablesFrom em vars encrypted = Return result ->
  forall k v, In (k, v) result ->
    In (k, v) vars
    \/ ((k <> js "__proto__" \/ In k (keys vars))
        /\ exists item, In item encrypted /\ key item = k
             /\ decryptValue em (encryptedValue item) (iv item) (authTag item) = Return v).
Proof.
  revert vars. induction encrypted as [|item rest IH]; intros vars H k v Hin.
  - injection H as <-. now left.
  - cbn [decryptVariablesFrom] in H.
    destruct (decryptValue em (encryptedValue item) (iv item) (authTag item))
      as [v0|e] eqn:E; [|discriminate].
    destruct (IH _ H k v Hin) as [Hset|[Hp [item' [H1 [H2 H3]]]]].
    + apply In_setProperty in Hset. destruct Hset as [Hold|[He Hp]]; [now left|right].
      injection He as -> ->. split; [exact Hp|].
      exists item. split; [now left|now split].
    + right. split.
      * destruct Hp as [Hp|Hp]; [now left|].
        unfold keys in Hp. apply in_map_iff in Hp. destruct Hp as [[k' v'] [Hk Hp]].
        cbn [fst] in Hk. subst k'. apply In_setProperty in Hp.
        destruct Hp as [Hp|[He Hp]].
        -- right. unfold keys. apply in_map_iff. now exists (k, v').
        -- injection He as -> ->. exact Hp.
      * exists item'. split; [now right|now split].
Qed.

(** X11: what [decryptVariables] returns.  Its keys are distinct and
    none of them is [__proto__] (a record of that name is dropped by the
    assignment); every value is the plain text of a record of that key,
    and it is a well-formed string, which encoding as UTF-8 and decoding
    gives back. *)
Theorem decryptVariables_result (em : EncryptionManager)
    (encrypted : list EncryptedVariable) (result : jsobject) :
  decryptVariables em encrypted = Return result ->
  NoDup (keys result)
  /\ forall k v, In (k, v) result ->
       k <> js "__proto__"
       /\ wellFormed v = true
       /\ utf8Decode (utf8Encode v) = v
       /\ exists item, In item encrypted /\ key item = k
            /\ decryptValue em (encryptedValue item) (iv item) (authTag item) = Return v.
Proof.
  intros H. split; [exact (decryptVariables_NoDup em encrypted result H)|].
  intros k v Hin.
  destruct (decryptVariablesFrom_entries em encrypted [] result H k v Hin)
    as [[]|[Hp [item [H1 [H2 H3]]]]].
  assert (Hwf : wellFormed v = true) by exact (decryptValue_wellFormed em _ _ _ v H3).
  split; [destruct Hp as [Hp|[]]; exact Hp|].
  split; [exact Hwf|]. split; [now apply utf8Decode_utf8Encode|].
  exists item. now repeat split.
Qed.

End DecryptProperties.

(** ** core/file-watcher: the three lists *)

(** The keys of the entries a test keeps are distinct when the keys of
    the object are. *)
Lemma NoDup_keys_filter (test : jsstring * jsstring -> bool) (o : jsobject) :
  NoDup (keys o) -> NoDup (keys (filter test o)).
Proof.
  unfold keys. induction o as [|kv r IH]; intros Hnd; [exact Hnd|].
  cbn [map filter] in *. apply NoDup_cons_iff in Hnd. destruct Hnd as [Hni Hnd].
  destruct (test kv); [|now apply IH].
  cbn [map]. apply NoDup_cons_iff. split; [|now apply IH].
  intros Hin. apply Hni. apply in_map_iff in Hin. destruct Hin as [x [Hx Hin]].
  apply in_map_iff. exists x. split; [exact Hx|]. now apply filter_In in Hin.
Qed.

Lemma map_filter_fst (p : jsstring -> bool) (l : jsobject) :
  map fst (filter (fun kv => p (fst kv)) l) = filter p (map fst l).
Proof.
  induction l as [|a r IH]; [reflexivity|]. cbn [map filter].
  destruct (p (fst a)); cbn [map]; now rewrite IH.
Qed.

Lemma diffVars_lists (oldVars newVars : jsobject) :
  NoDup (keys oldVars) -> NoDup (keys newVars) ->
  let v := diffVars oldVars newVars in
  NoDup (added v) /\ NoDup (modified v) /\ NoDup (removed v)
  /\ (forall k, In k (added v) -> ~ In k (modified v) /\ ~ In k (removed v))
  /\ (forall k, In k (modified v) -> ~ In k (removed v))
  /\ (forall k, In k (added v) \/ In k (modified v) -> In k (keys newVars))
  /\ (forall k, In k (removed v) -> In k (keys oldVars)).
Proof.
  intros Hold Hnew v.
  assert (Hv : v = diffVars oldVars newVars) by reflexivity.
  rewrite diffVars_filters in Hv.
  split; [|split; [|split; [|split; [|split; [|split]]]]].
  - rewrite Hv. cbn [added]. now apply NoDup_keys_filter.
  - rewrite Hv. cbn [modified]. now apply NoDup_keys_filter.
  - rewrite Hv. cbn [removed]. now apply NoDup_filter.
  - intros k Ha. unfold v in *. apply added_iff in Ha. destruct Ha as [Ha1 Ha2]. split.
    + rewrite (modified_iff oldVars newVars k Hnew). intros [x [_ [H _]]]. congruence.
    + rewrite removed_iff. intros [H _]. unfold hasProperty in Ha2.
      rewrite H in Ha2. discriminate.
  - intros k Hm. unfold v in *. apply (modified_iff oldVars newVars k Hnew) in Hm.
    destruct Hm as [x [Hx _]]. rewrite removed_iff. intros [_ H].
    unfold hasProperty, hasOwn in H. rewrite Hx in H. discriminate.
  - intros k [Ha|Hm]; unfold v in *.
    + apply added_iff in Ha. now apply hasOwn_In.
    + apply (modified_iff oldVars newVars k Hnew) in Hm. destruct Hm as [x [Hx _]].
      apply hasOwn_In. unfold hasOwn. now rewrite Hx.
  - intros k Hr. unfold v in *. apply removed_iff in Hr. now apply hasOwn_In.
Qed.

(** X12: the three lists of [calculateChanges] have no key twice and no
    key in common; the added and modified keys are variables of the new
    content and the removed ones variables of the old. *)
Theorem calculateChanges_lists (oldContent newContent : jsstring) (now : N) :
  let v := variables (calculateChanges oldContent newContent now) in
  NoDup (added v) /\ NoDup (modified v) /\ NoDup (removed v)
  /\ (forall k, In k (added v) -> ~ In k (modified v) /\ ~ In k (removed v))
  /\ (forall k, In k (modified v) -> ~ In k (removed v))
  /\ (forall k, In k (added v) \/ In k (modified v) ->
                In k (keys (parseEnvContent newContent)))
  /\ (forall k, In k (removed v) -> In k (keys (parseEnvContent oldContent))).
Proof.
  exact (diffVars_lists (parseEnvContent oldContent) (parseEnvContent newContent)
           (NoDup_parseEnvContent oldContent) (NoDup_parseEnvContent newContent)).
Qed.

(** X13: the keys [calculateChanges] reports as added from one content
    to another are, in the same order, the keys it reports as removed in
    the other direction. *)
Theorem calculateChanges_added_is_removed_backwards
    (oldContent newContent : jsstring) (now now' : N) :
  added (variables (calculateChanges oldContent newContent now))
  = removed (variables (calculateChanges newContent oldContent now')).
Proof.
  unfold calculateChanges. cbn [variables]. rewrite !diffVars_filters. cbn [added removed].
  unfold keys. rewrite <- map_filter_fst. reflexivity.
Qed.

(** X14: the type of an event.  [calculateChanges] never types a change
    ['removed']; it types it ['modified'] exactly when a key was added or
    removed, so a change typed ['added'] has no added key: when it is
    emitted, values were modified and nothing else. *)
Theorem calculateChanges_type (oldContent newContent : jsstring) (now : N) :
  let changes := calculateChanges oldContent newContent now in
  type changes <> TRemoved
  /\ (type changes = TModified
      <-> added (variables changes) <> [] \/ removed (variables changes) <> [])
  /\ (type changes = TAdded ->
      added (variables changes) = [] /\ removed (variables changes) = []
      /\ (hasChanged changes = true -> modified (variables changes) <> [])).
Proof.
  intros changes. unfold changes, calculateChanges, hasChanged. cbn [type variables].
  destruct (added (diffVars _ _)) as [|a la]; destruct (removed (diffVars _ _)) as [|r lr];
    cbn [isEmpty negb orb].
  - split; [discriminate|]. split.
    + split; [discriminate|]. intros [H|H]; now elim H.
    + intros _. split; [reflexivity|]. split; [reflexivity|].
      destruct (modified (diffVars _ _)); [discriminate|discriminate].
  - split; [discriminate|]. split; [|discriminate].
    split; [intros _; right; discriminate|reflexivity].
  - split; [discriminate|]. split; [|discriminate].
    split; [intros _; left; discriminate|reflexivity].
  - split; [discriminate|]. split; [|discriminate].
    split; [intros _; left; discriminate|reflexivity].
Qed.

(** ** Line by line *)

Lemma split_app (sep : char16) (a b : jsstring) :
  split sep (a ++ sep :: b) = split sep a ++ split sep b.
Proof.
  induction a as [|c r IH]; cbn [app split].
  - now rewrite N.eqb_refl.
  - rewrite IH. destruct (c =? sep); [reflexivity|].
    pose proof (split_nonempty sep r) as Hne.
    destruct (split sep r) as [|p ps]; [congruence|reflexivity].
Qed.

Lemma parseEnvContentLine_skipped (vars : jsobject) (line : jsstring) :
  trim line = [] \/ startsWith HASH (trim line) = true ->
  parseEnvContentLine vars line = vars.
Proof.
  unfold parseEnvContentLine. intros [H|H]; rewrite H; [reflexivity|].
  now rewrite andb_false_r.
Qed.

Lemma fold_skipped (step : jsobject -> jsstring -> jsobject) (lines : list jsstring)
    (vars : jsobject) :
  (forall line, In line lines -> step vars line = vars) ->
  fold_left step lines vars = vars.
Proof.
  induction lines as [|l r IH]; [reflexivity|]. intros H. cbn [fold_left].
  rewrite (H l (or_introl eq_refl)). apply IH. intros line Hin. apply H. now right.
Qed.

Lemma hasChanged_same_variables (oldContent newContent : jsstring) (now : N) :
  parseEnvContent newContent = parseEnvContent oldContent ->
  hasChanged (calculateChanges oldContent newContent now) = false.
Proof.
  intros H. pose proof (calculateChanges_self oldContent now) as Hs.
  unfold calculateChanges, hasChanged in *. cbn [variables] in *.
  rewrite H. exact Hs.
Qed.

(** X15: comment lines and blank lines appended to the file are not a
    change: when the file holds the Baseline followed by lines that are
    blank or begin with [#], processing it emits nothing and leaves the
    watcher as it is. *)
Theorem appended_comments_are_not_reported
    (w : World) (now : N) (f : FileWatcher) (extra : jsstring) :
  readFileSync w = Some (lastContent f ++ LF :: extra) ->
  (forall line, In line (split LF extra) ->
     trim line = [] \/ startsWith HASH (trim line) = true) ->
  processFileChange w now f = (f, []).
Proof.
  intros Hread Hlines. rewrite (processFileChange_read w now f _ Hread).
  rewrite hasChanged_same_variables; [reflexivity|].
  unfold parseEnvContent. rewrite split_app, fold_left_app.
  apply fold_skipped. intros line Hin. apply parseEnvContentLine_skipped.
  now apply Hlines.
Qed.

Lemma hasOwn_setProperty (k v k0 : jsstring) (o : jsobject) :
  hasOwn k0 (setProperty k v o)
  = (jsstring_eqb k0 k && (hasOwn k o || negb (jsstring_eqb k (js "__proto__"))))
    || hasOwn k0 o.
Proof.
  unfold hasOwn at 1 3. rewrite getOwn_setProperty.
  destruct (jsstring_eqb k0 k && (hasOwn k o || negb (jsstring_eqb k (js "__proto__"))));
    reflexivity.
Qed.

(** X16: the last line wins.  A line [key=value] of the kind the file
    format gives back, appended to any content, sets that key to that
    value for [parseEnvFile], also when the content had the key already,
    and leaves every other key as it was. *)
Theorem appended_line_sets_its_key (content k v : jsstring) :
  cleanKey k -> cleanValue v ->
  let before := parseEnvFile (Some content) in
  let after := parseEnvFile (Some (content ++ LF :: envLine (k, v))) in
  after = setProperty k v before
  /\ getOwn k after = Some v
  /\ forall k', k' <> k -> getOwn k' after = getOwn k' before.
Proof.
  intros Hk Hv before after.
  assert (Hafter : after = setProperty k v before).
  { unfold after, before, parseEnvFile, parseEnvText.
    rewrite split_app, fold_left_app.
    rewrite (split_no_sep LF (envLine (k, v))).
    - cbn [fold_left]. now apply parseEnvFileLine_clean.
    - destruct Hk as [_ [_ [Hlf _]]]. destruct Hv as [_ [Hlf' _]].
      unfold envLine. cbn [fst snd]. intros H.
      apply in_app_or in H. destruct H as [H|[H|H]]; [tauto|discriminate|tauto]. }
  split; [exact Hafter|]. rewrite Hafter. split.
  - rewrite getOwn_setProperty, jsstring_eqb_refl.
    destruct Hk as [_ [_ [_ [_ [_ [Hp _]]]]]]. apply jsstring_eqb_neq in Hp.
    rewrite Hp. cbn [negb]. now rewrite orb_true_r.
  - intros k' Hne. rewrite getOwn_setProperty.
    apply jsstring_eqb_neq in Hne. now rewrite Hne.
Qed.

(** One line, read by the two parsers. *)
Lemma parsers_line (fileVars contentVars : jsobject) (line : jsstring) :
  (forall k, hasOwn k fileVars = true -> hasOwn k contentVars = true) ->
  forall k, hasOwn k (parseEnvFileLine fileVars line) = true ->
            hasOwn k (parseEnvContentLine contentVars line) = true.
Proof.
  intros H k. unfold parseEnvFileLine, parseEnvContentLine.
  destruct (trim line) as [|c r]; [apply H|].
  destruct (startsWith HASH (c :: r)); cbn [negb andb orb]; [apply H|].
  destruct (split EQUALS (c :: r)) as [|key valueParts]; [apply H|].
  destruct key as [|k0 key']; cbn [negb andb]; [apply H|].
  destruct valueParts as [|p ps]; cbn [negb andb].
  - intros Hk. rewrite hasOwn_setProperty, (H k Hk). apply orb_true_r.
  - rewrite !hasOwn_setProperty. intros Hk. apply orb_true_iff in Hk.
    destruct Hk as [Hk|Hk]; [|rewrite (H k Hk); apply orb_true_r].
    apply andb_true_iff in Hk. destruct Hk as [Hk1 Hk2]. rewrite Hk1. cbn [andb].
    apply orb_true_iff in Hk2. destruct Hk2 as [Hk2|Hk2].
    + now rewrite (H _ Hk2).
    + rewrite Hk2. now rewrite orb_true_r.
Qed.

Lemma parsers_lines (lines : list jsstring) (fileVars contentVars : jsobject) :
  (forall k, hasOwn k fileVars = true -> hasOwn k contentVars = true) ->
  forall k, hasOwn k (fold_left parseEnvFileLine lines fileVars) = true ->
            hasOwn k (fold_left parseEnvContentLine lines contentVars) = true.
Proof.
  revert fileVars contentVars. induction lines as [|l r IH]; intros fv cv H; [exact H|].
  cbn [fold_left]. apply IH. now apply parsers_line.
Qed.

(** X17: the two parsers.  Every variable [parseEnvFile] of
    utils/env-parser reads from a content, the watcher's
    [parseEnvContent] reads too: what a push sends is among what the
    watcher compares. *)
Theorem watcher_sees_what_is_pushed (content k : jsstring) :
  In k (keys (parseEnvFile (Some content))) -> In k (keys (parseEnvContent content)).
Proof.
  rewrite <- !hasOwn_In. unfold parseEnvFile, parseEnvText, parseEnvContent.
  apply parsers_lines. intros k0 H. discriminate.
Qed.

(** ** core/file-watcher: stopping and starting again *)

Lemma edit_off (now : N) (content : list byte) (d : Detector) :
  watcher (fw d) = false -> debounceTimer (fw d) = None ->
  fw (edit now content d) = fw d /\ emitted (edit now content d) = emitted d.
Proof.
  intros Hw Ht. unfold edit.
  rewrite (elapse_idle now d) by now rewrite Ht.
  unfold notify. cbn [fw]. rewrite Hw. now split.
Qed.

Lemma edits_off (burst : list (N * list byte)) (d : Detector) :
  watcher (fw d) = false -> debounceTimer (fw d) = None ->
  fw (edits burst d) = fw d /\ emitted (edits burst d) = emitted d.
Proof.
  revert d. unfold edits. induction burst as [|e r IH]; intros d Hw Ht; [now split|].
  cbn [fold_left]. destruct (edit_off (fst e) (snd e) d Hw Ht) as [Hf He].
  destruct (IH (edit (fst e) (snd e) d)) as [IH1 IH2]; [now rewrite Hf|now rewrite Hf|].
  split; congruence.
Qed.

Lemma stop_off (f : FileWatcher) :
  watcher (fst (stop f)) = false /\ debounceTimer (fst (stop f)) = None
  /\ lastContent (fst (stop f)) = lastContent f
  /\ snd (stop f) = if watcher f then [Stopped] else [].
Proof.
  unfold stop. destruct (watcher f) eqn:Ew; destruct (debounceTimer f) eqn:Et;
    cbn [debounceTimer watcher lastContent fst snd]; rewrite ?Et, ?Ew;
    cbn [debounceTimer watcher lastContent fst snd]; repeat split; assumption.
Qed.

(** X18: [stop()] discards a change that waits for the debounce timer.
    After it, whatever edits follow and however much time passes, the
    watcher emits nothing more (the edit made just before the stop is
    never reported), and a second [stop()] does nothing. *)
Theorem stop_discards_pending_change
    (d : Detector) (burst : list (N * list byte)) (later : N) :
  let stopped := stopDetector d in
  emitted stopped = emitted d ++ (if watcher (fw d) then [Stopped] else [])
  /\ emitted (elapse later (edits burst stopped)) = emitted stopped
  /\ lastContent (fw (elapse later (edits burst stopped))) = lastContent (fw d)
  /\ stopDetector stopped = stopped.
Proof.
  intros stopped. destruct (stop_off (fw d)) as [Hw [Ht [Hl Hout]]].
  assert (Hfw : fw stopped = fst (stop (fw d))) by reflexivity.
  destruct (edits_off burst stopped) as [Hf He]; [now rewrite Hfw|now rewrite Hfw|].
  assert (Hidle : elapse later (edits burst stopped) = edits burst stopped).
  { apply elapse_idle. now rewrite Hf, Hfw, Ht. }
  split; [unfold stopped, stopDetector; cbn [emitted]; now rewrite Hout|].
  split; [now rewrite Hidle|]. split; [now rewrite Hidle, Hf, Hfw|].
  destruct (stop_off (fw stopped)) as [_ [_ [_ Hout']]].
  rewrite Hfw, Hw in Hout'.
  assert (Hstop : stop (fst (stop (fw d))) = (fst (stop (fw d)), [])).
  { unfold stop at 1. rewrite Hw, Ht. reflexivity. }
  unfold stopDetector at 1. rewrite Hfw, Hstop. cbn [fst snd].
  rewrite app_nil_r. reflexivity.
Qed.

(** X19: [watch()] on a watcher that is watching stops it first: it
    emits ['stopped'] then ['started'], takes the content of the file as
    its Baseline and clears the debounce timer, so a change that waited
    for the timer is never reported; processing the file right after
    emits no change. *)
Theorem watch_again_discards_pending_change (d : Detector) (later now : N) :
  watcher (fw d) = true ->
  let again := watchDetector d in
  emitted again = emitted d ++ [Stopped; Started]
  /\ watcher (fw again) = true
  /\ debounceTimer (fw again) = None
  /\ lastContent (fw again) = match readFileSync (world d) with
                              | Some content => content
                              | None => []
                              end
  /\ elapse later again = again
  /\ envChanges (snd (processFileChange (world again) now (fw again))) = [].
Proof.
  intros Hw again. destruct (stop_off (fw d)) as [_ [Ht [_ Hout]]]. rewrite Hw in Hout.
  assert (Hwatch : watch (world d) (fw d)
                   = ({| watcher := true; debounceTimer := None;
                         lastContent := match readFileSync (world d) with
                                        | Some content => content
                                        | None => []
                                        end |}, [Stopped; Started])).
  { unfold watch. rewrite Hw. destruct (stop (fw d)) as [f1 out] eqn:E.
    cbn [fst snd] in Ht, Hout. now rewrite Ht, Hout. }
  unfold again, watchDetector. rewrite Hwatch. cbn [fst snd fw emitted world].
  split; [reflexivity|]. split; [reflexivity|]. split; [reflexivity|].
  split; [reflexivity|]. split; [now apply elapse_idle|].
  unfold processFileChange. destruct (readFileSync (world d)) as [content|]; [|reflexivity].
  cbn [lastContent]. now rewrite calculateChanges_self.
Qed.

(** X20: [updateGitignore] looks for an entry anywhere in the text, not
    for a line that is the entry: when the entry occurs in the file,
    even inside a longer line, it is not added and the file is not
    written. *)
Theorem updateGitignore_entry_inside_a_line (before entry rest : jsstring) :
  wellFormed (before ++ entry ++ rest) = true ->
  updateGitignore (Some (utf8Encode (before ++ entry ++ rest))) [entry]
  = Some (utf8Encode (before ++ entry ++ rest)).
Proof.
  intros Hwf. apply updateGitignore_present. intros e [<-|[]].
  cbn [textOf]. rewrite (utf8Decode_utf8Encode _ Hwf).
  apply includes_iff. now exists before, rest.
Qed.

(** ** commands/sync: one poll *)

Section PollProperties.

Context {crypto : Crypto}.
Variable projectName : jsstring.

(** X21: one poll asks the remote store once or twice and writes the
    file only after asking twice; what it writes comes from the second
    answer, so when the second answer fails, is unsuccessful or carries
    no data the file is left as it is, whatever the first answer
    showed. *)
Theorem checkRemoteChanges_pulls (w : World) :
  let w' := checkRemoteChanges projectName w in
  (pullCalls w' = S (pullCalls w) \/ pullCalls w' = S (S (pullCalls w)))
  /\ (writes w' <> writes w -> pullCalls w' = S (S (pullCalls w)))
  /\ remote w' = remote w
  /\ match remote w (S (pullCalls w)) with
     | PullResponse true (Some _) => True
     | _ => unchangedFile w w'
     end.
Proof.
  intros w'. set (w1 := snd (pullVariables w)).
  assert (Hsame : unchangedFile w w1) by (split; reflexivity).
  assert (Hcases : w' = w1 \/ w' = snd (performPull projectName w1)).
  { unfold w', checkRemoteChanges, w1, pullVariables. cbn [snd].
    destruct (remote w (pullCalls w)) as [e|success data]; [now left|].
    destruct (if negb success then None else data) as [data'|]; [|now left].
    destruct (decryptVariables {| derivationKey := projectName |} data')
      as [remoteVars|e]; [|now left].
    destruct (existsb _ _); [now right|now left]. }
  assert (Hfail : match remote w (S (pullCalls w)) with
                  | PullResponse true (Some _) => True
                  | _ => unchangedFile w1 (snd (performPull projectName w1))
                  end).
  { pose proof (performPull_outcome projectName w1) as Hp. cbv zeta in Hp.
    change (remote w1 (pullCalls w1)) with (remote w (S (pullCalls w))) in Hp.
    destruct (remote w (S (pullCalls w))) as [e|success data]; [exact Hp|].
    destruct success; [|exact Hp]. destruct data; [exact I|exact Hp]. }
  destruct (performPull_pullCalls projectName w1) as [Hcalls Hrem].
  destruct Hcases as [-> | ->].
  - split; [now left|]. split; [intros H; now elim H|]. split; [reflexivity|].
    destruct (remote w (S (pullCalls w))) as [e|success data]; [exact Hsame|].
    destruct success; [|exact Hsame]. destruct data; [exact I|exact Hsame].
  - split; [right; exact Hcalls|]. split; [intros _; exact Hcalls|].
    split; [exact Hrem|].
    destruct (remote w (S (pullCalls w))) as [e|success data]; [exact Hfail|].
    destruct success; [|exact Hfail]. destruct data; [exact I|exact Hfail].
Qed.

End PollProperties.

(** ** core/file-watcher: the debounce timer fires *)

(** The timer of a watched file fires: the file is processed once and
    the timer has fired. *)
Lemma elapse_fires (later t : N) (d : Detector) (content baseline : jsstring) :
  fw d = {| watcher := true;
            debounceTimer := Some {| fireAt := t; pending := true |};
            lastContent := baseline |} ->
  readFileSync (world d) = Some content ->
  t <= later ->
  let changes := calculateChanges baseline content t in
  let d' := elapse later d in
  world d' = world d
  /\ watcher (fw d') = true
  /\ idle d'
  /\ lastContent (fw d') = (if hasChanged changes then content else baseline)
  /\ emitted d' = emitted d ++ (if hasChanged changes then [EnvChanged changes] else []).
Proof.
  intros Hfw Hread Hlater changes d'. unfold d'.
  rewrite (elapse_due later t d) by (try assumption; now rewrite Hfw).
  cbv zeta. rewrite (processFileChange_read _ _ _ content Hread).
  rewrite Hfw. cbn [watcher lastContent debounceTimer]. fold changes.
  destruct (hasChanged changes); cbn [fst snd world fw emitted watcher lastContent];
    unfold idle; cbn [fw debounceTimer pending]; repeat split.
Qed.

(** ** core/encryption: the records of a batch *)

Section RecordProperties.

Context {crypto : Crypto} {unicode : Unicode}.

Lemma encryptValue_iv (em : EncryptionManager) (randomBytes : list byte) (value : jsstring) :
  snd (fst (encryptValue em randomBytes value)) = hexEncode randomBytes.
Proof.
  unfold encryptValue. now destruct (aes256gcmEncrypt _ _ _).
Qed.

Lemma encryptVariablesFrom_records (em : EncryptionManager)
    (randomBytes : nat -> list byte) (vars : list (jsstring * jsstring)) :
  forall m,
    map key (encryptVariablesFrom em randomBytes m vars) = map fst vars
    /\ forall n k v, nth_error vars n = Some (k, v) ->
         exists r, nth_error (encryptVariablesFrom em randomBytes m vars) n = Some r
           /\ key r = k
           /\ isSecret r = looksLikeSecret k v
           /\ (encryptedValue r, iv r, authTag r)
              = encryptValue em (randomBytes (m + n)%nat) v.
Proof.
  induction vars as [|[k0 v0] rest IH]; intros m.
  - split; [reflexivity|]. intros n k v H. destruct n; discriminate.
  - destruct (IH (S m)) as [IH1 IH2]. cbn [encryptVariablesFrom map fst].
    destruct (encryptValue em (randomBytes m) v0) as [[c i] t] eqn:E.
    cbn [map key]. split; [now rewrite IH1|].
    intros n k v H. destruct n as [|n].
    + injection H as <- <-. eexists. cbn [nth_error]. split; [reflexivity|].
      cbn [key isSecret encryptedValue iv authTag]. rewrite Nat.add_0_r.
      now repeat split.
    + cbn [nth_error] in *. destruct (IH2 n k v H) as [r [H1 H2]].
      exists r. split; [exact H1|]. now rewrite Nat.add_succ_r.
Qed.

(** X23: the records [encryptVariables] returns are one for each
    variable, in the order of the variables and under their keys; the
    [n]-th one is sealed with the bytes of the [n]-th call of
    [crypto.randomBytes] (no IV is shared unless the random bytes
    repeat), which its [iv] field gives back when decoded. *)
Theorem encryptVariables_records (em : EncryptionManager)
    (randomBytes : nat -> list byte) (vars : jsobject) :
  map key (encryptVariables em randomBytes vars) = keys vars
  /\ forall n k v, nth_error (entries vars) n = Some (k, v) ->
       exists r, nth_error (encryptVariables em randomBytes vars) n = Some r
         /\ key r = k
         /\ isSecret r = looksLikeSecret k v
         /\ (encryptedValue r, iv r, authTag r) = encryptValue em (randomBytes n) v
         /\ hexDecode (iv r) = randomBytes n.
Proof.
  destruct (encryptVariablesFrom_records em randomBytes (entries vars) 0) as [H1 H2].
  split; [exact H1|]. intros n k v H. destruct (H2 n k v H) as [r [R1 [R2 [R3 R4]]]].
  exists r. cbn [Nat.add] in R4. repeat (split; [assumption|]).
  pose proof (encryptValue_iv em (randomBytes n) v) as Hiv. rewrite <- R4 in Hiv.
  cbn [fst snd] in Hiv. rewrite Hiv. apply hexDecode_hexEncode.
Qed.

End RecordProperties.

(** ** commands/diff beside commands/sync *)


Section DiffProperties.

Context {crypto : Crypto}.
Variable projectName : jsstring.


End DiffProperties.

(* ================================================================= *)
(** * The poller beside the watcher, the pull, and decryption *)

(** ** core/file-watcher: a write and its report *)

(** When time has passed to [now] no timer is due at [now]. *)
Lemma elapse_settled (now : N) (d : Detector) :
  match debounceTimer (fw (elapse now d)) with
  | Some t => pending t && (fireAt t <=? now) = false
  | None => True
  end.
Proof.
  unfold elapse. destruct (debounceTimer (fw d)) as [t|] eqn:Et; [|now rewrite Et].
  destruct (pending t && (fireAt t <=? now)) eqn:E; [|now rewrite Et].
  unfold processFileChange. destruct (readFileSync (world d)) as [content|];
    [destruct (hasChanged _)|]; reflexivity.
Qed.

Lemma elapse_not_due (now : N) (d : Detector) :
  match debounceTimer (fw d) with
  | Some t => pending t && (fireAt t <=? now) = false
  | None => True
  end ->
  elapse now d = d.
Proof.
  unfold elapse. destruct (debounceTimer (fw d)) as [t|]; [|reflexivity].
  now intros ->.
Qed.

(** [edit] is a write and its report at one instant. *)
Lemma edit_is_overwrite_then_change (now : N) (content : list byte) (d : Detector) :
  edit now content d = change now (overwrite now content d).
Proof.
  unfold edit, change, overwrite. f_equal. symmetry.
  apply elapse_not_due. cbn [fw]. apply elapse_settled.
Qed.

(** A report to a watcher whose timers have fired: the timer it sets
    fires after the debounce delay and the file is processed once. *)
Lemma notify_settles (a : Detector) (written : jsstring) (reported later : N) :
  watcher (fw a) = true ->
  readFileSync (world a) = Some written ->
  reported + debounceDelay <= later ->
  let changes :=
    calculateChanges (lastContent (fw a)) written (reported + debounceDelay) in
  let settled := elapse later (notify reported a) in
  world settled = world a
  /\ emitted settled = emitted a ++ (if hasChanged changes then [EnvChanged changes] else [])
  /\ lastContent (fw settled) = (if hasChanged changes then written else lastContent (fw a)).
Proof.
  intros Hw Hread Hlater changes settled.
  assert (Hfw : fw (notify reported a)
                = {| watcher := true;
                     debounceTimer := Some {| fireAt := reported + debounceDelay;
                                              pending := true |};
                     lastContent := lastContent (fw a) |}).
  { unfold notify. rewrite Hw. cbn [fw]. unfold handleFileChange. now rewrite Hw. }
  assert (Hworld : world (notify reported a) = world a).
  { unfold notify. now rewrite Hw. }
  assert (Hem : emitted (notify reported a) = emitted a).
  { unfold notify. now rewrite Hw. }
  destruct (elapse_fires later (reported + debounceDelay) (notify reported a) written
              (lastContent (fw a)) Hfw ltac:(now rewrite Hworld) Hlater)
    as [H1 [_ [_ [H2 H3]]]].
  fold settled in H1, H2, H3. fold changes in H2, H3.
  split; [congruence|]. split; [now rewrite H3, Hem|exact H2].
Qed.

(** A write that is in the file when its report comes is processed
    once: by the timer that was waiting when that one is due before the
    report, by the timer of the report otherwise. *)
Lemma change_settles (a : Detector) (written : jsstring) (reported later : N) :
  watcher (fw a) = true ->
  readFileSync (world a) = Some written ->
  reported + debounceDelay <= later ->
  exists stamp,
    let changes := calculateChanges (lastContent (fw a)) written stamp in
    let settled := elapse later (change reported a) in
    world settled = world a
    /\ emitted settled
       = emitted a ++ (if hasChanged changes then [EnvChanged changes] else [])
    /\ lastContent (fw settled)
       = (if hasChanged changes then written else lastContent (fw a)).
Proof.
  intros Hw Hread Hlater. unfold change.
  destruct (debounceTimer (fw a)) as [[t [|]]|] eqn:Et.
  - destruct (t <=? reported) eqn:Edue.
    + (* the waiting timer fires first *)
      apply N.leb_le in Edue.
      assert (Hfw : fw a = {| watcher := true;
                              debounceTimer := Some {| fireAt := t; pending := true |};
                              lastContent := lastContent (fw a) |}).
      { destruct (fw a) as [wt tm lc]. cbn in *. now subst. }
      destruct (elapse_fires reported t a written (lastContent (fw a)) Hfw Hread Edue)
        as [H1 [H2 [_ [H3 H4]]]].
      set (a1 := elapse reported a) in *.
      set (first := calculateChanges (lastContent (fw a)) written t) in *.
      destruct (notify_settles a1 written reported later H2 ltac:(now rewrite H1) Hlater)
        as [N1 [N2 N3]].
      assert (Hno : hasChanged (calculateChanges (lastContent (fw a1)) written
                                  (reported + debounceDelay)) = false).
      { rewrite H3. destruct (hasChanged first) eqn:Ef.
        - apply calculateChanges_self.
        - now rewrite (hasChanged_any_time _ _ (reported + debounceDelay) t). }
      rewrite Hno in N2, N3. exists t. cbv zeta. fold first.
      split; [congruence|]. split.
      * now rewrite N2, app_nil_r.
      * now rewrite N3.
    + exists (reported + debounceDelay).
      rewrite (elapse_not_due reported a) by (rewrite Et; cbn [pending fireAt andb]; exact Edue).
      now apply notify_settles.
  - exists (reported + debounceDelay).
    rewrite (elapse_not_due reported a) by (now rewrite Et).
    now apply notify_settles.
  - exists (reported + debounceDelay).
    rewrite (elapse_not_due reported a) by (now rewrite Et).
    now apply notify_settles.
Qed.

(** Once a file has been processed, processing it again emits nothing. *)
Lemma processed_file_is_quiet (w : World) (f : FileWatcher) (content baseline : jsstring)
    (stamp : N) :
  readFileSync w = Some content ->
  lastContent f
  = (if hasChanged (calculateChanges baseline content stamp) then content else baseline) ->
  forall t, snd (processFileChange w t f) = [].
Proof.
  intros Hread Hlast t. rewrite (processFileChange_read w t f content Hread), Hlast.
  destruct (hasChanged (calculateChanges baseline content stamp)) eqn:E.
  - now rewrite calculateChanges_self.
  - now rewrite (hasChanged_any_time _ _ t stamp), E.
Qed.

(** ** core/encryption: what hexadecimal decoding discards *)

Lemma hexDecode_pair (a b : char16) (r : jsstring) :
  hexDecode (a :: b :: r)
  = match unhex a, unhex b with
    | Some x, Some y => byteOfN (16 * x + y) :: hexDecode r
    | _, _ => []
    end.
Proof. reflexivity. Qed.

(** Text that decodes to nothing, behind an encoded buffer, is dropped. *)
Lemma hexDecode_discards (buf : list byte) (garbage : jsstring) :
  hexDecode garbage = [] -> hexDecode (hexEncode buf ++ garbage) = buf.
Proof.
  intros Hg. induction buf as [|b r IH]; [exact Hg|].
  pose proof (hexDecode_hexEncode [b]) as Hb.
  change (hexEncode [b])
    with [hexDigit (Strings.Byte.to_N b / 16); hexDigit (Strings.Byte.to_N b mod 16)] in Hb.
  change (hexEncode (b :: r) ++ garbage)
    with (hexDigit (Strings.Byte.to_N b / 16) :: hexDigit (Strings.Byte.to_N b mod 16)
            :: (hexEncode r ++ garbage)).
  rewrite hexDecode_pair in Hb. rewrite hexDecode_pair.
  destruct (unhex (hexDigit (Strings.Byte.to_N b / 16))) as [x|]; [|discriminate].
  destruct (unhex (hexDigit (Strings.Byte.to_N b mod 16))) as [y|]; [|discriminate].
  rewrite IH. f_equal. congruence.
Qed.

Lemma odd_length_discarded (buf : list byte) (garbage : jsstring) :
  Nat.odd (List.length (hexEncode buf ++ garbage)) = Nat.odd (List.length garbage).
Proof.
  rewrite length_app, Nat.odd_add, length_hexEncode_even. reflexivity.
Qed.

Lemma standIn_opens_only_sealed : opensOnlySealed (crypto := standIn).
Proof.
  intros key iv tag cipherText plain. cbn. unfold standInDecrypt, standInEncrypt.
  destruct (list_eq_dec Strings.Byte.byte_eq_dec tag iv) as [->|]; [|discriminate].
  intros [= <-]. cbn. split; [apply rev_involutive|]. exists []. now rewrite app_nil_r.
Qed.

Section SurfacedProperties.

Context {crypto : Crypto}.
Variable projectName : jsstring.

(** C7, as amended: [decryptValue] reads its three fields through
    hexadecimal decoding and hands the bytes to AES-256-GCM.  It throws
    whenever the cipher refuses those bytes; what it returns is the
    decoded plain text that the cipher opened, which (the cipher opening
    only what was sealed) is the plain text whose sealing under the
    derived key and the decoded IV is the decoded ciphertext, with a tag
    that the decoded tag begins.  What hexadecimal decoding discards is
    not noticed: fields followed by text that decodes to nothing decrypt
    as the fields themselves.  [decryptVariables] throws at the first
    record that does not decrypt, with an error that names the key of
    that record, and returns variables only when every record
    decrypted. *)
Theorem decryption_failure_is_surfaced (em : EncryptionManager) :
  (forall encryptedValue iv authTag,
      aes256gcmDecrypt (deriveKey em) (hexDecode iv) (hexDecode authTag)
        (hexDecode encryptedValue) = None ->
      decryptValue em encryptedValue iv authTag = Throw CryptoError)
  /\ (forall encryptedValue iv authTag value,
      decryptValue em encryptedValue iv authTag = Return value ->
      exists plain,
        aes256gcmDecrypt (deriveKey em) (hexDecode iv) (hexDecode authTag)
          (hexDecode encryptedValue) = Some plain
        /\ value = utf8Decode plain
        /\ (opensOnlySealed ->
            fst (aes256gcmEncrypt (deriveKey em) (hexDecode iv) plain)
            = hexDecode encryptedValue
            /\ exists rest,
                 snd (aes256gcmEncrypt (deriveKey em) (hexDecode iv) plain)
                 = hexDecode authTag ++ rest))
  /\ (forall cipherText ivBytes tag g1 g2 g3,
      hexDecode g1 = [] -> Nat.odd (List.length g1) = false ->
      hexDecode g2 = [] -> hexDecode g3 = [] ->
      decryptValue em (hexEncode cipherText ++ g1) (hexEncode ivBytes ++ g2)
        (hexEncode tag ++ g3)
      = decryptValue em (hexEncode cipherText) (hexEncode ivBytes) (hexEncode tag))
  /\ (forall encrypted,
      (exists item, In item encrypted /\ undecryptable em item) ->
      exists before item rest,
        encrypted = before ++ item :: rest
        /\ (forall i, In i before -> ~ undecryptable em i)
        /\ undecryptable em item
        /\ decryptVariables em encrypted
           = Throw (Error (js "Failed to decrypt variable " ++ key item)))
  /\ (forall encrypted vars,
      decryptVariables em encrypted = Return vars ->
      forall item, In item encrypted -> ~ undecryptable em item).
Proof.
  split; [|split; [|split; [|split]]].
  - intros e i t H. unfold decryptValue. rewrite H.
    destruct (Nat.odd _); reflexivity.
  - intros e i t value. unfold decryptValue.
    destruct (Nat.odd _); [discriminate|].
    destruct (aes256gcmDecrypt _ _ _ _) as [plain|] eqn:E; [|discriminate].
    intros [= <-]. exists plain. split; [reflexivity|]. split; [reflexivity|].
    intros Hlaw. exact (Hlaw _ _ _ _ _ E).
  - intros c i t g1 g2 g3 H1 Hodd H2 H3. unfold decryptValue.
    rewrite !hexDecode_discards by assumption.
    rewrite odd_length_discarded, Hodd, !hexDecode_hexEncode, length_hexEncode_even.
    reflexivity.
  - intros encrypted H.
    destruct (@first_undecryptable _ em encrypted H) as [before [item [rest [-> [H1 H2]]]]].
    exists before, item, rest. repeat split; try assumption.
    now apply decryptVariablesFrom_first_failure.
  - intros encrypted vars H item Hin [e He].
    destruct (@decryptVariablesFrom_Return _ em encrypted [] vars H item Hin) as [v Hv].
    congruence.
Qed.



(** C1, as amended: the poll leaves the watcher as it was; nothing
    resynchronizes the Baseline.  A write of the pull over a file that
    was there is reported by chokidar, some time later, as a ['change']
    like any edit: when the debounce delay has passed after the report
    the watcher has compared the stale Baseline with what the pull wrote
    and, when they differ, has emitted that difference once and taken
    the written content as its Baseline; from then on processing the file
    again emits nothing.  A write that creates the file is not reported
    as a ['change']: with no timer waiting, nothing is emitted and the
    Baseline stays stale however much time passes. *)
Theorem pull_write_reaches_the_detector (now : N) (d : Detector) :
  let before := elapse now d in
  let after := pollTick projectName now d in
  fw after = fw before
  /\ emitted after = emitted before
  /\ (writes (world after) <> writes (world before) ->
      envFile (world before) <> None ->
      watcher (fw before) = true ->
      exists written,
        readFileSync (world after) = Some written
        /\ forall reported later,
             now <= reported -> reported + debounceDelay <= later ->
             exists stamp,
               let changes := calculateChanges (lastContent (fw before)) written stamp in
               let settled := elapse later (change reported after) in
               emitted settled
               = emitted before ++ (if hasChanged changes then [EnvChanged changes] else [])
               /\ lastContent (fw settled)
                  = (if hasChanged changes then written else lastContent (fw before))
               /\ forall t, snd (processFileChange (world settled) t (fw settled)) = [])
  /\ (envFile (world before) = None -> idle before ->
      forall later, elapse later after = after).
Proof.
  cbv zeta. unfold pollTick. set (before := elapse now d).
  set (w' := checkRemoteChanges projectName (world before)).
  split; [reflexivity|]. split; [reflexivity|]. split.
  - cbn [world]. intros Hwrites _ Hw.
    destruct (checkRemoteChanges_cases projectName (world before))
      as [[_ Hn]|[vars [Hf _]]]; [fold w' in Hn; congruence|].
    fold w' in Hf.
    set (written := utf8Decode (utf8Encode (envContent vars))).
    assert (Hread : readFileSync w' = Some written)
      by (unfold readFileSync; now rewrite Hf).
    exists written. split; [exact Hread|].
    intros reported later _ Hlater.
    destruct (change_settles
                {| world := w'; fw := fw before; emitted := emitted before |}
                written reported later Hw Hread Hlater) as [stamp [S1 [S2 S3]]].
    exists stamp. cbn [world fw emitted] in S1, S2, S3.
    split; [exact S2|]. split; [exact S3|].
    rewrite S1. now apply (processed_file_is_quiet w' _ written (lastContent (fw before)) stamp).
  - intros _ Hidle later. apply elapse_idle. exact Hidle.
Qed.

End SurfacedProperties.

(** ** core/file-watcher: when a second write comes *)

(** X22: two writes, each reported by chokidar some time after it was
    made, with reports at least the debounce delay apart.  What is
    emitted depends on when the second write comes.  When it comes after
    the timer of the first report has fired, the two writes are reported
    one by one: the first against the Baseline, the second against what
    the first left as Baseline.  When it comes before that timer fires,
    the timer reads the second write: one change is emitted, the
    difference of the Baseline and the second write, and the second
    report finds nothing left to emit. *)
Theorem second_write_decides_what_is_reported
    (d : Detector) (w1 r1 w2 r2 later : N) (c1 c2 : list byte) :
  watcher (fw d) = true -> idle d ->
  w1 <= r1 -> r1 <= w2 -> w2 <= r2 ->
  r1 + debounceDelay <= r2 -> r2 + debounceDelay <= later ->
  let d' := elapse later
              (change r2 (overwrite w2 c2 (change r1 (overwrite w1 c1 d)))) in
  (r1 + debounceDelay < w2 ->
   let first :=
     calculateChanges (lastContent (fw d)) (utf8Decode c1) (r1 + debounceDelay) in
   let baseline := if hasChanged first then utf8Decode c1 else lastContent (fw d) in
   let second := calculateChanges baseline (utf8Decode c2) (r2 + debounceDelay) in
   emitted d'
   = emitted d ++ (if hasChanged first then [EnvChanged first] else [])
               ++ (if hasChanged second then [EnvChanged second] else [])
   /\ lastContent (fw d') = (if hasChanged second then utf8Decode c2 else baseline))
  /\ (w2 < r1 + debounceDelay ->
      let only :=
        calculateChanges (lastContent (fw d)) (utf8Decode c2) (r1 + debounceDelay) in
      emitted d' = emitted d ++ (if hasChanged only then [EnvChanged only] else [])
      /\ lastContent (fw d')
         = (if hasChanged only then utf8Decode c2 else lastContent (fw d))).
Proof.
  intros Hw Hidle H1 H12 H2 Hr Hl d'.
  (* the first write and its report *)
  set (s1 := overwrite w1 c1 d).
  assert (Hs1 : fw s1 = fw d /\ emitted s1 = emitted d
                /\ readFileSync (world s1) = Some (utf8Decode c1)).
  { unfold s1, overwrite. rewrite (elapse_idle w1 d Hidle). repeat split. }
  destruct Hs1 as [Hs1f [Hs1e Hs1r]].
  set (s2 := change r1 s1).
  assert (Hs2 : fw s2 = {| watcher := true;
                           debounceTimer := Some {| fireAt := r1 + debounceDelay;
                                                    pending := true |};
                           lastContent := lastContent (fw d) |}
                /\ emitted s2 = emitted d /\ world s2 = world s1).
  { unfold s2, change. rewrite (elapse_idle r1 s1) by (unfold idle; now rewrite Hs1f).
    unfold notify. rewrite Hs1f, Hw. cbn [fw emitted world]. unfold handleFileChange.
    rewrite Hw. split; [reflexivity|]. split; [exact Hs1e|reflexivity]. }
  destruct Hs2 as [Hs2f [Hs2e Hs2w]].
  split.
  - (* the second write comes after the first timer has fired *)
    intros Hafter first baseline second.
    destruct (elapse_fires w2 (r1 + debounceDelay) s2 (utf8Decode c1) (lastContent (fw d))
                Hs2f ltac:(now rewrite Hs2w) ltac:(lia))
      as [_ [F2 [F3 [F4 F5]]]].
    fold first in F4, F5. fold baseline in F4.
    set (s3 := overwrite w2 c2 s2).
    assert (Hs3 : fw s3 = fw (elapse w2 s2) /\ emitted s3 = emitted (elapse w2 s2)
                  /\ readFileSync (world s3) = Some (utf8Decode c2)).
    { unfold s3, overwrite. repeat split. }
    destruct Hs3 as [Hs3f [Hs3e Hs3r]].
    assert (Hquiet : elapse r2 s3 = s3).
    { apply elapse_idle. now rewrite Hs3f. }
    unfold d'. fold s1 s2 s3. unfold change. rewrite Hquiet.
    destruct (notify_settles s3 (utf8Decode c2) r2 later ltac:(now rewrite Hs3f) Hs3r Hl)
      as [_ [N2 N3]].
    rewrite Hs3f, F4 in N2, N3. fold second in N2, N3.
    split; [|exact N3]. now rewrite N2, Hs3e, F5, Hs2e, app_assoc.
  - (* the second write comes before the first timer fires *)
    intros Hbefore only.
    set (s3 := overwrite w2 c2 s2).
    assert (Hearly : elapse w2 s2 = s2).
    { apply elapse_not_due. rewrite Hs2f. cbn [debounceTimer pending fireAt andb].
      apply N.leb_gt. exact Hbefore. }
    assert (Hs3 : fw s3 = fw s2 /\ emitted s3 = emitted s2
                  /\ readFileSync (world s3) = Some (utf8Decode c2)).
    { unfold s3, overwrite. rewrite Hearly. repeat split. }
    destruct Hs3 as [Hs3f [Hs3e Hs3r]].
    destruct (elapse_fires r2 (r1 + debounceDelay) s3 (utf8Decode c2) (lastContent (fw d))
                ltac:(now rewrite Hs3f) Hs3r Hr)
      as [G1 [G2 [_ [G4 G5]]]].
    fold only in G4, G5.
    destruct (notify_settles (elapse r2 s3) (utf8Decode c2) r2 later G2
                ltac:(now rewrite G1) Hl) as [_ [N2 N3]].
    assert (Hno : hasChanged (calculateChanges (lastContent (fw (elapse r2 s3)))
                                (utf8Decode c2) (r2 + debounceDelay)) = false).
    { rewrite G4. destruct (hasChanged only) eqn:Eo.
      - apply calculateChanges_self.
      - unfold only in Eo.
        now rewrite (hasChanged_any_time _ _ (r2 + debounceDelay) (r1 + debounceDelay)). }
    rewrite Hno in N2, N3. unfold d'. fold s1 s2 s3. unfold change.
    split.
    + now rewrite N2, app_nil_r, G5, Hs3e, Hs2e.
    + now rewrite N3, G4.
Qed.

(* ================================================================= *)
(** * Runs of the further properties on concrete inputs *)

(** The line [ PORT = '8080' ]. *)
Lemma parseEnvFile_entries_clean_witness :
  cleanKey (js "PORT") /\ ~ In LF (js "8080") /\ wellFormed (js "8080") = true.
Proof.
  apply (parseEnvFile_entries_clean (demoWorld (js " PORT = '8080' ") [])).
  vm_compute. left. reflexivity.
Defined.

(** The call of the [init] command on a file that lists [node_modules]. *)
Lemma updateGitignore_appends_witness :
  let gitignore := Some (utf8Encode (js "node_modules")) in
  let entries := [js ".env"; js ".envman/credentials"] in
  includes (textOf (updateGitignore gitignore entries)) (js ".envman/credentials") = true.
Proof.
  cbv zeta.
  refine (proj2 (updateGitignore_appends (Some (utf8Encode (js "node_modules")))
                   [js ".env"; js ".envman/credentials"] _) _ _).
  - intros e [<-|[<-|[]]]; reflexivity.
  - right. left. reflexivity.
Defined.

(** The same call, made twice. *)
Lemma updateGitignore_idempotent_witness :
  let gitignore := Some (utf8Encode (js "node_modules")) in
  let entries := [js ".env"; js ".envman/credentials"] in
  updateGitignore (updateGitignore gitignore entries) entries
  = updateGitignore gitignore entries.
Proof.
  cbv zeta. apply updateGitignore_idempotent.
  intros e [<-|[<-|[]]]; reflexivity.
Defined.

(** Two variables under the stand-in primitives. *)
Lemma encryptVariables_round_trip_witness :
  let vars := [(js "A", js "1"); (js "B", js "2")] in
  exists remoteVars,
    decryptVariables (crypto := standIn) demoManager (demoEncrypt vars) = Return remoteVars
    /\ forall k, getOwn k remoteVars = getOwn k vars.
Proof.
  cbv zeta.
  refine (@encryptVariables_round_trip standIn standInLower demoManager demoRandomBytes
            [(js "A", js "1"); (js "B", js "2")] standInSha256_length
            (fun key iv plain _ _ => standIn_opens_sealed key iv plain)
            (fun _ => eq_refl) _ _).
  - repeat constructor; simpl; intuition discriminate.
  - intros k v [H|[H|[]]]; injection H as <- <-; split; try discriminate; reflexivity.
Defined.

(** A push of the file [A=1]. *)
Lemma performPush_sends_the_file_witness :
  let w := demoWorld (js "A=1") [] in
  exists remoteVars,
    decryptVariables (crypto := standIn) demoManager (snd (demoPush w)) = Return remoteVars
    /\ forall k, getOwn k remoteVars = getOwn k (parseEnvFile (readFileSync w)).
Proof.
  cbv zeta.
  exact (@performPush_sends_the_file standIn standInLower (js "demo") demoRandomBytes
           demoAccept (demoWorld (js "A=1") []) standInSha256_length
           (fun key iv plain _ _ => standIn_opens_sealed key iv plain)
           (fun _ => eq_refl)).
Defined.

(** A sync in both directions with a store that answers what it was sent. *)
Lemma one_time_sync_echo_witness :
  let w := demoEcho (js "A=1") in
  let run := demoSync {| pushOnly := false; pullOnly := false |} w in
  result run = Return tt /\ unchangedFile w (after run)
  /\ pushed run = [demoEncrypt (parseEnvFile (readFileSync w))].
Proof.
  cbv zeta.
  refine (@one_time_sync_echo standIn standInLower (js "demo")
            {| pushOnly := false; pullOnly := false |} demoRandomBytes demoAccept
            (demoEcho (js "A=1")) (js "ok") standInSha256_length
            (fun key iv plain _ _ => standIn_opens_sealed key iv plain)
            (fun _ => eq_refl) eq_refl eq_refl eq_refl _).
  vm_compute. reflexivity.
Defined.

(** The file holds [A=1], the store [A=1] and [B=2]: the first pull
    writes, the second does not. *)
Lemma second_pull_does_not_write_witness :
  let w := demoWorld (js "A=1") [demoRecord "A" "1"; demoRecord "B" "2"] in
  unchangedFile (snd (demoPull w)) (snd (demoPull (snd (demoPull w)))).
Proof.
  cbv zeta.
  refine (@second_pull_does_not_write standIn (js "demo")
            (demoWorld (js "A=1") [demoRecord "A" "1"; demoRecord "B" "2"])
            [demoRecord "A" "1"; demoRecord "B" "2"]
            [(js "A", js "1"); (js "B", js "2")] eq_refl eq_refl _ _).
  - vm_compute. reflexivity.
  - intros k v [H|[H|[]]]; injection H as <- <-;
      (split; [unfold cleanKey|unfold cleanValue]);
      repeat split; try (vm_compute; reflexivity); try discriminate;
      simpl; intuition discriminate.
Defined.

(** One record under the stand-in primitives. *)
Lemma decryptVariables_result_witness :
  NoDup (keys [(js "A", js "1")])
  /\ forall k v, In (k, v) [(js "A", js "1")] ->
       k <> js "__proto__"
       /\ wellFormed v = true
       /\ utf8Decode (utf8Encode v) = v
       /\ exists item, In item [demoRecord "A" "1"] /\ key item = k
            /\ decryptValue (crypto := standIn) demoManager
                 (encryptedValue item) (iv item) (authTag item) = Return v.
Proof.
  apply (@decryptVariables_result standIn demoManager [demoRecord "A" "1"]).
  vm_compute. reflexivity.
Defined.

(** A comment line after [A=1]. *)
Lemma appended_comments_are_not_reported_witness :
  let f := {| watcher := true; debounceTimer := None; lastContent := js "A=1" |} in
  let w := demoWorld (js "A=1" ++ LF :: js "# a note") [] in
  processFileChange w 0 f = (f, []).
Proof.
  cbv zeta.
  refine (appended_comments_are_not_reported (demoWorld (js "A=1" ++ LF :: js "# a note") [])
            0 {| watcher := true; debounceTimer := None; lastContent := js "A=1" |}
            (js "# a note") _ _).
  - vm_compute. reflexivity.
  - intros line [<-|[]]. right. vm_compute. reflexivity.
Defined.

(** [A=2] after [A=1]. *)
Lemma appended_line_sets_its_key_witness :
  getOwn (js "A") (parseEnvFile (Some (js "A=1" ++ LF :: envLine (js "A", js "2"))))
  = Some (js "2").
Proof.
  refine (proj1 (proj2 (appended_line_sets_its_key (js "A=1") (js "A") (js "2") _ _))).
  - unfold cleanKey. repeat split; try (vm_compute; reflexivity); try discriminate;
      simpl; intuition discriminate.
  - unfold cleanValue. repeat split; try (vm_compute; reflexivity); try discriminate;
      simpl; intuition discriminate.
Defined.

(** The line [A='1']. *)
Lemma watcher_sees_what_is_pushed_witness :
  In (js "A") (keys (parseEnvContent (js "A='1'"))).
Proof.
  apply watcher_sees_what_is_pushed. vm_compute. left. reflexivity.
Defined.

(** A watcher restarted while its timer waits. *)
Lemma watch_again_discards_pending_change_witness :
  let d := {| world := demoWorld (js "A=1") [];
              fw := {| watcher := true;
                       debounceTimer := Some {| fireAt := 5; pending := true |};
                       lastContent := [] |};
              emitted := [] |} in
  emitted (elapse 2005 (watchDetector d)) = [Stopped; Started].
Proof.
  cbv zeta.
  pose proof (watch_again_discards_pending_change
                {| world := demoWorld (js "A=1") [];
                   fw := {| watcher := true;
                            debounceTimer := Some {| fireAt := 5; pending := true |};
                            lastContent := [] |};
                   emitted := [] |} 2005 0 eq_refl) as [H1 [_ [_ [_ [H2 _]]]]].
  rewrite H2. exact H1.
Defined.

(** The entry [.env] and a file that lists [.env.local]. *)
Lemma updateGitignore_entry_inside_a_line_witness :
  updateGitignore (Some (utf8Encode (js ".env.local"))) [js ".env"]
  = Some (utf8Encode (js ".env.local")).
Proof.
  exact (updateGitignore_entry_inside_a_line [] (js ".env") (js ".local") eq_refl).
Defined.


(* ================================================================= *)
(** * Runs of the poller, the pull and decryption on concrete inputs *)

(** C1, counterexample: the local file and the Baseline hold [A=1], the
    remote store holds [A=1] and [B=2].  The poll writes the file and the
    Baseline stays [A=1]; chokidar reports the write a second later, and
    two seconds after the report the detector emits a change, [B] added,
    with no local edit made. *)
Lemma pull_write_is_taken_for_a_local_edit :
  let d := demoDetector (demoWorld (js "A=1") [demoRecord "A" "1"; demoRecord "B" "2"]) in
  let after := demoPoll 0 d in
  lastContent (fw after) = js "A=1"
  /\ readFileSync (world after) = Some (js "A=1" ++ LF :: js "B=2" ++ [LF])
  /\ emitted (elapse 2999 (change 1000 after)) = []
  /\ map variables (envChanges (emitted (elapse 3000 (change 1000 after))))
     = [ {| added := [js "B"]; modified := []; removed := [] |} ].
Proof. vm_compute. repeat split. Qed.


(** C2, at a concrete input where the second pull fails: the first
    answer has a new key, the store throws at the second pull, and the
    file is left as it is. *)
Lemma second_pull_fails_and_nothing_is_written :
  let w := {| envFile := Some (utf8Encode (js "A=1")); writes := 0;
              remote := fun n => match n with
                                 | O => PullResponse true
                                          (Some [demoRecord "A" "1"; demoRecord "B" "2"])
                                 | S _ => PullThrows (TransportError (js "offline"))
                                 end;
              pullCalls := 0 |} in
  unchangedFile w (demoCheck w) /\ pullCalls (demoCheck w) = 2%nat.
Proof. vm_compute. repeat split. Qed.

(** C7, counterexample: each of the three fields of a record is followed
    by the two characters [zz].  No field is what encryption made, yet
    hexadecimal decoding drops what follows the digits and the record
    decrypts to the value. *)
Lemma trailing_garbage_decrypts :
  let good := demoRecord "A" "1" in
  let corrupt := {| key := js "A";
                    encryptedValue := encryptedValue good ++ js "zz";
                    iv := iv good ++ js "zz";
                    authTag := authTag good ++ js "zz";
                    isSecret := false |} in
  encryptedValue corrupt <> encryptedValue good
  /\ iv corrupt <> iv good
  /\ authTag corrupt <> authTag good
  /\ decryptValue (crypto := standIn) demoManager
       (encryptedValue corrupt) (iv corrupt) (authTag corrupt) = Return (js "1")
  /\ decryptVariables (crypto := standIn) demoManager [corrupt]
     = Return [(js "A", js "1")].
Proof. vm_compute. repeat split; discriminate. Qed.


(** Writes at 0 and 2000 ms, reported at 1000 and 3000 ms: the timer of
    the first report fires at 3000 ms and reads the second write; one
    change is emitted. *)
Lemma second_write_decides_what_is_reported_witness :
  let d := demoDetector (demoWorld (js "A=0") []) in
  let d' := elapse 5000
              (change 3000 (overwrite 2000 (utf8Encode (js "A=2"))
                 (change 1000 (overwrite 0 (utf8Encode (js "A=1")) d)))) in
  map variables (envChanges (emitted d'))
  = [ {| added := []; modified := [js "A"]; removed := [] |} ].
Proof.
  cbv zeta.
  rewrite (proj1 (proj2 (second_write_decides_what_is_reported
                    (demoDetector (demoWorld (js "A=0") [])) 0 1000 2000 3000 5000
                    (utf8Encode (js "A=1")) (utf8Encode (js "A=2"))
                    eq_refl I ltac:(vm_compute; discriminate) ltac:(vm_compute; discriminate)
                    ltac:(vm_compute; discriminate) ltac:(vm_compute; discriminate)
                    ltac:(vm_compute; discriminate)) eq_refl)).
  vm_compute. reflexivity.
Defined.
